(** * TileDB storage manager core: utilities, namespace, registry, consolidation

    A shallow embedding of [core/src/misc/utils.cc] and
    [core/src/storage_manager/storage_manager.cc], and the properties of
    the storage-management specification checked against it.

    Conventions of the embedding:
    - [std::string] is a list of characters ([str]); literals are written
      [(s "...")].
    - C++ [int], [int64_t], [size_t] values are integers in [Z]; where the
      source relies on a conversion (a negative [int] passed as a
      [size_t]) the conversion is written out.
    - A function that can hit an [assert], or throw, returns in the [Res]
      monad; [Status] is the source's own status value.
    - The file system and the process environment are an explicit state
      ([Sys]) that the operations thread through. *)

From Stdlib Require Import ZArith List Ascii String Bool Lia.
From Stdlib Require Import Sorting.Permutation Sorting.Sorted.
From Stdlib Require Import Floats.
From stdpp Require Import base option list gmap strings.

Local Open Scope Z_scope.
Local Open Scope list_scope.

(** ** Strings *)

Definition str := list ascii.

Definition s (x : string) : str := list_ascii_of_string x.
Arguments s : simpl never.

Definition NUL : ascii := Ascii.zero.
Definition SLASH : ascii := "/"%char.
Definition USCORE : ascii := "_"%char.

Definition str_eqb (a b : str) : bool := bool_decide (a = b).

(** [s.substr(pos)] for [pos <= s.size()], and [s.substr(pos, len)]. *)
Definition substr_from (x : str) (pos : nat) : str := drop pos x.
Definition substr (x : str) (pos len : nat) : str := take len (drop pos x).

(** ** Results of code that may abort *)

Inductive failure : Type :=
| AssertionFailed   (* an [assert] of the source does not hold *)
| OutOfRange        (* [std::out_of_range] thrown by [substr] *)
| OutOfBounds       (* an array is read past its end *)
| NullDereference.  (* a null pointer is dereferenced *)

Inductive Res (A : Type) : Type :=
| Ret (a : A)
| Abort (f : failure).
Arguments Ret {A} a.
Arguments Abort {A} f.

Definition bind {A B} (r : Res A) (k : A -> Res B) : Res B :=
  match r with
  | Ret a => k a
  | Abort f => Abort f
  end.

Notation "'let*' x ':=' c1 'in' c2" := (bind c1 (fun x => c2))
  (at level 10, x name, c1 at level 100, c2 at level 200).

Definition assert (b : bool) : Res unit :=
  if b then Ret tt else Abort AssertionFailed.

(** ** utils.cc: path canonicalisation *)

(** [both_slashes] *)
Definition both_slashes (a b : ascii) : bool :=
  Ascii.eqb a SLASH && Ascii.eqb b SLASH.

(** [std::unique(first, last, p)]: an element is dropped when [p] holds
    of the last element kept and it. *)
Fixpoint unique_from {A} (p : A -> A -> bool) (prev : A) (l : list A) : list A :=
  match l with
  | [] => []
  | x :: t => if p prev x then unique_from p prev t else x :: unique_from p x t
  end.

Definition std_unique {A} (p : A -> A -> bool) (l : list A) : list A :=
  match l with
  | [] => []
  | a :: t => a :: unique_from p a t
  end.

(** [adjacent_slashes_dedup] *)
Definition adjacent_slashes_dedup (value : str) : str :=
  std_unique both_slashes value.

(** [starts_with] *)
Definition starts_with (value prefix : str) : bool :=
  if (length value <? length prefix)%nat then false
  else str_eqb prefix (take (length prefix) value).

(** The characters of a C string: those before the first NUL. *)
Fixpoint c_str (x : str) : str :=
  match x with
  | [] => []
  | c :: t => if Ascii.eqb c NUL then [] else c :: c_str t
  end.

(** The pieces of [x] between the occurrences of [sep]. *)
Fixpoint split_on (sep : ascii) (x : str) : list str :=
  match x with
  | [] => [[]]
  | c :: t =>
      if Ascii.eqb c sep then [] :: split_on sep t
      else match split_on sep t with
           | [] => [[c]]
           | piece :: rest => (c :: piece) :: rest
           end
  end.

(** The tokenizer of [purge_dots_from_path]: the loop starts at index 1,
    overwrites each '/' with NUL and reads the token before it as a C
    string; empty tokens are not pushed. *)
Definition tokenize (path : str) : list str :=
  List.filter (fun t => negb (str_eqb t [])) (map c_str (split_on SLASH (drop 1 path))).

(** The dot-purging loop over the tokens; [None] is the early return of
    the "Invalid path" branch. *)
Fixpoint purge_tokens (tokens final_tokens : list str) : option (list str) :=
  match tokens with
  | [] => Some final_tokens
  | t :: rest =>
      if str_eqb t (s ".") then purge_tokens rest final_tokens
      else if str_eqb t (s "..") then
        if (length final_tokens =? 0)%nat then None
        else purge_tokens rest (removelast final_tokens)
      else purge_tokens rest (final_tokens ++ [t])
  end.

(** The final loop: [path = "/"; path += ((i != 0) ? "/" : "") + final_tokens[i]]. *)
Fixpoint join_tokens (toks : list str) : str :=
  match toks with
  | [] => []
  | [t] => t
  | t :: rest => t ++ SLASH :: join_tokens rest
  end.

Definition assemble (final_tokens : list str) : str := SLASH :: join_tokens final_tokens.

(** [purge_dots_from_path] *)
Definition purge_dots_from_path (path : str) : Res str :=
  if (length path =? 0)%nat || str_eqb path (s "/") then Ret path
  else
    let* _ := assert (match path with c :: _ => Ascii.eqb c SLASH | [] => false end) in
    match purge_tokens (tokenize path) [] with
    | None => Ret []
    | Some final_tokens => Ret (assemble final_tokens)
    end.

(** [real_dir]. [current] is the result of [current_dir()] (the working
    directory, or the empty string when [getcwd] fails) and [home] the
    value of the HOME environment variable. *)
Definition real_dir (current home : str) (dir : str) : Res str :=
  let root := s "/" in
  if str_eqb dir (s "") || str_eqb dir (s ".") || str_eqb dir (s "./") then Ret current
  else if str_eqb dir (s "~") then Ret home
  else if str_eqb dir (s "/") then Ret root
  else
    let ret_dir :=
      if starts_with dir (s "/") then root ++ dir
      else if starts_with dir (s "~/") then home ++ substr dir 1 (length dir - 1)
      else if starts_with dir (s "./") then current ++ substr dir 1 (length dir - 1)
      else current ++ s "/" ++ dir in
    purge_dots_from_path (adjacent_slashes_dedup ret_dir).

(** Character at an [int] index; the source only reads inside the string,
    except for [parent_dir] on the empty string (index -1), where the
    value read does not change the result. *)
Definition char_at (x : str) (pos : Z) : ascii :=
  if pos <? 0 then NUL else nth (Z.to_nat pos) x NUL.

(** [while(pos > 0 && real_dir[pos] != '/') --pos;] *)
Fixpoint scan_back (x : str) (pos : Z) (fuel : nat) : Z :=
  match fuel with
  | O => pos
  | S fuel' =>
      if (0 <? pos) && negb (Ascii.eqb (char_at x pos) SLASH)
      then scan_back x (pos - 1) fuel'
      else pos
  end.

(** [std::string::substr(0, n)] with an [int] count: a negative count
    converts to a huge [size_t], and the whole string is returned. *)
Definition substr0_int (x : str) (n : Z) : str :=
  if n <? 0 then x else take (Z.to_nat n) x.

(** [parent_dir] *)
Definition parent_dir (current home : str) (dir : str) : Res str :=
  let* real := real_dir current home dir in
  let pos := Z.of_nat (length real) - 1 in
  let pos := if Ascii.eqb (char_at real pos) SLASH then pos - 1 else pos in
  let pos := scan_back real pos (length real) in
  Ret (substr0_int real pos).

(** ** The operating system: files, directories, descriptors

    The file system is a finite map from resolved absolute path names to
    nodes; the process has a working directory, a HOME variable and a
    table of open descriptors. Every mutating system call that succeeds
    is appended to [sys_trace], so that the order of the effects of an
    operation can be read off the final state. The model is sequential
    and deterministic: a call fails exactly when its POSIX precondition
    on the file system fails. There are no symbolic links. *)

Inductive node : Type :=
| Dir
| File (data : str).

Inductive lock_type : Type := F_RDLCK | F_WRLCK.

Inductive event : Type :=
| EvMkdir (path : str)
| EvCreat (path : str)
| EvWrite (path : str) (data : str)
| EvUnlink (path : str)
| EvDeleteDir (path : str)
| EvOpen (fd : Z) (path : str)
| EvLock (fd : Z) (l : lock_type)
| EvClose (fd : Z).

Record Sys : Type := mkSys {
  sys_cwd : str;
  sys_home : str;
  sys_nodes : gmap str node;
  sys_fds : gmap Z str;
  sys_next_fd : Z;
  sys_trace : list event
}.

(** Path resolution by the kernel: relative names start at the working
    directory, empty components and "." are skipped, ".." goes up (and
    stays at the root). The empty name does not resolve (ENOENT). A C
    string argument ends at its first NUL. *)
Fixpoint os_walk (tokens stack : list str) : list str :=
  match tokens with
  | [] => stack
  | t :: rest =>
      if str_eqb t [] || str_eqb t (s ".") then os_walk rest stack
      else if str_eqb t (s "..") then os_walk rest (removelast stack)
      else os_walk rest (stack ++ [t])
  end.

Definition os_resolve (w : Sys) (name : str) : option str :=
  let name := c_str name in
  if str_eqb name [] then None
  else
    let abs := if starts_with name (s "/") then name else sys_cwd w ++ SLASH :: name in
    Some (assemble (os_walk (split_on SLASH abs) [])).

(** The node at a resolved path; the root directory always exists. *)
Definition node_at (w : Sys) (key : str) : option node :=
  if str_eqb key (s "/") then Some Dir else sys_nodes w !! key.

(** The directory part of a resolved path. *)
Definition os_dirname (key : str) : str :=
  assemble (removelast (List.filter (fun t => negb (str_eqb t [])) (split_on SLASH key))).

(** [stat] *)
Definition sys_stat (w : Sys) (name : str) : option node :=
  match os_resolve w name with
  | Some key => node_at w key
  | None => None
  end.

(** The effect of a system call that succeeds: on the nodes, on the
    descriptor table, and the entry it leaves in the trace. *)
Definition event_nodes (e : event) (m : gmap str node) : gmap str node :=
  match e with
  | EvMkdir key => <[key := Dir]> m
  | EvCreat key => <[key := File []]> m
  | EvWrite key data =>
      match m !! key with
      | Some (File old) => <[key := File (data ++ drop (length data) old)]> m
      | _ => m
      end
  | EvUnlink key => delete key m
  | EvDeleteDir key =>
      filter (fun kv => str_eqb kv.1 key || starts_with kv.1 (key ++ [SLASH]) = false) m
  | EvOpen _ _ | EvLock _ _ | EvClose _ => m
  end.

Definition event_fds (e : event) (fds : gmap Z str) : gmap Z str :=
  match e with
  | EvOpen fd key => <[fd := key]> fds
  | EvClose fd => delete fd fds
  | _ => fds
  end.

Definition event_next_fd (e : event) (next : Z) : Z :=
  match e with
  | EvOpen fd _ => fd + 1
  | _ => next
  end.

Definition apply_event (e : event) (w : Sys) : Sys :=
  mkSys (sys_cwd w) (sys_home w)
        (event_nodes e (sys_nodes w))
        (event_fds e (sys_fds w))
        (event_next_fd e (sys_next_fd w))
        (sys_trace w ++ [e]).

(** The state after a sequence of successful calls. *)
Definition replay (evs : list event) (w : Sys) : Sys :=
  fold_left (fun w e => apply_event e w) evs w.

(** [mkdir(name, S_IRWXU)]: [None] is the error return. *)
Definition sys_mkdir (w : Sys) (name : str) : option Sys :=
  match os_resolve w name with
  | None => None
  | Some key =>
      match node_at w key, node_at w (os_dirname key) with
      | None, Some Dir => Some (apply_event (EvMkdir key) w)
      | _, _ => None
      end
  end.

(** [open(name, O_WRONLY | O_CREAT | O_SYNC, S_IRWXU)], a [write] of
    [data] (none when [data] is empty) and [close]: the file is created
    when absent, and the bytes are written at its start. *)
Definition sys_creat_write (w : Sys) (name : str) (data : str) : option Sys :=
  match os_resolve w name with
  | None => None
  | Some key =>
      let written w := if str_eqb data [] then w else apply_event (EvWrite key data) w in
      match node_at w key, node_at w (os_dirname key) with
      | None, Some Dir => Some (written (apply_event (EvCreat key) w))
      | Some (File _), _ => Some (written w)
      | _, _ => None
      end
  end.

(** The names directly inside the directory at [key]. *)
Definition child_name (key : str) (k : str) : option str :=
  let prefix := if str_eqb key (s "/") then key else key ++ [SLASH] in
  if starts_with k prefix then
    let name := drop (length prefix) k in
    if str_eqb name [] || bool_decide (SLASH ∈ name) then None else Some name
  else None.

Definition children (w : Sys) (key : str) : list str :=
  omap (fun kv => child_name key kv.1) (map_to_list (sys_nodes w)).

(** [remove(name)]: unlinks a file, or removes an empty directory. *)
Definition sys_remove (w : Sys) (name : str) : option Sys :=
  match os_resolve w name with
  | None => None
  | Some key =>
      match sys_nodes w !! key with
      | Some (File _) => Some (apply_event (EvUnlink key) w)
      | Some Dir =>
          match children w key with
          | [] => Some (apply_event (EvUnlink key) w)
          | _ :: _ => None
          end
      | None => None
      end
  end.

(** [opendir] followed by [readdir] until the end: the entries of the
    directory, "." and ".." included; [None] when [opendir] returns NULL. *)
Definition sys_readdir (w : Sys) (name : str) : option (list str) :=
  match os_resolve w name with
  | None => None
  | Some key =>
      match node_at w key with
      | Some Dir => Some (s "." :: s ".." :: children w key)
      | _ => None
      end
  end.

(** [open(name, O_RDWR)]: the new descriptor, or -1. *)
Definition sys_open_rdwr (w : Sys) (name : str) : Z * Sys :=
  match os_resolve w name with
  | None => (-1, w)
  | Some key =>
      match node_at w key with
      | Some (File _) => (sys_next_fd w, apply_event (EvOpen (sys_next_fd w) key) w)
      | _ => (-1, w)
      end
  end.

(** [fcntl(fd, F_SETLKW, &fl)] on the whole file: in a sequential run the
    lock is granted when the descriptor is open. *)
Definition sys_setlkw (w : Sys) (fd : Z) (l : lock_type) : option Sys :=
  match sys_fds w !! fd with
  | Some _ => Some (apply_event (EvLock fd l) w)
  | None => None
  end.

(** [close(fd)]; closing drops the locks held through the descriptor. *)
Definition sys_close (w : Sys) (fd : Z) : option Sys :=
  match sys_fds w !! fd with
  | Some _ => Some (apply_event (EvClose fd) w)
  | None => None
  end.

(** ** Status values *)

(** The source's [Status]: [Status::Ok()], [Status::StorageManagerError(msg)],
    and the error status of a failed [utils::] call. Where the source
    appends [strerror(errno)] to a message, the message is kept up to that
    point. *)
Inductive Status : Type :=
| Ok
| StorageManagerError (msg : str)
| UtilsError.

Definition ok (st : Status) : bool :=
  match st with
  | Ok => true
  | _ => false
  end.

(** ** utils.cc: predicates and helpers over the file system *)

(** Modelled from the spec: the marker file names of constants.h, as the
    file-system layout of the specification gives them. *)
Definition TILEDB_WORKSPACE_FILENAME : str := s "__tiledb_workspace.tdb".
Definition TILEDB_GROUP_FILENAME : str := s "__tiledb_group.tdb".
Definition TILEDB_ARRAY_SCHEMA_FILENAME : str := s "__array_schema.tdb".
Definition TILEDB_METADATA_SCHEMA_FILENAME : str := s "__metadata_schema.tdb".
Definition TILEDB_FRAGMENT_FILENAME : str := s "__tiledb_fragment.tdb".
Definition TILEDB_SM_CONSOLIDATION_FILELOCK_NAME : str := s "__consolidation_lock".

(** [is_dir]: [stat(...) == 0 && S_ISDIR(st.st_mode)] *)
Definition is_dir (w : Sys) (dir : str) : bool :=
  match sys_stat w dir with
  | Some Dir => true
  | _ => false
  end.

(** [is_file]: [stat(...) == 0 && !S_ISDIR(st.st_mode)] *)
Definition is_file (w : Sys) (file : str) : bool :=
  match sys_stat w file with
  | Some (File _) => true
  | _ => false
  end.

Definition is_workspace (w : Sys) (dir : str) : bool :=
  is_dir w dir && is_file w (dir ++ s "/" ++ TILEDB_WORKSPACE_FILENAME).

Definition is_group (w : Sys) (dir : str) : bool :=
  is_dir w dir && is_file w (dir ++ s "/" ++ TILEDB_GROUP_FILENAME).

Definition is_array (w : Sys) (dir : str) : bool :=
  is_dir w dir && is_file w (dir ++ s "/" ++ TILEDB_ARRAY_SCHEMA_FILENAME).

Definition is_fragment (w : Sys) (dir : str) : bool :=
  is_dir w dir && is_file w (dir ++ s "/" ++ TILEDB_FRAGMENT_FILENAME).

(** Modelled from the spec: [utils::is_metadata], which utils.cc does not
    hold; "analogously for group/array/metadata/fragment", with the
    metadata schema file as the marker. *)
Definition is_metadata (w : Sys) (dir : str) : bool :=
  is_dir w dir && is_file w (dir ++ s "/" ++ TILEDB_METADATA_SCHEMA_FILENAME).

(** [create_dir] *)
Definition create_dir (w : Sys) (dir : str) : Res (Status * Sys) :=
  let* real := real_dir (sys_cwd w) (sys_home w) dir in
  if negb (is_dir w real) then
    match sys_mkdir w real with
    | None => Ret (UtilsError, w)
    | Some w' => Ret (Ok, w')
    end
  else Ret (UtilsError, w).

(** [create_fragment_file] *)
Definition create_fragment_file (w : Sys) (dir : str) : Status * Sys :=
  let filename := dir ++ s "/" ++ TILEDB_FRAGMENT_FILENAME in
  match sys_creat_write w filename [] with
  | None => (UtilsError, w)
  | Some w' => (Ok, w')
  end.

(** Modelled from the spec: [utils::delete_dir], which utils.cc does not
    hold; "recursively delete each old fragment directory": the directory
    and everything below it is removed, and the call fails when the name
    is not a directory. *)
Definition delete_dir (w : Sys) (dirname : str) : Res (Status * Sys) :=
  let* real := real_dir (sys_cwd w) (sys_home w) dirname in
  match os_resolve w real with
  | Some key =>
      match sys_nodes w !! key with
      | Some Dir => Ret (Ok, apply_event (EvDeleteDir key) w)
      | _ => Ret (UtilsError, w)
      end
  | None => Ret (UtilsError, w)
  end.

(** Modelled from the spec: [utils::get_fragment_dirs], which utils.cc
    does not hold; "enumerate fragments ([list_children] filtered by
    [is_fragment])", each child named [dir + "/" + d_name] as [get_dirs]
    does. *)
Definition get_fragment_dirs (w : Sys) (dir : str) : list str :=
  match sys_readdir w dir with
  | None => []
  | Some entries =>
      List.filter (is_fragment w)
        (map (fun d_name => dir ++ s "/" ++ d_name)
           (List.filter (fun d => negb (str_eqb d (s ".") || str_eqb d (s ".."))) entries))
  end.

(** ** storage_manager.cc: namespace operations *)

(** [create_workspace_file] *)
Definition create_workspace_file (w : Sys) (workspace : str) : Status * Sys :=
  let filename := workspace ++ s "/" ++ TILEDB_WORKSPACE_FILENAME in
  match sys_creat_write w filename [] with
  | None => (StorageManagerError (s "Failed to create workspace file; "), w)
  | Some w' => (Ok, w')
  end.

(** [create_group_file] *)
Definition create_group_file (w : Sys) (group : str) : Status * Sys :=
  let filename := group ++ s "/" ++ TILEDB_GROUP_FILENAME in
  match sys_creat_write w filename [] with
  | None => (StorageManagerError (s "Failed to create group file; "), w)
  | Some w' => (Ok, w')
  end.

(** [StorageManager::workspace_create] *)
Definition workspace_create (w : Sys) (workspace : str) : Res (Status * Sys) :=
  let* parent_dir := parent_dir (sys_cwd w) (sys_home w) workspace in
  if is_workspace w parent_dir || is_group w parent_dir ||
     is_array w parent_dir || is_metadata w parent_dir
  then Ret (StorageManagerError
              (s "The workspace cannot be contained in another workspace, group, array or metadata directory"),
            w)
  else
    let* r := create_dir w workspace in
    let '(st, w1) := r in
    if negb (ok st) then Ret (st, w1)
    else
      let '(st2, w2) := create_workspace_file w1 workspace in
      if negb (ok st2)
      then Ret (StorageManagerError (s "Cannot create workspace file for workspace: " ++ workspace), w2)
      else Ret (Ok, w2).

(** [StorageManager::group_create] *)
Definition group_create (w : Sys) (group : str) : Res (Status * Sys) :=
  let* parent_dir := parent_dir (sys_cwd w) (sys_home w) group in
  if negb (is_workspace w parent_dir) && negb (is_group w parent_dir)
  then Ret (StorageManagerError
              (s "The group must be contained in a workspace or another group"), w)
  else
    let* r := create_dir w group in
    let '(st, w1) := r in
    if negb (ok st) then Ret (st, w1)
    else
      let '(st2, w2) := create_group_file w1 group in
      if negb (ok st2)
      then Ret (StorageManagerError (s "Cannot create group file for group:  " ++ group), w2)
      else Ret (Ok, w2).

(** The array schema collaborator: its name, and what [serialize] yields. *)
Record ArraySchema : Type := mkArraySchema {
  array_name : str;
  serialize : Status * str
}.

(** [consolidation_filelock_create] *)
Definition consolidation_filelock_create (w : Sys) (dir : str) : Status * Sys :=
  let filename := dir ++ s "/" ++ TILEDB_SM_CONSOLIDATION_FILELOCK_NAME in
  match sys_creat_write w filename [] with
  | None => (StorageManagerError (s "Cannot create consolidation filelock; "), w)
  | Some w' => (Ok, w')
  end.




(** ** storage_manager.cc: listing *)

Inductive tiledb_object_t : Type :=
| TILEDB_WORKSPACE
| TILEDB_GROUP
| TILEDB_ARRAY
| TILEDB_METADATA.

(** The chain of tests in the loops of [ls] and [ls_c]. *)
Definition classify (w : Sys) (filename : str) : option tiledb_object_t :=
  if is_group w filename then Some TILEDB_GROUP
  else if is_metadata w filename then Some TILEDB_METADATA
  else if is_array w filename then Some TILEDB_ARRAY
  else if is_workspace w filename then Some TILEDB_WORKSPACE
  else None.

(** The [readdir] loop of [ls]. [dirs] and [dir_types] are the caller's
    buffers, [dir_num] their capacity; [strcpy(dirs[dir_i], d_name)] and
    [dir_types[dir_i] = ...] overwrite slot [dir_i]. *)
Fixpoint ls_loop (w : Sys) (parent_dir_real : str) (entries : list str)
  (dirs : list str) (dir_types : list tiledb_object_t) (dir_i dir_num : Z)
  : Status * list str * list tiledb_object_t * Z :=
  match entries with
  | [] => (Ok, dirs, dir_types, dir_i)
  | d_name :: rest =>
      if str_eqb d_name (s ".") || str_eqb d_name (s "..")
      then ls_loop w parent_dir_real rest dirs dir_types dir_i dir_num
      else
        let filename := parent_dir_real ++ s "/" ++ d_name in
        match classify w filename with
        | Some ty =>
            if dir_i =? dir_num
            then (StorageManagerError (s "Cannot list TileDB directory; Directory buffer overflow"),
                  dirs, dir_types, dir_i)
            else ls_loop w parent_dir_real rest
                   (<[Z.to_nat dir_i := d_name]> dirs)
                   (<[Z.to_nat dir_i := ty]> dir_types) (dir_i + 1) dir_num
        | None => ls_loop w parent_dir_real rest dirs dir_types dir_i dir_num
        end
  end.

(** [StorageManager::ls]: the status, the two buffers and [dir_num] after
    the call. *)
Definition ls (w : Sys) (parent_dir : str)
  (dirs : list str) (dir_types : list tiledb_object_t) (dir_num : Z)
  : Res (Status * list str * list tiledb_object_t * Z) :=
  let* parent_dir_real := real_dir (sys_cwd w) (sys_home w) parent_dir in
  match sys_readdir w parent_dir_real with
  | None => Ret (Ok, dirs, dir_types, 0)
  | Some entries =>
      let '(st, dirs', dir_types', dir_i) :=
        ls_loop w parent_dir_real entries dirs dir_types 0 dir_num in
      if ok st then Ret (Ok, dirs', dir_types', dir_i)
      else Ret (st, dirs', dir_types', dir_num)
  end.

(** [StorageManager::ls_c]: the status and [dir_num] after the call. *)
Definition ls_c (w : Sys) (parent_dir : str) : Res (Status * Z) :=
  let* parent_dir_real := real_dir (sys_cwd w) (sys_home w) parent_dir in
  match sys_readdir w parent_dir_real with
  | None => Ret (Ok, 0)
  | Some entries =>
      Ret (Ok,
           Z.of_nat (length
             (List.filter
                (fun d_name =>
                   negb (str_eqb d_name (s ".") || str_eqb d_name (s "..")) &&
                   let filename := parent_dir_real ++ s "/" ++ d_name in
                   (is_group w filename || is_metadata w filename ||
                    is_array w filename || is_workspace w filename))
                entries)))
  end.

(** ** utils.cc: coordinate comparators *)

(** The operators [<] and [>] of the template parameter [T]. *)
Class ElemOps (T : Type) : Type := {
  elem_lt : T -> T -> bool;
  elem_gt : T -> T -> bool
}.

(** [int] and [int64_t] coordinates are their integer values. *)
#[global] Instance int_ops : ElemOps Z := {|
  elem_lt := Z.ltb;
  elem_gt := Z.gtb
|}.

(** [double] coordinates are IEEE 754 binary64 values; a [float]
    coordinate is read as the binary64 value it denotes, which the
    comparisons do not tell apart. *)
#[global] Instance float_ops : ElemOps float := {|
  elem_lt := PrimFloat.ltb;
  elem_gt := fun x y => PrimFloat.ltb y x
|}.

Section Comparators.
Context {T : Type} `{ElemOps T}.

(** One step of either loop: compare dimension [i], or go on with [k].
    A tuple is a list of at least [dim_num] coordinates; the source never
    reads past [dim_num], and a read past the end of the list gives no
    verdict. *)
Definition cmp_dim (coords_a coords_b : list T) (i : nat) (k : Z) : Z :=
  match coords_a !! i, coords_b !! i with
  | Some x, Some y =>
      if elem_lt x y then -1
      else if elem_gt x y then 1
      else k
  | _, _ => k
  end.

(** [for(int i=0; i<dim_num; ++i)] with [n] iterations left. *)
Fixpoint cmp_row_loop (coords_a coords_b : list T) (i n : nat) : Z :=
  match n with
  | O => 0
  | S n' => cmp_dim coords_a coords_b i (cmp_row_loop coords_a coords_b (S i) n')
  end.

(** [cmp_row_order(coords_a, coords_b, dim_num)] *)
Definition cmp_row_order (coords_a coords_b : list T) (dim_num : Z) : Z :=
  cmp_row_loop coords_a coords_b 0 (Z.to_nat dim_num).

(** [for(int i=dim_num-1; i>=0; --i)], about to look at index [n - 1]. *)
Fixpoint cmp_col_loop (coords_a coords_b : list T) (n : nat) : Z :=
  match n with
  | O => 0
  | S i => cmp_dim coords_a coords_b i (cmp_col_loop coords_a coords_b i)
  end.

(** [cmp_col_order(coords_a, coords_b, dim_num)] *)
Definition cmp_col_order (coords_a coords_b : list T) (dim_num : Z) : Z :=
  cmp_col_loop coords_a coords_b (Z.to_nat dim_num).

End Comparators.

(** ** utils.cc: cells, ranges and bounding rectangles *)

(** A read [a[i]] of an array held as a list; past the end of the
    array there is nothing to read. *)
Definition read {T} (a : list T) (i : nat) : Res T :=
  match a !! i with
  | Some x => Ret x
  | None => Abort OutOfBounds
  end.

Section Cells.
Context {T : Type} `{ElemOps T}.

(** [for(int i=0; i<dim_num; ++i)] of [cell_in_range], with [n]
    iterations left. A range holds the low and the high bound of
    dimension [i] at [2*i] and [2*i+1]; [||] reads the high bound only
    when the first comparison is false. *)
Fixpoint cell_in_range_loop (cell range : list T) (i n : nat) : Res bool :=
  match n with
  | O => Ret true
  | S n' =>
      let* c := read cell i in
      let* lo := read range (2 * i) in
      if elem_lt c lo then Ret false
      else
        let* hi := read range (2 * i + 1) in
        if elem_gt c hi then Ret false
        else cell_in_range_loop cell range (S i) n'
  end.

(** [cell_in_range(cell, range, dim_num)] *)
Definition cell_in_range (cell range : list T) (dim_num : Z) : Res bool :=
  cell_in_range_loop cell range 0 (Z.to_nat dim_num).

(** The body of the loop of [expand_mbr] at dimension [i]. *)
Definition expand_mbr_dim (mbr coords : list T) (i : nat) : Res (list T) :=
  let* lo := read mbr (2 * i) in
  let* c := read coords i in
  let mbr1 := if elem_gt lo c then <[(2 * i)%nat := c]> mbr else mbr in
  let* hi := read mbr1 (2 * i + 1) in
  Ret (if elem_lt hi c then <[(2 * i + 1)%nat := c]> mbr1 else mbr1).

(** [for(int i=0; i<dim_num; ++i)] of [expand_mbr], with [n] iterations
    left. *)
Fixpoint expand_mbr_loop (mbr coords : list T) (i n : nat) : Res (list T) :=
  match n with
  | O => Ret mbr
  | S n' =>
      let* mbr' := expand_mbr_dim mbr coords i in
      expand_mbr_loop mbr' coords (S i) n'
  end.

(** [expand_mbr(mbr, coords, dim_num)]: the rectangle [mbr] after the
    call. *)
Definition expand_mbr (mbr coords : list T) (dim_num : Z) : Res (list T) :=
  expand_mbr_loop mbr coords 0 (Z.to_nat dim_num).

End Cells.

(** The four instantiations of the templates. *)
Inductive elem_type : Type := Int32 | Int64 | Float32 | Float64.

Definition carrier (t : elem_type) : Type :=
  match t with
  | Int32 | Int64 => Z
  | Float32 | Float64 => float
  end.

Definition elem_ops (t : elem_type) : ElemOps (carrier t) :=
  match t with
  | Int32 | Int64 => int_ops
  | Float32 | Float64 => float_ops
  end.

(** The values of an integer type, and the floating-point values that
    are numbers. *)
Definition ordered_value (t : elem_type) : carrier t -> Prop :=
  match t with
  | Int32 => fun x : Z => - 2 ^ 31 <= x < 2 ^ 31
  | Int64 => fun x : Z => - 2 ^ 63 <= x < 2 ^ 63
  | Float32 | Float64 => fun x : float => PrimFloat.is_nan x = false
  end.

(** ** utils.cc: inflating into a buffer that grows *)

(** zlib is a library outside the repository. A well-formed compressed
    stream determines the bytes it holds; [inflate(&strm, Z_FINISH)]
    delivers the next of them, as many as the output space takes, and
    leaves [avail_out] at what is left of the space. [pending] stands for
    the stream: the bytes it has yet to deliver. *)
Definition inflate (pending : str) (avail_out : Z) : str * str * Z :=
  let produced := take (Z.to_nat avail_out) pending in
  (produced, drop (Z.to_nat avail_out) pending, avail_out - Z.of_nat (length produced)).

Definition SIZE_MAX : Z := 2 ^ 64 - 1.

(** [expand_buffer]: the allocated size doubles ([size_t] arithmetic);
    [realloc] is taken to succeed and keeps the bytes. *)
Definition expand_buffer (buffer_allocated_size : Z) : Z :=
  (buffer_allocated_size * 2) mod (SIZE_MAX + 1).

(** A [memcpy] into the output buffer: where it starts, how many bytes,
    and the size the buffer was allocated with at that moment. *)
Record write : Type := mkWrite {
  wr_offset : Z;
  wr_length : Z;
  wr_allocated : Z
}.

Definition within_allocation (wr : write) : bool :=
  wr_offset wr + wr_length wr <=? wr_allocated wr.

Record gunzip_state : Type := mkGunzip {
  gz_out : str;          (* the bytes copied to [out], in order *)
  gz_avail_out : Z;      (* the allocated size of [out] *)
  gz_out_size : Z;
  gz_writes : list write
}.

(** The [do ... while(strm.avail_out == 0)] loop of
    [gunzip_unknown_output_size]; [chunk_size] is
    TILEDB_GZIP_CHUNK_SIZE. [fuel] bounds the number of iterations. *)
Fixpoint gunzip_loop (fuel : nat) (chunk_size : Z) (pending : str) (st : gunzip_state)
  : option gunzip_state :=
  match fuel with
  | O => None
  | S fuel' =>
      let '(chunk, pending', strm_avail_out) := inflate pending chunk_size in
      let inflated_bytes := chunk_size - strm_avail_out in
      let st' :=
        if negb (inflated_bytes =? 0) then
          let avail_out :=
            if gz_out_size st + inflated_bytes >? gz_avail_out st
            then expand_buffer (gz_avail_out st)
            else gz_avail_out st in
          mkGunzip (gz_out st ++ chunk) avail_out (gz_out_size st + inflated_bytes)
            (gz_writes st ++ [mkWrite (gz_out_size st) inflated_bytes avail_out])
        else st in
      if strm_avail_out =? 0 then gunzip_loop fuel' chunk_size pending' st'
      else Some st'
  end.

(** [gunzip_unknown_output_size] on a stream that holds [payload], with
    an output buffer allocated with [avail_out] bytes. *)
Definition gunzip_unknown_output_size (chunk_size : Z) (payload : str) (avail_out : Z)
  : option gunzip_state :=
  gunzip_loop (S (length payload)) chunk_size payload (mkGunzip [] avail_out 0 []).

(** ** storage_manager.cc: fragment ordering *)

Definition INT64_MAX : Z := 2 ^ 63 - 1.
Definition INT64_MIN : Z := - 2 ^ 63.

Definition is_space (c : ascii) : bool :=
  let n := nat_of_ascii c in
  ((n =? 32) || ((9 <=? n) && (n <=? 13)))%nat.

Definition digit_val (c : ascii) : option Z :=
  let n := nat_of_ascii c in
  if ((48 <=? n) && (n <=? 57))%nat then Some (Z.of_nat n - 48) else None.

Fixpoint skip_spaces (x : str) : str :=
  match x with
  | c :: t => if is_space c then skip_spaces t else x
  | [] => []
  end.

Fixpoint read_digits (x : str) (acc : Z) : Z :=
  match x with
  | c :: t =>
      match digit_val c with
      | Some d => read_digits t (10 * acc + d)
      | None => acc
      end
  | [] => acc
  end.

Definition clamp_int64 (v : Z) : Z := Z.max INT64_MIN (Z.min INT64_MAX v).

(** [sscanf(t_str, "%lld", &t)]: white space is skipped, then an optional
    sign and a non-empty run of decimal digits is converted; [None] when
    nothing matches, and then [t] is not written. A value out of the
    range of [long long] is stored as the nearest bound, as [strtoll]
    does. *)
Definition sscanf_lld (t_str : str) : option Z :=
  let x := skip_spaces (c_str t_str) in
  let '(negative, digits) :=
    match x with
    | c :: r =>
        if Ascii.eqb c "-"%char then (true, r)
        else if Ascii.eqb c "+"%char then (false, r)
        else (false, x)
    | [] => (false, x)
    end in
  match digits with
  | c :: _ =>
      match digit_val c with
      | Some _ =>
          let v := read_digits digits 0 in
          Some (clamp_int64 (if negative then - v else v))
      | None => None
      end
  | [] => None
  end.

(** [for (int j = 2; j < size; ++j) if (name[j] == '_') ...]: the first
    index from [j] on that holds an underscore. *)
Fixpoint find_underscore (x : str) (j : nat) : option nat :=
  match x with
  | [] => None
  | c :: t =>
      match j with
      | S j' => option_map S (find_underscore t j')
      | O => if Ascii.eqb c USCORE then Some O else option_map S (find_underscore t O)
      end
  end.

(** The first loop of [sort_fragment_names] from fragment [i] on. [t] is
    the local variable [t]: written only when [sscanf] converts, and so
    holding the previous fragment's value otherwise. An entry of
    [t_pos_vec] that is never assigned keeps the value [resize] gave it,
    the pair (0, 0). *)
Fixpoint timestamps_loop (current home : str) (fragment_names : list str) (i : Z) (t : Z)
  : Res (list (Z * Z)) :=
  match fragment_names with
  | [] => Ret []
  | fragment_name :: rest =>
      let* parent_fragment_name := parent_dir current home fragment_name in
      let pos := (length parent_fragment_name + 1)%nat in
      if (length fragment_name <? pos)%nat then Abort OutOfRange
      else
        let stripped_fragment_name := substr_from fragment_name pos in
        let* _ := assert (starts_with stripped_fragment_name (s "__")) in
        let stripped_fragment_name_size := length stripped_fragment_name in
        match find_underscore stripped_fragment_name 2 with
        | Some j =>
            let t_str := substr stripped_fragment_name (j + 1) (stripped_fragment_name_size - j) in
            let t' := match sscanf_lld t_str with
                      | Some v => v
                      | None => t
                      end in
            let* tail := timestamps_loop current home rest (i + 1) t' in
            Ret ((t', i) :: tail)
        | None =>
            let* tail := timestamps_loop current home rest (i + 1) t in
            Ret ((0, 0) :: tail)
        end
  end.

(** [operator<] on [std::pair<int64_t, int>]. *)
Definition pair_ltb (p q : Z * Z) : bool :=
  (p.1 <? q.1) || ((p.1 =? q.1) && (p.2 <? q.2)).

(** [SORT(first, last)]: the range in ascending order of [operator<]. *)
Fixpoint sort_insert (p : Z * Z) (l : list (Z * Z)) : list (Z * Z) :=
  match l with
  | [] => [p]
  | q :: l' => if pair_ltb q p then q :: sort_insert p l' else p :: l
  end.

Fixpoint std_sort (l : list (Z * Z)) : list (Z * Z) :=
  match l with
  | [] => []
  | p :: l' => sort_insert p (std_sort l')
  end.

(** [StorageManager::sort_fragment_names]; [t_uninit] is the value the
    uninitialised local [t] happens to hold. *)
Definition sort_fragment_names (current home : str) (t_uninit : Z) (fragment_names : list str)
  : Res (list str) :=
  let* t_pos_vec := timestamps_loop current home fragment_names 0 t_uninit in
  Ret (map (fun p => nth (Z.to_nat p.2) fragment_names []) (std_sort t_pos_vec)).

(** [StorageManager::array_get_fragment_names] *)
Definition array_get_fragment_names (w : Sys) (t_uninit : Z) (array : str) : Res (list str) :=
  let* real := real_dir (sys_cwd w) (sys_home w) array in
  sort_fragment_names (sys_cwd w) (sys_home w) t_uninit (get_fragment_dirs w real).

(** The ordering the specification describes, in its words: the last
    underscore-separated field of the basename, read as a decimal
    integer. *)
Definition spec_basename (name : str) : str := List.last (split_on SLASH name) [].

Definition spec_last_field (name : str) : str := List.last (split_on USCORE (spec_basename name)) [].

Definition spec_decimal (x : str) : option Z :=
  match x with
  | [] => None
  | _ => fold_left (fun acc c =>
                      match acc, digit_val c with
                      | Some a, Some d => Some (10 * a + d)
                      | _, _ => None
                      end) x (Some 0)
  end.

Definition spec_timestamp (name : str) : option Z := spec_decimal (spec_last_field name).

(** ** utils.cc: numbers, ranges and vectors of names *)
(** [isdigit] in the C locale. *)
Definition isdigit (c : ascii) : bool :=
  match digit_val c with
  | Some _ => true
  | None => false
  end.

(** [for(; s[i] != '\0'; ++i) if(!isdigit(s[i])) return false; return true;]
    from the position the list starts at; the end of the list is the
    terminating NUL. *)
Fixpoint digits_to_nul (x : str) : bool :=
  match x with
  | [] => true
  | c :: t =>
      if Ascii.eqb c NUL then true
      else if isdigit c then digits_to_nul t
      else false
  end.

(** [is_positive_integer] on the C string [x]. *)
Definition is_positive_integer (x : str) : bool :=
  if Ascii.eqb (char_at x 0) "-"%char then false
  else if Ascii.eqb (char_at x 0) "0"%char && Ascii.eqb (char_at x 1) NUL then false
  else digits_to_nul (if Ascii.eqb (char_at x 0) "+"%char then drop 1 x else x).

(** The operator [!=] of the template parameter [T]. *)
Class ElemNe (T : Type) : Type := elem_ne : T -> T -> bool.

#[global] Instance int_ne : ElemNe Z := fun x y => negb (x =? y).

#[global] Instance float_ne : ElemNe float := fun x y => negb (PrimFloat.eqb x y).

Section Ranges.
Context {T : Type} `{ElemNe T}.

(** [for(int i=0; i<dim_num; ++i)] of [is_unary_range], with [n]
    iterations left. *)
Fixpoint is_unary_range_loop (range : list T) (i n : nat) : Res bool :=
  match n with
  | O => Ret true
  | S n' =>
      let* lo := read range (2 * i) in
      let* hi := read range (2 * i + 1) in
      if elem_ne lo hi then Ret false
      else is_unary_range_loop range (S i) n'
  end.

(** [is_unary_range(range, dim_num)] *)
Definition is_unary_range (range : list T) (dim_num : Z) : Res bool :=
  is_unary_range_loop range 0 (Z.to_nat dim_num).

End Ranges.

(** The value a signed integer type of [bits] bits holds after an
    arithmetic result [v]: two's complement wrap-around. *)
Definition wrap (bits : Z) (v : Z) : Z :=
  (v + 2 ^ (bits - 1)) mod 2 ^ bits - 2 ^ (bits - 1).

(** [for(int i=0; i<dim_num; ++i) cell_num *= range[2*i+1] - range[2*i] + 1;]
    of [cell_num_in_range] for an integer [T] of [bits] bits, with [n]
    iterations left: the factor is computed in [T], the product in
    [int64_t]. *)
Fixpoint cell_num_in_range_loop (bits : Z) (range : list Z) (cell_num : Z) (i n : nat)
  : Res Z :=
  match n with
  | O => Ret cell_num
  | S n' =>
      let* hi := read range (2 * i + 1) in
      let* lo := read range (2 * i) in
      let factor := wrap bits (wrap bits (hi - lo) + 1) in
      cell_num_in_range_loop bits range (wrap 64 (cell_num * factor)) (S i) n'
  end.

(** [cell_num_in_range(range, dim_num)] for [int] ([bits = 32]) and
    [int64_t] ([bits = 64]). *)
Definition cell_num_in_range (bits : Z) (range : list Z) (dim_num : Z) : Res Z :=
  cell_num_in_range_loop bits range 1 0 (Z.to_nat dim_num).

(** [cmp_row_order(id_a, coords_a, id_b, coords_b, dim_num)], the
    overload that compares tile ids first. *)
Definition cmp_row_order_ids {T : Type} `{ElemOps T}
  (id_a : Z) (coords_a : list T) (id_b : Z) (coords_b : list T) (dim_num : Z) : Z :=
  if id_a <? id_b then -1
  else if id_a >? id_b then 1
  else cmp_row_loop coords_a coords_b 0 (Z.to_nat dim_num).

(** [has_duplicates<std::string>]: [std::set] is a set of names. *)
Definition has_duplicates (v : list str) : bool :=
  let s : gset str := list_to_set v in
  negb (size s =? length v)%nat.

(** [intersect<std::string>] *)
Definition intersect (v1 v2 : list str) : bool :=
  let s1 : gset str := list_to_set v1 in
  let s2 : gset str := list_to_set v2 in
  let intersect := elements (s1 ∩ s2) in
  negb (length intersect =? 0)%nat.

(** ** storage_manager.cc: the open-array registry *)

(** What the mutex calls return: [open_array_mtx_lock] and
    [open_array_mtx_unlock] on the registry mutex, and the four
    [OpenArray::mutex_*] calls on the mutex of an entry. The model is
    sequential; a mutex is only its status. *)
Record Pthread : Type := mkPthread {
  registry_mtx_lock : Status;
  registry_mtx_unlock : Status;
  entry_mtx_init : Status;
  entry_mtx_lock : Status;
  entry_mtx_unlock : Status;
  entry_mtx_destroy : Status
}.

Definition pthread_ok : Pthread := mkPthread Ok Ok Ok Ok Ok Ok.

Record BookKeeping : Type := mkBookKeeping {
  bk_fragment_name : str;
  bk_dense : bool
}.

(** [StorageManager::OpenArray] *)
Record OpenArray : Type := mkOpenArray {
  cnt_ : Z;
  consolidation_filelock_ : Z;
  fragment_names_ : list str;
  book_keeping_ : list BookKeeping;
  array_schema_ : option ArraySchema
}.

Definition set_cnt (c : Z) (e : OpenArray) : OpenArray :=
  mkOpenArray c (consolidation_filelock_ e) (fragment_names_ e) (book_keeping_ e)
    (array_schema_ e).

(** The registry [open_arrays_] of the storage manager: the entry a key
    maps to stands for the [OpenArray] object its pointer refers to. *)
Record StorageManager : Type := mkStorageManager {
  open_arrays_ : gmap str OpenArray
}.

(** [StorageManager::array_get_open_array_entry]; the entry is handed
    back through its key [array]. *)
Definition array_get_open_array_entry (mx : Pthread) (sm : StorageManager) (array : str)
  : Status * StorageManager :=
  if negb (ok (registry_mtx_lock mx)) then (registry_mtx_lock mx, sm)
  else
    let found := open_arrays_ sm !! array in
    if bool_decide (found = None) && negb (ok (entry_mtx_init mx))
    then (entry_mtx_init mx, sm)
    else
      let open_array :=
        match found with
        | None => mkOpenArray 0 (-1) [] [] None
        | Some e => e
        end in
      let incremented := set_cnt (cnt_ open_array + 1) open_array in
      if negb (ok (registry_mtx_unlock mx))
      then (registry_mtx_unlock mx,
            mkStorageManager (<[array := set_cnt (cnt_ incremented - 1) incremented]> (open_arrays_ sm)))
      else (Ok, mkStorageManager (<[array := incremented]> (open_arrays_ sm))).

(** [StorageManager::consolidation_filelock_unlock] *)
Definition consolidation_filelock_unlock (w : Sys) (fd : Z) : Status * Sys :=
  match sys_close w fd with
  | None => (StorageManagerError (s "Cannot unlock consolidation filelock; Cannot close filelock"), w)
  | Some w' => (Ok, w')
  end.

(** [StorageManager::array_close] *)
Definition array_close (mx : Pthread) (sm : StorageManager) (w : Sys) (array : str)
  : Res (Status * StorageManager * Sys) :=
  if negb (ok (registry_mtx_lock mx)) then Ret (registry_mtx_lock mx, sm, w)
  else
    let* key := real_dir (sys_cwd w) (sys_home w) array in
    match open_arrays_ sm !! key with
    | None =>
        Ret (StorageManagerError (s "Cannot close array; Open array entry not found"), sm, w)
    | Some e =>
        if negb (ok (entry_mtx_lock mx)) then Ret (entry_mtx_lock mx, sm, w)
        else
          let e' := set_cnt (cnt_ e - 1) e in
          if cnt_ e' =? 0 then
            let st_mtx_destroy := entry_mtx_destroy mx in
            let '(st_filelock, w') := consolidation_filelock_unlock w (consolidation_filelock_ e') in
            let sm' := mkStorageManager (delete key (open_arrays_ sm)) in
            let st_mtx_unlock := registry_mtx_unlock mx in
            if negb (ok st_mtx_destroy) then Ret (st_mtx_destroy, sm', w')
            else if negb (ok st_filelock) then Ret (st_filelock, sm', w')
            else if negb (ok st_mtx_unlock) then Ret (st_mtx_unlock, sm', w')
            else Ret (Ok, sm', w')
          else
            let sm' := mkStorageManager (<[key := e']> (open_arrays_ sm)) in
            if negb (ok (entry_mtx_unlock mx)) then Ret (entry_mtx_unlock mx, sm', w)
            else
              let st_mtx_unlock := registry_mtx_unlock mx in
              if negb (ok st_mtx_unlock) then Ret (st_mtx_unlock, sm', w)
              else Ret (Ok, sm', w)
    end.

(** [n] calls of [array_get_open_array_entry], then of [array_close], on
    one path; the first call that does not return [Ok] ends the run. *)
Fixpoint open_n (mx : Pthread) (sm : StorageManager) (array : str) (n : nat)
  : option StorageManager :=
  match n with
  | O => Some sm
  | S n' =>
      match array_get_open_array_entry mx sm array with
      | (Ok, sm') => open_n mx sm' array n'
      | _ => None
      end
  end.

Fixpoint close_n (mx : Pthread) (sm : StorageManager) (w : Sys) (array : str) (n : nat)
  : option (StorageManager * Sys) :=
  match n with
  | O => Some (sm, w)
  | S n' =>
      match array_close mx sm w array with
      | Ret (_, sm', w') => close_n mx sm' w' array n'
      | Abort _ => None
      end
  end.

(** ** storage_manager.cc: consolidation *)

Inductive sm_lock_type : Type :=
| TILEDB_SM_SHARED_LOCK
| TILEDB_SM_EXCLUSIVE_LOCK
| other_lock_type (n : Z).

(** [StorageManager::consolidation_filelock_lock]; [fd] goes in with the
    value the caller's variable holds and comes out as the call leaves
    it. *)
Definition consolidation_filelock_lock (w : Sys) (array_name : str) (fd : Z)
  (lock_type : sm_lock_type) : Res (Status * Z * Sys) :=
  match match lock_type with
        | TILEDB_SM_SHARED_LOCK => Some F_RDLCK
        | TILEDB_SM_EXCLUSIVE_LOCK => Some F_WRLCK
        | other_lock_type _ => None
        end with
  | None =>
      Ret (StorageManagerError (s "Cannot lock consolidation filelock; Invalid lock type"), fd, w)
  | Some l_type =>
      let* array_name_real := real_dir (sys_cwd w) (sys_home w) array_name in
      let filename := array_name_real ++ s "/" ++ TILEDB_SM_CONSOLIDATION_FILELOCK_NAME in
      let '(fd', w1) := sys_open_rdwr w filename in
      if fd' =? -1
      then Ret (StorageManagerError (s "Cannot lock consolidation filelock; Cannot open filelock"),
                fd', w1)
      else
        match sys_setlkw w1 fd' l_type with
        | None =>
            Ret (StorageManagerError (s "Cannot lock consolidation filelock; Cannot lock"), fd', w1)
        | Some w2 => Ret (Ok, fd', w2)
        end
  end.

(** The fragment collaborator: the directory of the fragment and the
    name of the array it belongs to
    ([new_fragment->array()->array_schema()->array_name()]). *)
Record Fragment : Type := mkFragment {
  fragment_name : str;
  fragment_array_name : str
}.

(** Modelled from the spec: [Fragment::finalize], which is outside these
    sources; "finalise the new fragment: writes its marker file, making
    it visible". The marker is written as [create_fragment_file] of
    utils.cc writes it. *)
Definition fragment_finalize (w : Sys) (f : Fragment) : Status * Sys :=
  create_fragment_file w (fragment_name f).

(** The loop that makes the old fragments invisible. *)
Fixpoint remove_fragment_files (w : Sys) (old_fragment_names : list str) : Status * Sys :=
  match old_fragment_names with
  | [] => (Ok, w)
  | name :: rest =>
      let old_fragment_filename := name ++ s "/" ++ TILEDB_FRAGMENT_FILENAME in
      match sys_remove w old_fragment_filename with
      | None =>
          (StorageManagerError
             (s "Cannot remove fragment file during finalizing consolidation; "), w)
      | Some w' => remove_fragment_files w' rest
      end
  end.

(** The loop that deletes the old fragments. *)
Fixpoint delete_fragment_dirs (w : Sys) (old_fragment_names : list str) : Res (Status * Sys) :=
  match old_fragment_names with
  | [] => Ret (Ok, w)
  | name :: rest =>
      let* r := delete_dir w name in
      let '(st, w') := r in
      if negb (ok st) then Ret (st, w') else delete_fragment_dirs w' rest
  end.

(** [StorageManager::consolidation_finalize]; [fd_uninit] is the value the
    uninitialised local [fd] happens to hold. *)
Definition consolidation_finalize (w : Sys) (fd_uninit : Z) (new_fragment : Fragment)
  (old_fragment_names : list str) : Res (Status * Sys) :=
  if (length old_fragment_names =? 0)%nat then Ret (Ok, w)
  else
    let* r := consolidation_filelock_lock w (fragment_array_name new_fragment) fd_uninit
                TILEDB_SM_EXCLUSIVE_LOCK in
    let '(st, fd, w1) := r in
    if negb (ok st) then Ret (st, w1)
    else
      let '(st, w2) := fragment_finalize w1 new_fragment in
      if negb (ok st) then Ret (st, w2)
      else
        let '(st, w3) := remove_fragment_files w2 old_fragment_names in
        if negb (ok st) then Ret (st, w3)
        else
          let '(st, w4) := consolidation_filelock_unlock w3 fd in
          if negb (ok st) then Ret (st, w4)
          else delete_fragment_dirs w4 old_fragment_names.

(** ** storage_manager.cc: opening and consolidating an array *)

Inductive ArrayMode : Type := READ | WRITE.

Definition is_read_mode (mode : ArrayMode) : bool :=
  match mode with
  | READ => true
  | WRITE => false
  end.

(** An [Array] object after [init]. *)
Record Array : Type := mkArray {
  arr_schema : ArraySchema;
  arr_fragment_names : list str;
  arr_mode : ArrayMode
}.

(** The collaborators outside these sources, as the storage manager sees
    them: the schema deserializer, the book-keeping loader, the array
    engine; the name-length bound of constants.h; and the values the two
    uninitialised locals happen to hold. *)
Record Engine : Type := mkEngine {
  TILEDB_NAME_MAX_LEN : Z;
  schema_deserialize : str -> Status * ArraySchema;
  book_keeping_load : BookKeeping -> Status;
  array_object_init : ArraySchema -> list str -> ArrayMode -> Status;
  array_object_consolidate : Sys -> Array -> Status * Fragment * list str * Sys;
  array_object_finalize : Sys -> Array -> Status * Sys;
  t_uninit : Z;
  fd_uninit : Z
}.

(** The body shared by [array_load_schema] and [metadata_load_schema]
    once the directory is known to be of the right kind: the schema file
    is read whole and handed to [deserialize]. *)
Definition load_schema_file (eng : Engine) (w : Sys) (filename : str) (what : str)
  : Status * option ArraySchema :=
  match sys_stat w filename with
  | Some (File buffer) =>
      if (length buffer =? 0)%nat
      then (StorageManagerError (s "Cannot load " ++ what ++ s " schema; Empty " ++ what ++
                                 s " schema file"), None)
      else
        let '(st, array_schema) := schema_deserialize eng buffer in
        if negb (ok st) then (st, None) else (Ok, Some array_schema)
  | _ => (StorageManagerError (s "Cannot load schema; File opening error"), None)
  end.

(** [StorageManager::array_load_schema] *)
Definition array_load_schema (eng : Engine) (w : Sys) (array_dir : str)
  : Res (Status * option ArraySchema) :=
  let* real_array_dir := real_dir (sys_cwd w) (sys_home w) array_dir in
  if negb (is_array w real_array_dir)
  then Ret (StorageManagerError
              (s "Cannot load array schema; Array '" ++ real_array_dir ++ s "' does not exist"),
            None)
  else Ret (load_schema_file eng w
              (real_array_dir ++ s "/" ++ TILEDB_ARRAY_SCHEMA_FILENAME) (s "array")).

(** [StorageManager::metadata_load_schema] *)
Definition metadata_load_schema (eng : Engine) (w : Sys) (metadata_dir : str)
  : Res (Status * option ArraySchema) :=
  let* real_metadata_dir := real_dir (sys_cwd w) (sys_home w) metadata_dir in
  if negb (is_metadata w real_metadata_dir)
  then Ret (StorageManagerError
              (s "Cannot load metadata schema; Metadata '" ++ real_metadata_dir ++
               s "' does not exist"), None)
  else Ret (load_schema_file eng w
              (real_metadata_dir ++ s "/" ++ TILEDB_METADATA_SCHEMA_FILENAME) (s "metadata")).

(** [StorageManager::array_load_book_keeping]; the coordinates file is
    named by TILEDB_COORDS and TILEDB_FILE_SUFFIX. *)
Fixpoint array_load_book_keeping (eng : Engine) (w : Sys) (fragment_names : list str)
  : Status * list BookKeeping :=
  match fragment_names with
  | [] => (Ok, [])
  | name :: rest =>
      let dense := negb (is_file w (name ++ s "/" ++ s "__coords" ++ s ".tdb")) in
      let f_book_keeping := mkBookKeeping name dense in
      let st := book_keeping_load eng f_book_keeping in
      if negb (ok st) then (st, [])
      else
        let '(st', loaded) := array_load_book_keeping eng w rest in
        (st', f_book_keeping :: loaded)
  end.

Definition update_entry (sm : StorageManager) (key : str) (f : OpenArray -> OpenArray)
  : StorageManager :=
  mkStorageManager (alter f key (open_arrays_ sm)).

(** [StorageManager::array_open] *)
Definition array_open (mx : Pthread) (eng : Engine) (sm : StorageManager) (w : Sys)
  (array_name : str) (mode : ArrayMode) : Res (Status * StorageManager * Sys) :=
  let '(st, sm1) := array_get_open_array_entry mx sm array_name in
  if negb (ok st) then Ret (st, sm1, w)
  else if negb (ok (entry_mtx_lock mx)) then Ret (entry_mtx_lock mx, sm1, w)
  else
    match open_arrays_ sm1 !! array_name with
    | None => Abort NullDereference
    | Some open_array =>
        if (length (fragment_names_ open_array) =? 0)%nat then
          let* r := consolidation_filelock_lock w array_name
                      (consolidation_filelock_ open_array) TILEDB_SM_SHARED_LOCK in
          let '(st, fd, w1) := r in
          let sm2 := update_entry sm1 array_name
                       (fun e => mkOpenArray (cnt_ e) fd (fragment_names_ e) (book_keeping_ e)
                                   (array_schema_ e)) in
          if negb (ok st) then Ret (st, sm2, w1)
          else
            let* names := array_get_fragment_names w1 (t_uninit eng) array_name in
            let sm3 := update_entry sm2 array_name
                         (fun e => mkOpenArray (cnt_ e) (consolidation_filelock_ e) names
                                     (book_keeping_ e) (array_schema_ e)) in
            let* loaded := if is_array w1 array_name
                           then array_load_schema eng w1 array_name
                           else metadata_load_schema eng w1 array_name in
            let '(st, schema) := loaded in
            if negb (ok st) then Ret (st, sm3, w1)
            else
              let '(st, bks) := array_load_book_keeping eng w1 names in
              if negb (ok st)
              then Ret (st,
                        update_entry sm3 array_name
                          (fun e => mkOpenArray (cnt_ e) (consolidation_filelock_ e)
                                      (fragment_names_ e) bks None), w1)
              else
                let sm4 := update_entry sm3 array_name
                             (fun e => mkOpenArray (cnt_ e) (consolidation_filelock_ e)
                                         (fragment_names_ e) bks schema) in
                if negb (ok (entry_mtx_unlock mx)) then Ret (entry_mtx_unlock mx, sm4, w1)
                else Ret (Ok, sm4, w1)
        else
          if negb (ok (entry_mtx_unlock mx)) then Ret (entry_mtx_unlock mx, sm1, w)
          else Ret (Ok, sm1, w)
    end.

(** [StorageManager::array_init]. The two [Array::init] calls (the
    clone, then the array) are the collaborator [array_object_init]; in
    a mode that does not read, [open_array] is still the null pointer
    when it is dereferenced for them. *)
Definition array_init (mx : Pthread) (eng : Engine) (sm : StorageManager) (w : Sys)
  (array_dir : str) (mode : ArrayMode) : Res (Status * option Array * StorageManager * Sys) :=
  if Z.of_nat (length (c_str array_dir)) >? TILEDB_NAME_MAX_LEN eng
  then Ret (StorageManagerError (s "Invalid array name length"), None, sm, w)
  else
    let* loaded := array_load_schema eng w array_dir in
    let '(st, schema) := loaded in
    match schema with
    | None => Ret (st, None, sm, w)
    | Some array_schema =>
        if negb (is_read_mode mode) then Abort NullDereference
        else
          let* real := real_dir (sys_cwd w) (sys_home w) array_dir in
          let* opened := array_open mx eng sm w real mode in
          let '(st, sm1, w1) := opened in
          if negb (ok st) then Ret (st, None, sm1, w1)
          else
            let names := match open_arrays_ sm1 !! real with
                         | Some e => fragment_names_ e
                         | None => []
                         end in
            let st_clone := array_object_init eng array_schema names mode in
            if negb (ok st_clone)
            then let* closed := array_close mx sm1 w1 array_dir in
                 Ret (st_clone, None, closed.1.2, closed.2)
            else
              let st_array := array_object_init eng array_schema names mode in
              if negb (ok st_array)
              then let* closed := array_close mx sm1 w1 array_dir in
                   Ret (st_array, None, closed.1.2, closed.2)
              else Ret (Ok, Some (mkArray array_schema names mode), sm1, w1)
    end.

(** The statuses of the phases of [array_consolidate], in the order the
    source computes them. *)
Record consolidate_phases : Type := mkPhases {
  st_array_init : Status;
  st_array_consolidate : Status;
  st_array_close : Status;
  st_consolidation_finalize : Status;
  st_array_finalize : Status
}.

(** The end of [array_consolidate]: the status returned once the array
    is initialised and the four later phases have run. *)
Definition consolidate_status (array_dir : str)
  (st_array_finalize st_array_close st_consolidation_finalize : Status) : Status :=
  if negb (ok st_array_finalize)
  then StorageManagerError (s "Could not finalize array: " ++ array_dir)
  else if negb (ok st_array_close && negb (ok st_consolidation_finalize))
  then StorageManagerError (s "Could not consolidate array: " ++ array_dir)
  else Ok.

(** [StorageManager::array_consolidate]: the status returned, the
    statuses of the phases that ran, and the state left behind. *)
Definition array_consolidate (mx : Pthread) (eng : Engine) (sm : StorageManager) (w : Sys)
  (array_dir : str) : Res (Status * option consolidate_phases * StorageManager * Sys) :=
  let* r := array_init mx eng sm w array_dir READ in
  let '(st_init, array, sm1, w1) := r in
  match array with
  | None => Ret (st_init, None, sm1, w1)
  | Some array =>
      let '(st_consolidate, new_fragment, old_fragment_names, w2) :=
        array_object_consolidate eng w1 array in
      let* closed := array_close mx sm1 w2 (array_name (arr_schema array)) in
      let '(st_close, sm2, w3) := closed in
      let* finalized := consolidation_finalize w3 (fd_uninit eng) new_fragment old_fragment_names in
      let '(st_cf, w4) := finalized in
      let '(st_finalize, w5) := array_object_finalize eng w4 array in
      Ret (consolidate_status array_dir st_finalize st_close st_cf,
           Some (mkPhases st_init st_consolidate st_close st_cf st_finalize), sm2, w5)
  end.

(** ** storage_manager.cc: kinds of directories, creating an array *)


(** [StorageManager::array_store_schema]: what [remove] returns is not
    looked at; the schema file is opened (and so created) before the
    schema is serialized. *)
Definition array_store_schema (w : Sys) (dir : str) (array_schema : ArraySchema)
  : Status * Sys :=
  let filename := dir ++ s "/" ++ TILEDB_ARRAY_SCHEMA_FILENAME in
  let w0 := match sys_remove w filename with
            | Some w' => w'
            | None => w
            end in
  match sys_creat_write w0 filename [] with
  | None => (StorageManagerError (s "Cannot store schema; "), w0)
  | Some w1 =>
      let '(st_ser, array_schema_bin) := serialize array_schema in
      if negb (ok st_ser) then (st_ser, w1)
      else
        match sys_creat_write w1 filename array_schema_bin with
        | None => (StorageManagerError (s "Cannot store schema; "), w1)
        | Some w2 => (Ok, w2)
        end
  end.

(** [StorageManager::array_create], the overload on an [ArraySchema]
    pointer; [None] is the null pointer. *)
Definition array_create_schema (w : Sys) (array_schema : option ArraySchema)
  : Res (Status * Sys) :=
  match array_schema with
  | None => Ret (StorageManagerError (s "Cannot create array; Empty array schema"), w)
  | Some schema =>
      let dir := array_name schema in
      let* r := create_dir w dir in
      let '(st, w1) := r in
      if negb (ok st) then Ret (st, w1)
      else
        let '(st, w2) := array_store_schema w1 dir schema in
        if negb (ok st) then Ret (st, w2)
        else
          let '(st, w3) := consolidation_filelock_create w2 dir in
          if negb (ok st) then Ret (st, w3) else Ret (Ok, w3)
  end.

(** [StorageManager::array_create], the overload on an [ArraySchemaC]
    pointer; [init] is the collaborator [ArraySchema::init]. *)
Definition array_create {ArraySchemaC : Type} (init : ArraySchemaC -> Status * ArraySchema)
  (w : Sys) (array_schema_c : ArraySchemaC) : Res (Status * Sys) :=
  let '(st_init, array_schema) := init array_schema_c in
  if negb (ok st_init) then Ret (st_init, w)
  else
    let dir := array_name array_schema in
    let* parent_dir := parent_dir (sys_cwd w) (sys_home w) dir in
    if negb (is_workspace w parent_dir) && negb (is_group w parent_dir)
    then Ret (StorageManagerError
                (s "Cannot create array; Directory '" ++ parent_dir ++
                 s "' must be a TileDB workspace or group"), w)
    else array_create_schema w (Some array_schema).

(** ** storage_manager.cc: finalizing an array *)

(** [StorageManager::array_finalize]; [None] is the null pointer, and
    [array->read_mode()] is the mode the array was initialised with. *)
Definition array_finalize (mx : Pthread) (eng : Engine) (sm : StorageManager) (w : Sys)
  (array : option Array) : Res (Status * StorageManager * Sys) :=
  match array with
  | None => Ret (Ok, sm, w)
  | Some a =>
      let '(st, w1) := array_object_finalize eng w a in
      if negb (ok st) then Ret (st, sm, w1)
      else if is_read_mode (arr_mode a) then
        let* closed := array_close mx sm w1 (array_name (arr_schema a)) in
        let '(st_close, sm1, w2) := closed in
        if negb (ok st_close) then Ret (st_close, sm1, w2) else Ret (Ok, sm1, w2)
      else Ret (Ok, sm, w1)
  end.

(** ** storage_manager.cc: clearing and deleting arrays and metadata *)

(** The loop of [metadata_clear] over the entries [readdir] returns.
    Here and in [array_clear] the directory is read as [sys_readdir]
    reads it: the stream of [opendir] and its descriptor are not part of
    the state. *)
Fixpoint metadata_clear_loop (w : Sys) (metadata_real : str) (entries : list str)
  : Res (Status * Sys) :=
  match entries with
  | [] => Ret (Ok, w)
  | d_name :: rest =>
      if str_eqb d_name (s ".") || str_eqb d_name (s "..") ||
         str_eqb d_name TILEDB_METADATA_SCHEMA_FILENAME ||
         str_eqb d_name TILEDB_SM_CONSOLIDATION_FILELOCK_NAME
      then metadata_clear_loop w metadata_real rest
      else
        let filename := metadata_real ++ s "/" ++ d_name in
        if is_fragment w filename then
          let* r := delete_dir w filename in
          let '(st, w') := r in
          if negb (ok st) then Ret (st, w') else metadata_clear_loop w' metadata_real rest
        else
          Ret (StorageManagerError
                 (s "Cannot delete non TileDB related element '" ++ filename ++ s "'"), w)
  end.

(** [StorageManager::metadata_clear] *)
Definition metadata_clear (w : Sys) (metadata : str) : Res (Status * Sys) :=
  let* metadata_real := real_dir (sys_cwd w) (sys_home w) metadata in
  if negb (is_metadata w metadata_real)
  then Ret (StorageManagerError (s "Metadata '" ++ metadata_real ++ s "' do not exist"), w)
  else
    match sys_readdir w metadata_real with
    | None => Ret (StorageManagerError (s "Cannot open metadata directory; "), w)
    | Some entries => metadata_clear_loop w metadata_real entries
    end.

(** [StorageManager::metadata_delete] *)
Definition metadata_delete (w : Sys) (metadata : str) : Res (Status * Sys) :=
  let* metadata_real := real_dir (sys_cwd w) (sys_home w) metadata in
  let* r := metadata_clear w metadata_real in
  let '(st, w1) := r in
  if negb (ok st) then Ret (st, w1)
  else
    let* r := delete_dir w1 metadata_real in
    let '(st, w2) := r in
    if negb (ok st) then Ret (st, w2) else Ret (Ok, w2).

(** The loop of [array_clear]; what [metadata_delete] returns is not
    looked at. *)
Fixpoint array_clear_loop (w : Sys) (array_real : str) (entries : list str)
  : Res (Status * Sys) :=
  match entries with
  | [] => Ret (Ok, w)
  | d_name :: rest =>
      if str_eqb d_name (s ".") || str_eqb d_name (s "..") ||
         str_eqb d_name TILEDB_ARRAY_SCHEMA_FILENAME ||
         str_eqb d_name TILEDB_SM_CONSOLIDATION_FILELOCK_NAME
      then array_clear_loop w array_real rest
      else
        let filename := array_real ++ s "/" ++ d_name in
        if is_metadata w filename then
          let* r := metadata_delete w filename in
          array_clear_loop r.2 array_real rest
        else if is_fragment w filename then
          let* r := delete_dir w filename in
          let '(st, w') := r in
          if negb (ok st) then Ret (st, w') else array_clear_loop w' array_real rest
        else
          Ret (StorageManagerError
                 (s "Cannot delete non TileDB related element '" ++ filename ++ s "'"), w)
  end.

(** [StorageManager::array_clear] *)
Definition array_clear (w : Sys) (array : str) : Res (Status * Sys) :=
  let* array_real := real_dir (sys_cwd w) (sys_home w) array in
  if negb (is_array w array_real)
  then Ret (StorageManagerError (s "Array '" ++ array_real ++ s "' does not exist"), w)
  else
    match sys_readdir w array_real with
    | None => Ret (StorageManagerError (s "Cannot open array directory; "), w)
    | Some entries => array_clear_loop w array_real entries
    end.

(** [StorageManager::array_delete] *)
Definition array_delete (w : Sys) (array : str) : Res (Status * Sys) :=
  let* r := array_clear w array in
  let '(st, w1) := r in
  if negb (ok st) then Ret (st, w1)
  else
    let* r := delete_dir w1 array in
    let '(st, w2) := r in
    if negb (ok st) then Ret (st, w2) else Ret (Ok, w2).

(** ** Vocabulary of the properties *)

(** A path component as the canonical form has them: not empty, without
    '/' or NUL, and neither "." nor "..". *)
Definition good_token (t : str) : bool :=
  negb (str_eqb t []) && negb (bool_decide (SLASH ∈ t)) && negb (bool_decide (NUL ∈ t)) &&
  negb (str_eqb t (s ".")) && negb (str_eqb t (s "..")).

(** The canonical absolute paths: "/" followed by components separated
    by single slashes; the root is the case of no component. *)
Definition canonical (p : str) : Prop :=
  exists toks, forallb good_token toks = true /\ p = assemble toks.

(** The marker file of a fragment directory, as [consolidation_finalize]
    and [create_fragment_file] name it; a fragment is visible when its
    marker is a file. *)
Definition fragment_file (fragment : str) : str :=
  fragment ++ s "/" ++ TILEDB_FRAGMENT_FILENAME.

(** The system calls of a complete run of [consolidation_finalize], in
    order: lock, publish the new fragment, hide the old ones, unlock,
    delete the old ones. *)
Definition finalize_trace (fd : Z) (array new_fragment : str) (old_fragment_names : list str)
  : list event :=
  [EvOpen fd (array ++ s "/" ++ TILEDB_SM_CONSOLIDATION_FILELOCK_NAME);
   EvLock fd F_WRLCK;
   EvCreat (fragment_file new_fragment)] ++
  map (fun o => EvUnlink (fragment_file o)) old_fragment_names ++
  [EvClose fd] ++
  map EvDeleteDir old_fragment_names.

(** A fragment directory of the form [__<uuid>_<timestamp>] inside an
    array directory: the uuid holds no '/', NUL or '_', and the timestamp
    is a decimal integer that fits 64 bits. *)
Record fragment_parts : Type := mkParts {
  fp_array : str;
  fp_uuid : str;
  fp_timestamp : str
}.

Definition fragment_path (p : fragment_parts) : str :=
  fp_array p ++ s "/" ++ s "__" ++ fp_uuid p ++ s "_" ++ fp_timestamp p.

Definition uuid_char (c : ascii) : bool :=
  negb (Ascii.eqb c SLASH) && negb (Ascii.eqb c NUL) && negb (Ascii.eqb c USCORE).

Definition well_formed_fragment (p : fragment_parts) : Prop :=
  canonical (fp_array p) /\ fp_array p <> s "/" /\
  forallb uuid_char (fp_uuid p) = true /\
  exists v, spec_decimal (fp_timestamp p) = Some v /\ v <= INT64_MAX.

(** Position [i] comes before position [j] in the order of the
    specification: by timestamp, ties by index. *)
Definition before_in_time (names : list str) (i j : nat) : Prop :=
  exists ti tj,
    spec_timestamp (nth i names []) = Some ti /\
    spec_timestamp (nth j names []) = Some tj /\
    (ti < tj \/ (ti = tj /\ (i < j)%nat)).

(** The pairs the first loop of [sort_fragment_names] builds when every
    timestamp converts. *)
Fixpoint timestamp_pairs (names : list str) (i : Z) : list (Z * Z) :=
  match names with
  | [] => []
  | name :: rest => (default 0 (spec_timestamp name), i) :: timestamp_pairs rest (i + 1)
  end.

(** [operator<=] derived from [operator<] on the pairs. *)
Definition pair_le (p q : Z * Z) : Prop := pair_ltb q p = false.

(** The order laws the comparators need of [<] and [>] on the values
    that occur: [<] is asymmetric and negatively transitive (a strict
    weak order), and [>] is its converse. *)
Record order_laws {T : Type} `{ElemOps T} (valid : T -> Prop) : Prop := {
  lt_asym : forall x y, valid x -> valid y -> elem_lt x y = true -> elem_lt y x = false;
  lt_negtrans : forall x y z, valid x -> valid y -> valid z ->
    elem_lt x z = true -> elem_lt x y = true \/ elem_lt y z = true;
  gt_conv : forall x y, valid x -> valid y -> elem_gt x y = elem_lt y x
}.

(** Binary64 values that are numbers, ranked by sign, exponent and
    mantissa. *)
Definition sf_key (f : spec_float) : Z * Z * Z :=
  match f with
  | S754_zero _ => (0, 0, 0)
  | S754_infinity true => (-2, 0, 0)
  | S754_infinity false => (2, 0, 0)
  | S754_nan => (0, 0, 0)
  | S754_finite true m e => (-1, - e, - Z.pos m)
  | S754_finite false m e => (1, e, Z.pos m)
  end.

Definition key_ltb (p q : Z * Z * Z) : bool :=
  let '(p1, p2, p3) := p in
  let '(q1, q2, q3) := q in
  (p1 <? q1) || ((p1 =? q1) && ((p2 <? q2) || ((p2 =? q2) && (p3 <? q3)))).




(** The basename of a fragment directory of that form. *)
Definition base_of (p : fragment_parts) : str :=
  s "__" ++ fp_uuid p ++ s "_" ++ fp_timestamp p.

(** The cells of the dimensions [i], ..., [i + n - 1] of a range, in
    row-major order: every choice of a coordinate between the low and
    the high bound of each dimension. *)
Fixpoint cells_of (range : list Z) (i n : nat) : list (list Z) :=
  match n with
  | O => [[]]
  | S n' =>
      match range !! (2 * i)%nat, range !! (2 * i + 1)%nat with
      | Some lo, Some hi =>
          c ← seqZ lo (hi - lo + 1); cons c <$> cells_of range (S i) n'
      | _, _ => []
      end
  end.

(** No node of the file system lies below the path [p]. *)
Definition nothing_below (w : Sys) (p : str) : Prop :=
  map_Forall (fun k (_ : node) => starts_with k (p ++ [SLASH]) = false) (sys_nodes w).

(** The path [k] is [p] or lies below it. *)
Definition at_or_below (p k : str) : bool :=
  str_eqb k p || starts_with k (p ++ [SLASH]).

(** Between the states [w] and [w'] the working directory and HOME are
    the same, the nodes at the paths of [outside] are the same, and no
    node was added or altered: a node of [w'] is a node of [w]. *)
Definition changes_within (outside : str -> Prop) (w w' : Sys) : Prop :=
  sys_cwd w' = sys_cwd w /\ sys_home w' = sys_home w /\
  (forall k, outside k -> sys_nodes w' !! k = sys_nodes w !! k) /\
  (forall k, sys_nodes w' !! k = None \/ sys_nodes w' !! k = sys_nodes w !! k).

(** The names of the nodes are C strings. *)
Definition nul_free (w : Sys) : Prop :=
  map_Forall (fun k (_ : node) => NUL ∉ k) (sys_nodes w).

(** What [readdir] returns in a directory of a file system whose names
    are C strings: ".", ".." and path components. *)
Definition entry_ok (d : str) : Prop := d = s "." \/ d = s ".." \/ good_token d = true.

(** The paths [array_clear] leaves alone: those not below the array, its
    schema file and its lock file. *)
Definition array_outside (q k : str) : Prop :=
  starts_with k (q ++ [SLASH]) = false \/
  k = q ++ SLASH :: TILEDB_ARRAY_SCHEMA_FILENAME \/
  k = q ++ SLASH :: TILEDB_SM_CONSOLIDATION_FILELOCK_NAME.

(** The entries of the array directory that the loop of [array_clear]
    does not skip. *)
Definition cleared_entry (entries : list str) (d : str) : Prop :=
  d ∈ entries /\ good_token d = true /\
  d <> TILEDB_ARRAY_SCHEMA_FILENAME /\ d <> TILEDB_SM_CONSOLIDATION_FILELOCK_NAME.

(** What the loop of [array_clear] over [entries] has done when it
    returns [st] in the state [w']. *)
Definition array_clear_post (q : str) (entries : list str) (w : Sys) (st : Status) (w' : Sys)
  : Prop :=
  changes_within (array_outside q) w w' /\
  (st = Ok <-> forall d, cleared_entry entries d ->
                 is_metadata w (q ++ SLASH :: d) = true \/
                 is_fragment w (q ++ SLASH :: d) = true) /\
  (st = Ok -> forall d, cleared_entry entries d ->
                is_metadata w (q ++ SLASH :: d) = false ->
                sys_nodes w' !! (q ++ SLASH :: d) = None).

(** ** Example states *)

(** A workspace /w that holds the array /w/a: its schema, its
    consolidation lock, two visible fragments, and a fragment directory
    that has no marker yet. *)
Definition example_sys : Sys :=
  mkSys (s "/home/u") (s "/home/u")
    (list_to_map
       [(s "/w", Dir);
        (s "/w/__tiledb_workspace.tdb", File []);
        (s "/w/a", Dir);
        (s "/w/a/__array_schema.tdb", File (s "schema"));
        (s "/w/a/__consolidation_lock", File []);
        (s "/w/a/__u1_2", Dir);
        (s "/w/a/__u1_2/__tiledb_fragment.tdb", File []);
        (s "/w/a/__u2_1", Dir);
        (s "/w/a/__u2_1/__tiledb_fragment.tdb", File []);
        (s "/w/a/__u3_3", Dir)])
    ∅ 3 [].

Definition example_schema : ArraySchema := mkArraySchema (s "/w/a") (Ok, s "schema").

(** Collaborators that succeed: consolidation merges the fragments the
    array was opened with into the fragment directory [new_fragment]. *)
Definition example_engine (new_fragment : str) : Engine :=
  mkEngine 256
    (fun _ => (Ok, example_schema))
    (fun _ => Ok)
    (fun _ _ _ => Ok)
    (fun w array => (Ok, mkFragment new_fragment (s "/w/a"), arr_fragment_names array, w))
    (fun w _ => (Ok, w))
    0 0.

(** Fragments written at the times 5, 1, 3, 2, 4. *)
Definition example_parts : list fragment_parts :=
  [mkParts (s "/w/a") (s "0a1") (s "5");
   mkParts (s "/w/a") (s "0a2") (s "1");
   mkParts (s "/w/a") (s "0a3") (s "3");
   mkParts (s "/w/a") (s "0a4") (s "2");
   mkParts (s "/w/a") (s "0a5") (s "4")].


(** * Properties *)

(** ** Strings *)

Lemma str_eqb_true (a b : str) : str_eqb a b = true <-> a = b.
Proof. unfold str_eqb. apply bool_decide_eq_true. Qed.

Lemma str_eqb_false (a b : str) : str_eqb a b = false <-> a <> b.
Proof. unfold str_eqb. apply bool_decide_eq_false. Qed.

Lemma str_eqb_refl (a : str) : str_eqb a a = true.
Proof. now apply str_eqb_true. Qed.

Lemma ascii_eqb_false (a b : ascii) : Ascii.eqb a b = false <-> a <> b.
Proof. apply Ascii.eqb_neq. Qed.

Lemma good_token_inv (t : str) :
  good_token t = true ->
  t <> [] /\ (SLASH ∉ t) /\ (NUL ∉ t) /\ t <> s "." /\ t <> s "..".
Proof.
  unfold good_token. rewrite !andb_true_iff, !negb_true_iff, !str_eqb_false,
    !bool_decide_eq_false. tauto.
Qed.

Lemma good_token_intro (t : str) :
  t <> [] -> SLASH ∉ t -> NUL ∉ t -> t <> s "." -> t <> s ".." -> good_token t = true.
Proof.
  intros. unfold good_token. rewrite !andb_true_iff, !negb_true_iff, !str_eqb_false,
    !bool_decide_eq_false. tauto.
Qed.

(** ** Splitting and joining *)

Lemma split_on_nonempty (sep : ascii) (x : str) : split_on sep x <> [].
Proof.
  destruct x as [|c t]; simpl; [discriminate|].
  destruct (Ascii.eqb c sep); [discriminate|].
  destruct (split_on sep t); discriminate.
Qed.

Lemma split_on_app_token (sep : ascii) (t rest : str) :
  sep ∉ t -> split_on sep (t ++ sep :: rest) = t :: split_on sep rest.
Proof.
  induction t as [|c t IH]; intros Hin; simpl.
  - now rewrite Ascii.eqb_refl.
  - apply not_elem_of_cons in Hin as [Hc Ht].
    destruct (Ascii.eqb c sep) eqn:E.
    + apply Ascii.eqb_eq in E. congruence.
    + now rewrite IH.
Qed.

Lemma split_on_token (sep : ascii) (t : str) : sep ∉ t -> split_on sep t = [t].
Proof.
  induction t as [|c t IH]; intros Hin; simpl; [reflexivity|].
  apply not_elem_of_cons in Hin as [Hc Ht].
  destruct (Ascii.eqb c sep) eqn:E.
  - apply Ascii.eqb_eq in E. congruence.
  - now rewrite IH.
Qed.

Lemma split_on_pieces (sep : ascii) (x : str) : Forall (fun t => sep ∉ t) (split_on sep x).
Proof.
  induction x as [|c t IH]; simpl.
  - repeat constructor. apply not_elem_of_nil.
  - destruct (Ascii.eqb c sep) eqn:E.
    + constructor; [apply not_elem_of_nil | exact IH].
    + destruct (split_on sep t) as [|piece rest]; [repeat constructor|].
      * apply not_elem_of_cons. split; [now apply Ascii.eqb_neq in E | apply not_elem_of_nil].
      * inversion IH; subst. constructor; [|assumption].
        apply not_elem_of_cons. split; [now apply Ascii.eqb_neq in E | assumption].
Qed.

Lemma split_join_tokens (toks : list str) :
  toks <> [] -> Forall (fun t => SLASH ∉ t) toks ->
  split_on SLASH (join_tokens toks) = toks.
Proof.
  induction toks as [|t rest IH]; intros Hne Hall; [congruence|].
  inversion Hall as [|? ? Ht Hrest]; subst.
  destruct rest as [|t' rest'].
  - simpl. now apply split_on_token.
  - change (join_tokens (t :: t' :: rest')) with (t ++ SLASH :: join_tokens (t' :: rest')).
    rewrite split_on_app_token by assumption.
    f_equal. apply IH; [discriminate | assumption].
Qed.

Lemma c_str_id (t : str) : NUL ∉ t -> c_str t = t.
Proof.
  induction t as [|c t IH]; intros Hin; simpl; [reflexivity|].
  apply not_elem_of_cons in Hin as [Hc Ht].
  destruct (Ascii.eqb c NUL) eqn:E.
  - apply Ascii.eqb_eq in E. congruence.
  - now rewrite IH.
Qed.

Lemma c_str_no_nul (x : str) : NUL ∉ c_str x.
Proof.
  induction x as [|c t IH]; simpl; [apply not_elem_of_nil|].
  destruct (Ascii.eqb c NUL) eqn:E; [apply not_elem_of_nil|].
  apply not_elem_of_cons. split; [now apply Ascii.eqb_neq in E | exact IH].
Qed.

Lemma c_str_subset (x : str) (c : ascii) : c ∈ c_str x -> c ∈ x.
Proof.
  induction x as [|a t IH]; simpl; [trivial|].
  destruct (Ascii.eqb a NUL); [intros Hc; now apply elem_of_nil in Hc|].
  rewrite !elem_of_cons. intuition.
Qed.

Lemma tokenize_assemble (toks : list str) :
  forallb good_token toks = true -> tokenize (assemble toks) = toks.
Proof.
  intros Hall0. pose proof (proj1 (forallb_forall _ _) Hall0) as Hall.
  unfold tokenize, assemble. cbn [drop]. rewrite drop_0.
  destruct toks as [|t rest]; [reflexivity|].
  rewrite split_join_tokens; [|discriminate|].
  - rewrite (map_ext_in c_str (fun t => t)), map_id.
    + apply forallb_filter_id. apply forallb_forall. intros x Hx.
      apply Hall, good_token_inv in Hx. apply negb_true_iff, str_eqb_false. tauto.
    + intros x Hx. apply c_str_id. apply Hall, good_token_inv in Hx. tauto.
  - apply List.Forall_forall. intros x Hx. apply Hall, good_token_inv in Hx. tauto.
Qed.

Lemma purge_tokens_good (toks acc : list str) :
  forallb good_token toks = true -> purge_tokens toks acc = Some (acc ++ toks).
Proof.
  revert acc. induction toks as [|t rest IH]; intros acc Hall; simpl.
  - now rewrite app_nil_r.
  - simpl in Hall. apply andb_true_iff in Hall as [Ht Hrest].
    apply good_token_inv in Ht as (_ & _ & _ & Hdot & Hdots).
    apply str_eqb_false in Hdot, Hdots. rewrite Hdot, Hdots.
    rewrite IH by assumption. now rewrite <- app_assoc.
Qed.

Lemma last_cons_default {A} (c d : A) (t : list A) : List.last (c :: t) d = List.last t c.
Proof.
  revert c d. induction t as [|a t IH]; intros c d; [reflexivity|].
  change (List.last (c :: a :: t) d) with (List.last (a :: t) d).
  rewrite IH. symmetry. apply IH.
Qed.

Lemma unique_from_token (prev : ascii) (t rest : str) :
  SLASH ∉ t ->
  unique_from both_slashes prev (t ++ rest) =
  t ++ unique_from both_slashes (List.last t prev) rest.
Proof.
  revert prev. induction t as [|c t IH]; intros prev Hin; [reflexivity|].
  apply not_elem_of_cons in Hin as [Hc Ht].
  change ((c :: t) ++ rest) with (c :: (t ++ rest)).
  cbn [unique_from]. unfold both_slashes at 1.
  apply not_eq_sym, Ascii.eqb_neq in Hc. rewrite Hc, andb_false_r.
  rewrite IH by assumption. now rewrite last_cons_default.
Qed.

Lemma last_not_slash (t : str) (d : ascii) : t <> [] -> SLASH ∉ t -> List.last t d <> SLASH.
Proof.
  intros Hne Hin Heq. apply Hin. rewrite <- Heq.
  apply list_elem_of_In. destruct (exists_last Hne) as (l & a & ->).
  rewrite last_last. apply in_or_app. right. now left.
Qed.

Lemma unique_from_join (prev : ascii) (toks : list str) :
  forallb good_token toks = true ->
  unique_from both_slashes prev (join_tokens toks) = join_tokens toks.
Proof.
  revert prev. induction toks as [|t rest IH]; intros prev Hall; [reflexivity|].
  simpl in Hall. apply andb_true_iff in Hall as [Ht Hrest].
  apply good_token_inv in Ht as (Hne & Hslash & _).
  destruct rest as [|t' rest'].
  - simpl. rewrite <- (app_nil_r t) at 1. rewrite unique_from_token by assumption.
    simpl. now rewrite app_nil_r.
  - change (join_tokens (t :: t' :: rest')) with (t ++ SLASH :: join_tokens (t' :: rest')).
    rewrite unique_from_token by assumption. f_equal.
    cbn [unique_from]. unfold both_slashes at 1.
    pose proof (last_not_slash t prev Hne Hslash) as Hl.
    apply Ascii.eqb_neq in Hl. rewrite Hl. cbn [andb].
    f_equal. now apply IH.
Qed.

Lemma dedup_slash_assemble (toks : list str) :
  forallb good_token toks = true ->
  adjacent_slashes_dedup (SLASH :: assemble toks) = assemble toks.
Proof.
  intros Hall. unfold adjacent_slashes_dedup, assemble, std_unique.
  cbn [unique_from]. unfold both_slashes at 1. rewrite Ascii.eqb_refl. cbn [andb].
  f_equal. now apply unique_from_join.
Qed.

Lemma join_tokens_nonempty (toks : list str) :
  toks <> [] -> forallb good_token toks = true -> join_tokens toks <> [].
Proof.
  destruct toks as [|t rest]; intros Hne Hall; [congruence|].
  simpl in Hall. apply andb_true_iff in Hall as [Ht _].
  apply good_token_inv in Ht as (Hnil & _).
  destruct t; [congruence|]. destruct rest; discriminate.
Qed.

(** A canonical path is a fixed point of [real_dir]. *)
Lemma real_dir_canonical (current home p : str) :
  canonical p -> real_dir current home p = Ret p.
Proof.
  intros (toks & Hall & ->).
  destruct toks as [|t rest]; [reflexivity|].
  pose proof (join_tokens_nonempty (t :: rest) ltac:(discriminate) Hall) as Hne.
  unfold real_dir.
  remember (join_tokens (t :: rest)) as j eqn:Hj.
  destruct j as [|c j]; [congruence|].
  assert (Hshape : assemble (t :: rest) = SLASH :: c :: j) by (unfold assemble; now rewrite <- Hj).
  rewrite Hshape.
  assert (E1 : str_eqb (SLASH :: c :: j) (s "") = false) by now apply str_eqb_false.
  assert (E2 : str_eqb (SLASH :: c :: j) (s ".") = false) by now apply str_eqb_false.
  assert (E3 : str_eqb (SLASH :: c :: j) (s "./") = false) by now apply str_eqb_false.
  assert (E4 : str_eqb (SLASH :: c :: j) (s "~") = false) by now apply str_eqb_false.
  assert (E5 : str_eqb (SLASH :: c :: j) (s "/") = false) by now apply str_eqb_false.
  rewrite E1, E2, E3, E4, E5. cbn [orb].
  assert (E6 : starts_with (SLASH :: c :: j) (s "/") = true) by reflexivity.
  rewrite E6. change (s "/" ++ SLASH :: c :: j) with (SLASH :: SLASH :: c :: j).
  rewrite <- Hshape. rewrite dedup_slash_assemble by assumption.
  unfold purge_dots_from_path. rewrite Hshape at 1 2 3.
  rewrite E5. cbn [length Nat.eqb orb assert bind]. 
  rewrite tokenize_assemble by assumption.
  rewrite purge_tokens_good by assumption. rewrite <- Hshape. reflexivity.
Qed.

(** What [purge_dots_from_path] returns is canonical, or the empty
    string of the invalid case. *)
Lemma tokenize_good (x : str) :
  Forall (fun t => t <> [] /\ (SLASH ∉ t) /\ (NUL ∉ t)) (tokenize x).
Proof.
  unfold tokenize. apply List.Forall_forall. intros t Ht.
  apply filter_In in Ht as [Ht Hne].
  apply negb_true_iff, str_eqb_false in Hne.
  apply in_map_iff in Ht as (piece & <- & Hpiece).
  repeat split; [assumption| |apply c_str_no_nul].
  intros Hin. apply c_str_subset in Hin.
  pose proof (split_on_pieces SLASH (drop 1 x)) as Hall.
  rewrite List.Forall_forall in Hall. now apply (Hall piece).
Qed.

Lemma forallb_removelast {A} (f : A -> bool) (l : list A) :
  forallb f l = true -> forallb f (removelast l) = true.
Proof.
  induction l as [|a l IH]; [trivial|].
  intros Hall. simpl in Hall. apply andb_true_iff in Hall as [Ha Hl].
  destruct l as [|b l]; [reflexivity|].
  change (removelast (a :: b :: l)) with (a :: removelast (b :: l)).
  simpl. rewrite Ha. now apply IH.
Qed.

Lemma purge_tokens_result (toks acc final : list str) :
  Forall (fun t => t <> [] /\ (SLASH ∉ t) /\ (NUL ∉ t)) toks ->
  forallb good_token acc = true ->
  purge_tokens toks acc = Some final ->
  forallb good_token final = true.
Proof.
  revert acc. induction toks as [|t rest IH]; intros acc Htoks Hacc Hrun.
  - simpl in Hrun. now inversion Hrun; subst.
  - inversion Htoks as [|? ? (Hne & Hslash & Hnul) Hrest]; subst.
    cbn [purge_tokens] in Hrun.
    destruct (str_eqb t (s ".")) eqn:Edot; [now apply (IH acc)|].
    destruct (str_eqb t (s "..")) eqn:Edots.
    + destruct (length acc =? 0)%nat; [discriminate|].
      apply (IH (removelast acc)); [assumption| |assumption].
      now apply forallb_removelast.
    + apply (IH (acc ++ [t])); [assumption| |assumption].
      rewrite forallb_app, Hacc. simpl. rewrite andb_true_r.
      apply str_eqb_false in Edot, Edots. now apply good_token_intro.
Qed.

Lemma purge_dots_result (x r : str) :
  purge_dots_from_path x = Ret r -> r = [] \/ canonical r.
Proof.
  unfold purge_dots_from_path.
  destruct ((length x =? 0)%nat || str_eqb x (s "/")) eqn:Etriv.
  - intros [= <-]. apply orb_true_iff in Etriv as [E|E].
    + left. apply Nat.eqb_eq in E. now destruct x.
    + right. apply str_eqb_true in E. subst. now exists [].
  - destruct (assert _); [|discriminate]. cbn [bind].
    destruct (purge_tokens (tokenize x) []) as [final|] eqn:Erun.
    + intros [= <-]. right. exists final. split; [|reflexivity].
      apply (purge_tokens_result (tokenize x) [] final);
        [apply tokenize_good|reflexivity|exact Erun].
    + intros [= <-]. now left.
Qed.

Lemma canonical_root : canonical (s "/").
Proof. now exists []. Qed.

Lemma canonical_head (p : str) : canonical p -> exists rest, p = SLASH :: rest.
Proof. intros (toks & _ & ->). now eexists. Qed.

Lemma std_unique_head {A} (p : A -> A -> bool) (a : A) (l : list A) :
  exists rest, std_unique p (a :: l) = a :: rest.
Proof. now eexists. Qed.

Lemma purge_dots_total (x : str) :
  (exists rest, x = SLASH :: rest) -> exists r, purge_dots_from_path x = Ret r.
Proof.
  intros (rest & ->). unfold purge_dots_from_path.
  destruct (_ || _); [now eexists|].
  cbn. destruct (purge_tokens _ _); now eexists.
Qed.

(** With a canonical working directory and HOME, [real_dir] returns, and
    returns a canonical path or the empty string. *)
Lemma real_dir_total (current home p : str) :
  canonical current -> canonical home -> exists r, real_dir current home p = Ret r.
Proof.
  intros Hcur Hhome. unfold real_dir.
  destruct (_ || _); [now eexists|].
  destruct (str_eqb p (s "~")); [now eexists|].
  destruct (str_eqb p (s "/")); [now eexists|].
  apply purge_dots_total.
  apply canonical_head in Hcur as (c & ->), Hhome as (h & ->).
  change (s "/") with [SLASH].
  destruct (starts_with p [SLASH]); [apply std_unique_head|].
  destruct (starts_with p (s "~/")); [apply std_unique_head|].
  destruct (starts_with p (s "./")); apply std_unique_head.
Qed.

Lemma real_dir_result (current home p r : str) :
  canonical current -> canonical home ->
  real_dir current home p = Ret r -> r = [] \/ canonical r.
Proof.
  intros Hcur Hhome. unfold real_dir.
  destruct (_ || _); [intros [= <-]; now right|].
  destruct (str_eqb p (s "~")); [intros [= <-]; now right|].
  destruct (str_eqb p (s "/")); [intros [= <-]; right; apply canonical_root|].
  apply purge_dots_result.
Qed.

(** ** Parent directories *)

Lemma char_at_app_r (pre x : str) (pos : Z) :
  Z.of_nat (length pre) <= pos ->
  char_at (pre ++ x) pos = char_at x (pos - Z.of_nat (length pre)).
Proof.
  intros Hpos. unfold char_at.
  destruct (Z.ltb_spec pos 0), (Z.ltb_spec (pos - Z.of_nat (length pre)) 0); try lia.
  rewrite app_nth2 by lia. f_equal. lia.
Qed.

Lemma char_at_in (x : str) (pos : Z) :
  0 <= pos < Z.of_nat (length x) -> char_at x pos ∈ x.
Proof.
  intros Hpos. unfold char_at. destruct (Z.ltb_spec pos 0); [lia|].
  apply list_elem_of_In, nth_In. lia.
Qed.

Lemma scan_back_child (pre name : str) (fuel : nat) (pos : Z) :
  SLASH ∉ name ->
  Z.of_nat (length pre) <= pos <= Z.of_nat (length pre) + Z.of_nat (length name) ->
  pos - Z.of_nat (length pre) <= Z.of_nat fuel ->
  scan_back (pre ++ SLASH :: name) pos fuel = Z.of_nat (length pre).
Proof.
  intros Hname. revert pos. induction fuel as [|fuel IH]; intros pos Hpos Hfuel.
  - simpl. lia.
  - cbn [scan_back].
    destruct (Z.eq_dec pos (Z.of_nat (length pre))) as [->|Hne].
    + rewrite char_at_app_r by lia. rewrite Z.sub_diag.
      change (char_at (SLASH :: name) 0) with SLASH.
      rewrite Ascii.eqb_refl, andb_false_r. reflexivity.
    + rewrite char_at_app_r by lia.
      assert (Hin : char_at (SLASH :: name) (pos - Z.of_nat (length pre)) ∈ name).
      { unfold char_at. destruct (Z.ltb_spec (pos - Z.of_nat (length pre)) 0); [lia|].
        destruct (Z.to_nat (pos - Z.of_nat (length pre))) as [|k] eqn:Ek; [lia|].
        cbn [nth]. apply list_elem_of_In, nth_In. lia. }
      assert (Hc : Ascii.eqb (char_at (SLASH :: name) (pos - Z.of_nat (length pre))) SLASH = false).
      { apply Ascii.eqb_neq. intros Heq. rewrite Heq in Hin. contradiction. }
      rewrite Hc. destruct (Z.ltb_spec 0 pos); [|lia]. cbn [andb negb].
      apply IH; lia.
Qed.

(** The parent of a canonical path that ends in the component [name] is
    what precedes the last slash. *)
Lemma parent_dir_child (current home pre name : str) :
  canonical (pre ++ SLASH :: name) -> name <> [] -> SLASH ∉ name ->
  parent_dir current home (pre ++ SLASH :: name) = Ret pre.
Proof.
  intros Hcan Hne Hslash. unfold parent_dir.
  rewrite real_dir_canonical by assumption. cbn [bind].
  set (p := pre ++ SLASH :: name).
  assert (Hlen : Z.of_nat (length p) = Z.of_nat (length pre) + 1 + Z.of_nat (length name)).
  { subst p. rewrite length_app. cbn [length]. lia. }
  assert (Hpos : 0 < Z.of_nat (length name)) by (destruct name; [congruence|cbn [length]; lia]).
  assert (Hlast : Ascii.eqb (char_at p (Z.of_nat (length p) - 1)) SLASH = false).
  { apply Ascii.eqb_neq. intros Heq. apply Hslash. rewrite <- Heq.
    subst p. rewrite char_at_app_r by lia.
    unfold char_at. destruct (Z.ltb_spec (Z.of_nat (length (pre ++ SLASH :: name)) - 1
                                            - Z.of_nat (length pre)) 0); [lia|].
    destruct (Z.to_nat (Z.of_nat (length (pre ++ SLASH :: name)) - 1 - Z.of_nat (length pre)))
      as [|k] eqn:Ek; [lia|].
    cbn [nth]. apply list_elem_of_In, nth_In. lia. }
  rewrite Hlast.
  subst p. rewrite scan_back_child; [|assumption|lia|lia].
  unfold substr0_int. destruct (Z.ltb_spec (Z.of_nat (length pre)) 0); [lia|].
  rewrite Nat2Z.id. now rewrite take_app_length.
Qed.

Lemma parent_dir_root_child (current home name : str) :
  good_token name = true -> parent_dir current home (SLASH :: name) = Ret [].
Proof.
  intros Hgood. pose proof (good_token_inv name Hgood) as (Hne & Hslash & _).
  apply (parent_dir_child current home [] name); [|assumption..].
  exists [name]. split; [|reflexivity]. simpl. now rewrite Hgood.
Qed.

(** The empty name is no file-system object. *)
Lemma no_entity_at_empty_name (w : Sys) :
  is_workspace w [] = false /\ is_group w [] = false /\
  is_array w [] = false /\ is_metadata w [] = false.
Proof. repeat split. Qed.


(** ** Canonical paths and the kernel *)

Lemma join_tokens_snoc (toks : list str) (t : str) :
  toks <> [] -> join_tokens (toks ++ [t]) = join_tokens toks ++ SLASH :: t.
Proof.
  induction toks as [|a rest IH]; intros Hne; [congruence|].
  destruct rest as [|b rest]; [reflexivity|].
  change (join_tokens ((a :: b :: rest) ++ [t])) with (a ++ SLASH :: join_tokens ((b :: rest) ++ [t])).
  rewrite IH by discriminate.
  change (join_tokens (a :: b :: rest)) with (a ++ SLASH :: join_tokens (b :: rest)).
  now rewrite <- app_assoc.
Qed.

Lemma canonical_child (p t : str) :
  canonical p -> p <> s "/" -> good_token t = true -> canonical (p ++ SLASH :: t).
Proof.
  intros (toks & Hall & ->) Hroot Hgood.
  destruct toks as [|a rest]; [now contradiction Hroot|].
  exists ((a :: rest) ++ [t]). split.
  - rewrite forallb_app, Hall. simpl. now rewrite Hgood.
  - unfold assemble. rewrite join_tokens_snoc by discriminate. reflexivity.
Qed.

Lemma canonical_child_not_root (p t : str) : canonical p -> p ++ SLASH :: t <> s "/".
Proof.
  intros (toks & _ & ->). unfold assemble. change (s "/") with [SLASH].
  intros Heq. injection Heq as Heq. now destruct (join_tokens toks).
Qed.

Lemma canonical_no_nul (p : str) : canonical p -> NUL ∉ p.
Proof.
  intros (toks & Hall & ->). unfold assemble.
  apply not_elem_of_cons. split; [discriminate|].
  induction toks as [|t rest IH]; [apply not_elem_of_nil|].
  simpl in Hall. apply andb_true_iff in Hall as [Ht Hrest].
  apply good_token_inv in Ht as (_ & _ & Hnul & _).
  destruct rest as [|t' rest']; [exact Hnul|].
  change (join_tokens (t :: t' :: rest')) with (t ++ SLASH :: join_tokens (t' :: rest')).
  rewrite elem_of_app, elem_of_cons. intros [H|[H|H]]; [contradiction|discriminate|].
  now apply IH.
Qed.

Lemma os_walk_good (toks acc : list str) :
  forallb good_token toks = true -> os_walk toks acc = acc ++ toks.
Proof.
  revert acc. induction toks as [|t rest IH]; intros acc Hall; cbn [os_walk].
  - now rewrite app_nil_r.
  - simpl in Hall. apply andb_true_iff in Hall as [Ht Hrest].
    apply good_token_inv in Ht as (Hne & _ & _ & Hdot & Hdots).
    apply str_eqb_false in Hne, Hdot, Hdots. rewrite Hne, Hdot, Hdots. cbn [orb].
    rewrite IH by assumption. now rewrite <- app_assoc.
Qed.

(** A canonical path resolves to itself, whatever the working directory. *)
Lemma os_resolve_canonical (w : Sys) (p : str) : canonical p -> os_resolve w p = Some p.
Proof.
  intros Hcan. unfold os_resolve.
  rewrite c_str_id by now apply canonical_no_nul.
  destruct Hcan as (toks & Hall & ->).
  assert (E : str_eqb (assemble toks) [] = false) by now apply str_eqb_false.
  rewrite E.
  assert (E' : starts_with (assemble toks) (s "/") = true) by reflexivity.
  rewrite E'. f_equal. f_equal.
  unfold assemble. cbn [split_on]. rewrite Ascii.eqb_refl.
  destruct toks as [|t rest]; [reflexivity|].
  rewrite split_join_tokens.
  - change (os_walk ([] :: t :: rest) []) with (os_walk (t :: rest) []).
    now apply (os_walk_good (t :: rest) []).
  - discriminate.
  - apply List.Forall_forall. intros x Hx.
    apply (proj1 (forallb_forall _ _) Hall), good_token_inv in Hx. tauto.
Qed.

Lemma is_file_canonical (w : Sys) (p : str) :
  canonical p -> p <> s "/" ->
  is_file w p = match sys_nodes w !! p with
                | Some (File _) => true
                | _ => false
                end.
Proof.
  intros Hcan Hroot. unfold is_file, sys_stat, node_at.
  rewrite os_resolve_canonical by assumption.
  apply str_eqb_false in Hroot. now rewrite Hroot.
Qed.

(** ** Traces *)

Lemma replay_app (a b : list event) (w : Sys) : replay (a ++ b) w = replay b (replay a w).
Proof. unfold replay. apply fold_left_app. Qed.

Lemma replay_cwd (evs : list event) (w : Sys) :
  sys_cwd (replay evs w) = sys_cwd w /\ sys_home (replay evs w) = sys_home w.
Proof.
  revert w. induction evs as [|e evs IH]; intros w; [now split|].
  change (replay (e :: evs) w) with (replay evs (apply_event e w)).
  destruct (IH (apply_event e w)) as [-> ->]. now split.
Qed.

Lemma replay_trace (evs : list event) (w : Sys) :
  sys_trace (replay evs w) = sys_trace w ++ evs.
Proof.
  revert w. induction evs as [|e evs IH]; intros w; [now rewrite app_nil_r|].
  change (replay (e :: evs) w) with (replay evs (apply_event e w)).
  rewrite IH. cbn. now rewrite <- app_assoc.
Qed.

Lemma replay_lookup_preserved (K : str) (evs : list event) (w : Sys) :
  (forall e m, e ∈ evs -> event_nodes e m !! K = m !! K) ->
  sys_nodes (replay evs w) !! K = sys_nodes w !! K.
Proof.
  revert w. induction evs as [|e evs IH]; intros w Hpres; [reflexivity|].
  change (replay (e :: evs) w) with (replay evs (apply_event e w)).
  rewrite IH.
  - cbn. apply Hpres. now left.
  - intros e' m He'. apply Hpres. now right.
Qed.

(** ** The runs of [consolidation_finalize] *)

Lemma remove_fragment_files_trace (olds : list str) (w : Sys) :
  Forall (fun o => canonical (fragment_file o)) olds ->
  exists st k,
    remove_fragment_files w olds =
      (st, replay (map (fun o => EvUnlink (fragment_file o)) (take k olds)) w) /\
    (ok st = true -> take k olds = olds).
Proof.
  intros Hcan. revert w. induction Hcan as [|o olds Ho Holds IH]; intros w.
  - exists Ok, O. now split.
  - cbn [remove_fragment_files]. fold (fragment_file o).
    unfold sys_remove. rewrite os_resolve_canonical by assumption.
    assert (Hfail : exists st k,
               (StorageManagerError
                  (s "Cannot remove fragment file during finalizing consolidation; "), w) =
               (st, replay (map (fun o => EvUnlink (fragment_file o)) (take k (o :: olds))) w) /\
               (ok st = true -> take k (o :: olds) = o :: olds)).
    { eexists _, O. split; [reflexivity|]. discriminate. }
    assert (Hstep : exists st k,
               remove_fragment_files (apply_event (EvUnlink (fragment_file o)) w) olds =
               (st, replay (map (fun o => EvUnlink (fragment_file o)) (take k (o :: olds))) w) /\
               (ok st = true -> take k (o :: olds) = o :: olds)).
    { destruct (IH (apply_event (EvUnlink (fragment_file o)) w)) as (st & k & Hrun & Hok).
      exists st, (S k). split; [exact Hrun|]. intros Hst. cbn [take]. f_equal. now apply Hok. }
    destruct (sys_nodes w !! fragment_file o) as [[|data]|]; [|exact Hstep|exact Hfail].
    destruct (children w (fragment_file o)); [exact Hstep|exact Hfail].
Qed.

Lemma delete_fragment_dirs_trace (olds : list str) (w : Sys) :
  Forall canonical olds ->
  exists st k,
    delete_fragment_dirs w olds = Ret (st, replay (map EvDeleteDir (take k olds)) w).
Proof.
  intros Hcan. revert w. induction Hcan as [|o olds Ho Holds IH]; intros w.
  - now exists Ok, O.
  - cbn [delete_fragment_dirs]. unfold delete_dir.
    rewrite real_dir_canonical by assumption. cbn [bind].
    rewrite os_resolve_canonical by assumption.
    destruct (sys_nodes w !! o) as [[|data]|]; cbn [ok negb].
    + destruct (IH (apply_event (EvDeleteDir o) w)) as (st & k & Hrun).
      exists st, (S k). exact Hrun.
    + now exists UtilsError, O.
    + now exists UtilsError, O.
Qed.

Lemma map_take_prefix {A B} (f : A -> B) (k : nat) (l tl : list B) (l0 : list A) :
  l = map f l0 -> map f (take k l0) `prefix_of` l ++ tl.
Proof.
  intros ->. exists (map f (drop k l0) ++ tl).
  rewrite app_assoc, <- map_app, take_drop. reflexivity.
Qed.

Lemma consolidation_finalize_trace
  (w : Sys) (fd0 : Z) (arr newname : str) (olds : list str) :
  canonical arr -> arr <> s "/" ->
  canonical (fragment_file newname) ->
  Forall canonical olds ->
  Forall (fun o => canonical (fragment_file o)) olds ->
  is_file w (fragment_file newname) = false ->
  exists st tr,
    consolidation_finalize w fd0 (mkFragment newname arr) olds = Ret (st, replay tr w) /\
    tr `prefix_of` finalize_trace (sys_next_fd w) arr newname olds.
Proof.
  intros Harr Hroot Hnew Holds Hmarkers Hinvisible.
  unfold consolidation_finalize.
  destruct (length olds =? 0)%nat; [exists Ok, []; split; [reflexivity|apply prefix_nil]|].
  cbn [fragment_array_name fragment_name].
  unfold consolidation_filelock_lock. rewrite real_dir_canonical by assumption. cbn [bind].
  set (lockfile := arr ++ s "/" ++ TILEDB_SM_CONSOLIDATION_FILELOCK_NAME).
  assert (Hlock : canonical lockfile) by (apply canonical_child; [assumption..|reflexivity]).
  unfold sys_open_rdwr. rewrite (os_resolve_canonical w lockfile Hlock).
  set (fd := sys_next_fd w).
  assert (Hnil : forall (st : Status),
             exists st' tr, @Ret (Status * Sys) (st, w) = Ret (st', replay tr w) /\
                            tr `prefix_of` finalize_trace fd arr newname olds).
  { intros st. exists st, []. split; [reflexivity|apply prefix_nil]. }
  destruct (node_at w lockfile) as [[|data]|]; cbn [Z.eqb ok negb]; [apply Hnil| |apply Hnil].
  destruct (fd =? -1).
  { cbn [ok negb]. eexists _, [EvOpen fd lockfile]. split; [reflexivity|].
    now exists (EvLock fd F_WRLCK :: EvCreat (fragment_file newname) ::
                  map (fun o => EvUnlink (fragment_file o)) olds ++ [EvClose fd] ++
                  map EvDeleteDir olds). }
  unfold sys_setlkw.
  destruct (sys_fds (apply_event (EvOpen fd lockfile) w) !! fd).
  2:{ cbn [ok negb]. eexists _, [EvOpen fd lockfile]. split; [reflexivity|].
      now exists (EvLock fd F_WRLCK :: EvCreat (fragment_file newname) ::
                    map (fun o => EvUnlink (fragment_file o)) olds ++ [EvClose fd] ++
                    map EvDeleteDir olds). }
  cbn [ok negb].
  set (w2 := apply_event (EvLock fd F_WRLCK) (apply_event (EvOpen fd lockfile) w)).
  assert (Hw2 : w2 = replay [EvOpen fd lockfile; EvLock fd F_WRLCK] w) by reflexivity.
  assert (Hstop2 : forall st : Status,
             exists st' tr, @Ret (Status * Sys) (st, w2) = Ret (st', replay tr w) /\
                            tr `prefix_of` finalize_trace fd arr newname olds).
  { intros st. exists st, [EvOpen fd lockfile; EvLock fd F_WRLCK]. split; [now rewrite Hw2|].
    now exists (EvCreat (fragment_file newname) ::
                  map (fun o => EvUnlink (fragment_file o)) olds ++ [EvClose fd] ++
                  map EvDeleteDir olds). }
  cbn [bind ok negb].
  unfold fragment_finalize, create_fragment_file. cbn [fragment_name].
  fold (fragment_file newname).
  unfold sys_creat_write. rewrite (os_resolve_canonical _ _ Hnew).
  assert (Hnode : node_at w2 (fragment_file newname) = node_at w (fragment_file newname))
    by reflexivity.
  rewrite Hnode.
  assert (Hnofile : forall data, node_at w (fragment_file newname) <> Some (File data)).
  { intros data' Hnode'. unfold is_file, sys_stat in Hinvisible.
    rewrite os_resolve_canonical, Hnode' in Hinvisible by assumption. discriminate. }
  destruct (node_at w (fragment_file newname)) as [[|data']|] eqn:Enode;
    [apply Hstop2|now contradiction (Hnofile data')|].
  destruct (node_at w2 (os_dirname (fragment_file newname))) as [[|data']|];
    [|apply Hstop2|apply Hstop2].
  change (str_eqb [] []) with true. cbn iota. cbn [ok negb].
  set (w3 := apply_event (EvCreat (fragment_file newname)) w2).
  set (head := [EvOpen fd lockfile; EvLock fd F_WRLCK; EvCreat (fragment_file newname)]).
  assert (Hw3 : w3 = replay head w) by reflexivity.
  destruct (remove_fragment_files_trace olds w3 Hmarkers) as (st_rm & k & Hrm & Hall).
  rewrite Hrm.
  destruct (ok st_rm) eqn:Eok; cbn [negb].
  2:{ eexists _, (head ++ map (fun o => EvUnlink (fragment_file o)) (take k olds)).
      split; [now rewrite replay_app, <- Hw3|].
      unfold finalize_trace. fold head. apply prefix_app. now eapply map_take_prefix. }
  rewrite (Hall eq_refl) in *.
  set (unlinks := map (fun o => EvUnlink (fragment_file o)) olds).
  set (w4 := replay unlinks w3).
  assert (Hw4 : w4 = replay (head ++ unlinks) w) by (subst w4; now rewrite replay_app, <- Hw3).
  unfold consolidation_filelock_unlock, sys_close.
  destruct (sys_fds w4 !! fd).
  2:{ cbn [ok negb]. eexists _, (head ++ unlinks). split; [now rewrite Hw4|].
      unfold finalize_trace. fold head. fold unlinks. apply prefix_app.
      now exists ([EvClose fd] ++ map EvDeleteDir olds). }
  cbn [ok negb].
  destruct (delete_fragment_dirs_trace olds (apply_event (EvClose fd) w4) Holds)
    as (st_del & k' & Hdel).
  rewrite Hdel.
  exists st_del, (head ++ unlinks ++ [EvClose fd] ++ map EvDeleteDir (take k' olds)). split.
  - rewrite !replay_app, <- Hw3. reflexivity.
  - unfold finalize_trace. fold head. fold unlinks.
    do 3 apply prefix_app. rewrite <- (app_nil_r (map EvDeleteDir olds)).
    now eapply map_take_prefix.
Qed.

(** ** The order of the effects *)

Lemma app_split_not_in {A} (l1 l2 pre post : list A) (x : A) :
  l1 ++ l2 = pre ++ x :: post -> x ∉ l1 ->
  exists pre', pre = l1 ++ pre' /\ l2 = pre' ++ x :: post.
Proof.
  revert pre. induction l1 as [|a l1 IH]; intros pre Heq Hnot.
  - now exists pre.
  - apply not_elem_of_cons in Hnot as [Hne Hnot].
    destruct pre as [|b pre]; cbn in Heq; injection Heq as Hab Heq; [congruence|].
    destruct (IH pre Heq Hnot) as (pre' & -> & ->). exists pre'. now subst.
Qed.

Lemma publish_precedes_hiding
  (fd : Z) (arr newname : str) (olds : list str) (tr pre post : list event) (m : str) :
  tr `prefix_of` finalize_trace fd arr newname olds ->
  tr = pre ++ EvUnlink m :: post ->
  EvCreat (fragment_file newname) ∈ pre.
Proof.
  intros [rest Hfull] ->. unfold finalize_trace in Hfull.
  rewrite <- app_assoc in Hfull. cbn [app] in Hfull.
  destruct pre as [|e1 [|e2 [|e3 pre]]]; cbn [app] in Hfull; try discriminate.
  injection Hfull as _ _ He3 _. subst e3.
  rewrite !elem_of_cons. tauto.
Qed.

Lemma hiding_precedes_deletion
  (fd : Z) (arr newname : str) (olds : list str) (tr pre post : list event) (d o : str) :
  tr `prefix_of` finalize_trace fd arr newname olds ->
  tr = pre ++ EvDeleteDir d :: post ->
  o ∈ olds ->
  EvUnlink (fragment_file o) ∈ pre.
Proof.
  intros [rest Hfull] -> Ho. unfold finalize_trace in Hfull.
  rewrite <- app_assoc in Hfull. cbn [app] in Hfull.
  set (unlinks := map (fun o => EvUnlink (fragment_file o)) olds) in *.
  set (head := [EvOpen fd (arr ++ s "/" ++ TILEDB_SM_CONSOLIDATION_FILELOCK_NAME);
                EvLock fd F_WRLCK; EvCreat (fragment_file newname)]).
  assert (Hshape : (head ++ unlinks ++ [EvClose fd]) ++ map EvDeleteDir olds =
                   pre ++ EvDeleteDir d :: post ++ rest).
  { etransitivity; [|etransitivity; [exact Hfull|]].
    - subst head. cbn [app]. rewrite <- ?app_assoc. reflexivity.
    - reflexivity. }
  apply app_split_not_in in Hshape as (pre' & -> & _).
  - rewrite !elem_of_app. left. right. left.
    subst unlinks. apply list_elem_of_fmap. now exists o.
  - rewrite !elem_of_app. intros [Hin|[Hin|Hin]].
    + subst head. rewrite !elem_of_cons in Hin.
      destruct Hin as [H|[H|[H|H]]]; try discriminate. now apply elem_of_nil in H.
    + subst unlinks. apply list_elem_of_fmap in Hin as (x & Hx & _). discriminate.
    + apply list_elem_of_singleton in Hin. discriminate.
Qed.

Lemma starts_with_true (v p : str) : starts_with v p = true -> exists r, v = p ++ r.
Proof.
  unfold starts_with. destruct (length v <? length p)%nat; [discriminate|].
  intros Heq. apply str_eqb_true in Heq. exists (drop (length p) v).
  rewrite Heq at 1. now rewrite take_drop.
Qed.

Lemma token_split_unique (t1 t2 r1 r2 : str) :
  SLASH ∉ t1 -> SLASH ∉ t2 -> t1 ++ SLASH :: r1 = t2 ++ SLASH :: r2 -> t1 = t2.
Proof.
  revert t2. induction t1 as [|c t1 IH]; intros t2 H1 H2 Heq.
  - destruct t2 as [|c2 t2]; [reflexivity|]. cbn in Heq. injection Heq as Hc _.
    subst c2. contradiction H2. now left.
  - destruct t2 as [|c2 t2]; cbn in Heq; injection Heq as Hc Heq.
    + subst c. contradiction H1. now left.
    + subst c2. f_equal. apply not_elem_of_cons in H1 as [_ H1], H2 as [_ H2].
      now apply (IH t2).
Qed.

Lemma new_marker_kept_by
  (fd : Z) (K : str) (olds : list str) (e : event) (m : gmap str node) :
  (forall o, o ∈ olds -> fragment_file o <> K) ->
  (forall o, o ∈ olds -> str_eqb K o || starts_with K (o ++ [SLASH]) = false) ->
  e ∈ map (fun o => EvUnlink (fragment_file o)) olds ++ [EvClose fd] ++ map EvDeleteDir olds ->
  event_nodes e m !! K = m !! K.
Proof.
  intros Hd1 Hd2. rewrite !elem_of_app. intros [Hin|[Hin|Hin]].
  - apply list_elem_of_fmap in Hin as (o & -> & Ho). cbn [event_nodes].
    apply lookup_delete_ne. now apply Hd1.
  - apply list_elem_of_singleton in Hin. now subst.
  - apply list_elem_of_fmap in Hin as (o & -> & Ho). cbn [event_nodes].
    apply option_eq. intros x. rewrite map_lookup_filter_Some. cbn.
    specialize (Hd2 o Ho). tauto.
Qed.

Lemma never_both_invisible
  (w : Sys) (fd : Z) (arr newname : str) (olds : list str) (tr : list event) (o : str) :
  canonical (fragment_file newname) ->
  Forall (fun o => canonical (fragment_file o)) olds ->
  (forall o, o ∈ olds -> is_file w (fragment_file o) = true) ->
  (forall o, o ∈ olds -> fragment_file o <> fragment_file newname) ->
  (forall o, o ∈ olds ->
     str_eqb (fragment_file newname) o || starts_with (fragment_file newname) (o ++ [SLASH]) = false) ->
  tr `prefix_of` finalize_trace fd arr newname olds ->
  o ∈ olds ->
  is_file (replay tr w) (fragment_file o) = false ->
  is_file (replay tr w) (fragment_file newname) = true.
Proof.
  intros Hnew Hmarkers Hvisible Hd1 Hd2 [rest Hfull] Ho Hgone.
  assert (Hnr : forall x, fragment_file x <> s "/").
  { intros x. unfold fragment_file. change (s "/") with [SLASH].
    intros Heq. apply (f_equal (@length ascii)) in Heq.
    rewrite length_app in Heq.
    cbn in Heq. change (length TILEDB_FRAGMENT_FILENAME) with 21%nat in Heq. lia. }
  assert (Hocan : canonical (fragment_file o)).
  { rewrite List.Forall_forall in Hmarkers. now apply Hmarkers, list_elem_of_In. }
  rewrite is_file_canonical in Hgone |- * by auto.
  unfold finalize_trace in Hfull. cbn [app] in Hfull.
  assert (Hsame : sys_nodes (replay tr w) = sys_nodes w -> False).
  { intros Hnodes. rewrite Hnodes in Hgone. specialize (Hvisible o Ho).
    rewrite is_file_canonical in Hvisible by auto.
    rewrite Hgone in Hvisible. discriminate. }
  destruct tr as [|e1 [|e2 [|e3 tr']]]; cbn [app] in Hfull.
  - now contradiction Hsame.
  - injection Hfull as <- _. now contradiction Hsame.
  - injection Hfull as <- <- _. now contradiction Hsame.
  - injection Hfull as <- <- <- Hrest.
    change (replay (?a :: ?b :: ?c :: tr') w) with (replay tr' (replay [a; b; c] w)).
    rewrite replay_lookup_preserved.
    + cbn. now rewrite lookup_insert_eq.
    + intros e m He. apply (new_marker_kept_by fd _ olds); [assumption..|].
      assert (Hin : e ∈ tr' ++ rest) by (apply elem_of_app; now left).
      rewrite <- Hrest in Hin. exact Hin.
Qed.


(** ** Examples of canonicalisation *)

Example real_dir_spec_example :
  real_dir (s "/cwd") (s "/home/u") (s "/a//b/../c/./d") = Ret (s "/a/c/d").
Proof. reflexivity. Qed.

Example real_dir_relative_example :
  real_dir (s "/cwd") (s "/home/u") (s "x/./y") = Ret (s "/cwd/x/y").
Proof. reflexivity. Qed.

Example parent_dir_example :
  parent_dir (s "/cwd") (s "/home/u") (s "/w/g/a") = Ret (s "/w/g") /\
  parent_dir (s "/cwd") (s "/home/u") (s "/w") = Ret (s "") /\
  parent_dir (s "/cwd") (s "/home/u") (s "/") = Ret (s "/").
Proof. repeat split; reflexivity. Qed.

Lemma canonical_example_paths :
  canonical (s "/cwd") /\ canonical (s "/home/u") /\ canonical (s "/w/a").
Proof.
  split; [|split].
  - exists [s "cwd"]. now split.
  - exists [s "home"; s "u"]. now split.
  - exists [s "w"; s "a"]. now split.
Defined.

(** C6, as amended: for every input, when the working directory and HOME
    are canonical absolute paths, [real_dir] returns; whenever what it
    returns is not the empty string of the invalid case, [real_dir] maps
    it to itself; and the empty string is mapped to the working
    directory. *)
Theorem real_dir_idempotent_on_valid (current home p : str) :
  canonical current -> canonical home ->
  exists r, real_dir current home p = Ret r /\
            (r <> [] -> real_dir current home r = Ret r) /\
            (r = [] -> real_dir current home r = Ret current).
Proof.
  intros Hcur Hhome.
  destruct (real_dir_total current home p Hcur Hhome) as (r & Hr).
  exists r. split; [exact Hr|]. split.
  - intros Hne. destruct (real_dir_result current home p r Hcur Hhome Hr) as [Hnil|Hcan];
      [contradiction|]. now apply real_dir_canonical.
  - intros ->. reflexivity.
Qed.

Lemma real_dir_idempotent_on_valid_witness :
  exists r, real_dir (s "/cwd") (s "/home/u") (s "x/../y//z/") = Ret r /\
            (r <> [] -> real_dir (s "/cwd") (s "/home/u") r = Ret r) /\
            (r = [] -> real_dir (s "/cwd") (s "/home/u") r = Ret (s "/cwd")).
Proof.
  apply (real_dir_idempotent_on_valid (s "/cwd") (s "/home/u") (s "x/../y//z/")).
  - exact (proj1 canonical_example_paths).
  - exact (proj1 (proj2 canonical_example_paths)).
Defined.

(** C6 as stated fails: the invalid input "/.." is canonicalised to the
    empty string, and the empty string to the working directory. *)
Lemma real_dir_not_idempotent_on_invalid :
  exists p r,
    real_dir (s "/cwd") (s "/home/u") p = Ret r /\
    real_dir (s "/cwd") (s "/home/u") r <> Ret r.
Proof.
  exists (s "/.."), (s ""). split; [reflexivity|].
  change (real_dir (s "/cwd") (s "/home/u") (s "")) with (@Ret str (s "/cwd")).
  discriminate.
Qed.

(** ** Comparators *)

Lemma int_order_laws (P : Z -> Prop) : order_laws (T := Z) P.
Proof.
  split; cbn; intros.
  - lia.
  - destruct (Z.ltb_spec x y); [now left|]. right. lia.
  - lia.
Qed.

Lemma SFltb_key (f g : spec_float) :
  f <> S754_nan -> g <> S754_nan -> SFltb f g = key_ltb (sf_key f) (sf_key g).
Proof.
  intros Hf Hg. unfold SFltb, SFcompare.
  destruct f as [sf|sf| |sf mf ef], g as [sg|sg| |sg mg eg]; try congruence;
    try (destruct sf); try (destruct sg); try reflexivity.
  - cbn [sf_key key_ltb]. change (Pos.compare_cont Eq mf mg) with (Z.pos mf ?= Z.pos mg).
    destruct (Z.compare_spec ef eg), (Z.compare_spec (Z.pos mf) (Z.pos mg)); cbn; lia.
  - cbn [sf_key key_ltb]. change (Pos.compare_cont Eq mf mg) with (Z.pos mf ?= Z.pos mg).
    destruct (Z.compare_spec ef eg), (Z.compare_spec (Z.pos mf) (Z.pos mg)); cbn; lia.
Qed.

Lemma is_nan_spec_float (x : float) : PrimFloat.is_nan x = false -> Prim2SF x <> S754_nan.
Proof.
  unfold PrimFloat.is_nan. rewrite negb_false_iff, FloatAxioms.eqb_spec.
  intros Heq Hnan. rewrite Hnan in Heq. discriminate.
Qed.

Lemma key_ltb_asym (p q : Z * Z * Z) : key_ltb p q = true -> key_ltb q p = false.
Proof. destruct p as [[p1 p2] p3], q as [[q1 q2] q3]. unfold key_ltb. lia. Qed.

Lemma key_ltb_negtrans (p q r : Z * Z * Z) :
  key_ltb p r = true -> key_ltb p q = true \/ key_ltb q r = true.
Proof.
  destruct p as [[p1 p2] p3], q as [[q1 q2] q3], r as [[r1 r2] r3]. unfold key_ltb.
  intros Hpr. destruct ((p1 <? q1) || (p1 =? q1) && ((p2 <? q2) || (p2 =? q2) && (p3 <? q3))) eqn:E;
    [now left|right]. lia.
Qed.

Lemma float_order_laws : order_laws (T := float) (fun x => PrimFloat.is_nan x = false).
Proof.
  split; cbn; intros.
  - rewrite FloatAxioms.ltb_spec in *.
    rewrite SFltb_key in * by now apply is_nan_spec_float.
    now apply key_ltb_asym.
  - rewrite !FloatAxioms.ltb_spec in *.
    rewrite !SFltb_key in * by now apply is_nan_spec_float.
    now apply key_ltb_negtrans.
  - reflexivity.
Qed.

Lemma elem_order_laws (t : elem_type) : @order_laws (carrier t) (elem_ops t) (ordered_value t).
Proof.
  destruct t; cbn; first [apply int_order_laws | apply float_order_laws].
Qed.

Section ComparatorLaws.
Context {T : Type} {ops : ElemOps T} (valid : T -> Prop) (laws : order_laws valid).

Lemma lookup_valid (a : list T) (i : nat) (x : T) :
  Forall valid a -> a !! i = Some x -> valid x.
Proof.
  intros Hall Hx. rewrite List.Forall_forall in Hall. apply Hall.
  apply list_elem_of_In. eapply list_elem_of_lookup_2. exact Hx.
Qed.

Lemma lookup_same_length {A} (a b : list A) (i : nat) :
  length a = length b -> a !! i = None -> b !! i = None.
Proof. intros Hlen Ha. apply lookup_ge_None. apply lookup_ge_None in Ha. lia. Qed.

(** Either loop is [cmp_dim] at an index, with the rest of the loop as
    the continuation; the laws go through [cmp_dim]. *)
Lemma cmp_dim_range (a b : list T) (i : nat) (k : Z) :
  (k = -1 \/ k = 0 \/ k = 1) ->
  cmp_dim a b i k = -1 \/ cmp_dim a b i k = 0 \/ cmp_dim a b i k = 1.
Proof.
  intros Hk. unfold cmp_dim.
  destruct (a !! i), (b !! i); try assumption.
  destruct (elem_lt _ _); [now left|]. destruct (elem_gt _ _); [now right; right|assumption].
Qed.

Lemma cmp_dim_antisym (a b : list T) (i : nat) (k k' : Z) :
  Forall valid a -> Forall valid b -> k = - k' ->
  cmp_dim a b i k = - cmp_dim b a i k'.
Proof using laws.
  intros Ha Hb Hk. unfold cmp_dim.
  destruct (a !! i) as [x|] eqn:Ex, (b !! i) as [y|] eqn:Ey; try assumption.
  pose proof (lookup_valid _ _ _ Ha Ex) as Hx. pose proof (lookup_valid _ _ _ Hb Ey) as Hy.
  rewrite !(gt_conv valid laws) by assumption.
  destruct (elem_lt x y) eqn:Exy.
  - rewrite (lt_asym valid laws x y) by assumption. reflexivity.
  - destruct (elem_lt y x); [reflexivity|assumption].
Qed.

Lemma cmp_dim_trans (a b c : list T) (i : nat) (kab kbc kac : Z) :
  Forall valid a -> Forall valid b -> Forall valid c ->
  length a = length b -> length b = length c ->
  (kab <= 0 -> kbc <= 0 -> kac <= 0) ->
  cmp_dim a b i kab <= 0 -> cmp_dim b c i kbc <= 0 -> cmp_dim a c i kac <= 0.
Proof using laws.
  intros Ha Hb Hc Hab Hbc Hk. unfold cmp_dim.
  destruct (a !! i) as [x|] eqn:Ex.
  2:{ rewrite (lookup_same_length a b i Hab Ex). exact Hk. }
  destruct (b !! i) as [y|] eqn:Ey.
  2:{ apply (lookup_same_length b a i (eq_sym Hab)) in Ey. congruence. }
  destruct (c !! i) as [z|] eqn:Ez.
  2:{ apply (lookup_same_length c b i (eq_sym Hbc)) in Ez. congruence. }
  pose proof (lookup_valid _ _ _ Ha Ex) as Hx. pose proof (lookup_valid _ _ _ Hb Ey) as Hy.
  pose proof (lookup_valid _ _ _ Hc Ez) as Hz.
  rewrite !(gt_conv valid laws) by assumption.
  destruct (elem_lt x y) eqn:Exy.
  - (* x < y: then x < z unless z < y, which the second verdict excludes *)
    intros _. destruct (elem_lt y z) eqn:Eyz.
    + intros _. destruct (lt_negtrans valid laws x z y Hx Hz Hy Exy) as [Exz|Ezy].
      * now rewrite Exz.
      * rewrite (lt_asym valid laws y z Hy Hz Eyz) in Ezy. discriminate.
    + destruct (elem_lt z y) eqn:Ezy; [lia|]. intros _.
      destruct (lt_negtrans valid laws x z y Hx Hz Hy Exy) as [Exz|Ezy']; [|congruence].
      now rewrite Exz.
  - destruct (elem_lt y x) eqn:Eyx; [lia|]. intros Hkab.
    destruct (elem_lt y z) eqn:Eyz.
    + intros _. destruct (lt_negtrans valid laws y x z Hy Hx Hz Eyz) as [Eyx'|Exz]; [congruence|].
      now rewrite Exz.
    + destruct (elem_lt z y) eqn:Ezy; [lia|]. intros Hkbc.
      destruct (elem_lt x z) eqn:Exz; [lia|].
      destruct (elem_lt z x) eqn:Ezx.
      * destruct (lt_negtrans valid laws z y x Hz Hy Hx Ezx); congruence.
      * now apply Hk.
Qed.

Lemma cmp_row_loop_range (a b : list T) (i n : nat) :
  cmp_row_loop a b i n = -1 \/ cmp_row_loop a b i n = 0 \/ cmp_row_loop a b i n = 1.
Proof.
  revert i. induction n as [|n IH]; intros i; cbn [cmp_row_loop]; [now right; left|].
  apply cmp_dim_range, IH.
Qed.

Lemma cmp_col_loop_range (a b : list T) (n : nat) :
  cmp_col_loop a b n = -1 \/ cmp_col_loop a b n = 0 \/ cmp_col_loop a b n = 1.
Proof.
  induction n as [|n IH]; cbn [cmp_col_loop]; [now right; left|].
  apply cmp_dim_range, IH.
Qed.

Lemma cmp_row_loop_antisym (a b : list T) (i n : nat) :
  Forall valid a -> Forall valid b ->
  cmp_row_loop a b i n = - cmp_row_loop b a i n.
Proof using laws.
  intros Ha Hb. revert i. induction n as [|n IH]; intros i; cbn [cmp_row_loop]; [reflexivity|].
  apply cmp_dim_antisym; [assumption..|apply IH].
Qed.

Lemma cmp_col_loop_antisym (a b : list T) (n : nat) :
  Forall valid a -> Forall valid b ->
  cmp_col_loop a b n = - cmp_col_loop b a n.
Proof using laws.
  intros Ha Hb. induction n as [|n IH]; cbn [cmp_col_loop]; [reflexivity|].
  apply cmp_dim_antisym; [assumption..|apply IH].
Qed.

Lemma cmp_row_loop_trans (a b c : list T) (i n : nat) :
  Forall valid a -> Forall valid b -> Forall valid c ->
  length a = length b -> length b = length c ->
  cmp_row_loop a b i n <= 0 -> cmp_row_loop b c i n <= 0 -> cmp_row_loop a c i n <= 0.
Proof using laws.
  intros Ha Hb Hc Hab Hbc. revert i.
  induction n as [|n IH]; intros i; cbn [cmp_row_loop]; [lia|].
  apply cmp_dim_trans; [assumption..|apply IH].
Qed.

Lemma cmp_col_loop_trans (a b c : list T) (n : nat) :
  Forall valid a -> Forall valid b -> Forall valid c ->
  length a = length b -> length b = length c ->
  cmp_col_loop a b n <= 0 -> cmp_col_loop b c n <= 0 -> cmp_col_loop a c n <= 0.
Proof using laws.
  intros Ha Hb Hc Hab Hbc.
  induction n as [|n IH]; cbn [cmp_col_loop]; [lia|].
  apply cmp_dim_trans; [assumption..|apply IH].
Qed.

End ComparatorLaws.

(** C7, as amended: for every element type among int32, int64, float
    and double, every [dim_num], and all tuples [a], [b], [c] of
    [dim_num] coordinates that are values of the integer type, or
    floating-point numbers (no NaN): [cmp_row_order] and [cmp_col_order]
    return -1, 0 or +1, satisfy cmp(a,b) = -cmp(b,a), are transitive
    (cmp(a,b) <= 0 and cmp(b,c) <= 0 give cmp(a,c) <= 0), and agree with
    each other when [dim_num] is 1. *)
Theorem comparators_are_total_preorders
  (t : elem_type) (dim_num : Z) (a b c : list (carrier t)) :
  Forall (ordered_value t) a -> Forall (ordered_value t) b -> Forall (ordered_value t) c ->
  Z.of_nat (length a) = dim_num -> Z.of_nat (length b) = dim_num ->
  Z.of_nat (length c) = dim_num ->
  let row := @cmp_row_order (carrier t) (elem_ops t) in
  let col := @cmp_col_order (carrier t) (elem_ops t) in
  (row a b dim_num = -1 \/ row a b dim_num = 0 \/ row a b dim_num = 1) /\
  (col a b dim_num = -1 \/ col a b dim_num = 0 \/ col a b dim_num = 1) /\
  row a b dim_num = - row b a dim_num /\
  col a b dim_num = - col b a dim_num /\
  (row a b dim_num <= 0 -> row b c dim_num <= 0 -> row a c dim_num <= 0) /\
  (col a b dim_num <= 0 -> col b c dim_num <= 0 -> col a c dim_num <= 0) /\
  (dim_num = 1 -> row a b dim_num = col a b dim_num).
Proof.
  intros Ha Hb Hc La Lb Lc row col. subst row col.
  unfold cmp_row_order, cmp_col_order.
  pose proof (elem_order_laws t) as laws.
  assert (Hab : length a = length b) by lia.
  assert (Hbc : length b = length c) by lia.
  repeat split.
  - apply cmp_row_loop_range.
  - apply cmp_col_loop_range.
  - now apply (cmp_row_loop_antisym (ordered_value t) laws).
  - now apply (cmp_col_loop_antisym (ordered_value t) laws).
  - now apply (cmp_row_loop_trans (ordered_value t) laws).
  - now apply (cmp_col_loop_trans (ordered_value t) laws).
  - intros ->. reflexivity.
Qed.

(** The transitivity of the row comparator at three int64 tuples. *)
Lemma comparators_are_total_preorders_witness :
  let a := [3; 1; 2] in let b := [3; 2; 0] in let c := [4; 0; 0] in
  @cmp_row_order Z int_ops a b 3 <= 0 /\ @cmp_row_order Z int_ops b c 3 <= 0 /\
  @cmp_row_order Z int_ops a c 3 <= 0.
Proof.
  intros a b c.
  assert (Hv : forall l : list Z, forallb (fun x => (- 2 ^ 63 <=? x) && (x <? 2 ^ 63)) l = true ->
                 Forall (ordered_value Int64) l).
  { intros l Hl. apply List.Forall_forall. intros x Hx.
    apply (proj1 (forallb_forall _ _) Hl) in Hx. cbn. lia. }
  pose proof (comparators_are_total_preorders Int64 3 a b c
                (Hv a eq_refl) (Hv b eq_refl) (Hv c eq_refl) eq_refl eq_refl eq_refl) as H.
  cbv zeta in H. destruct H as (_ & _ & _ & _ & Htrans & _).
  assert (H1 : @cmp_row_order Z int_ops a b 3 <= 0) by (vm_compute; discriminate).
  assert (H2 : @cmp_row_order Z int_ops b c 3 <= 0) by (vm_compute; discriminate).
  exact (conj H1 (conj H2 (Htrans H1 H2))).
Defined.

(** C7 as stated fails on double tuples: with a NaN coordinate in [b],
    cmp(a,b) = 0 and cmp(b,c) = 0 while cmp(a,c) = +1. *)
Lemma cmp_row_order_nan_breaks_transitivity :
  let a := [2%float] in let b := [PrimFloat.nan] in let c := [1%float] in
  @cmp_row_order float float_ops a b 1 <= 0 /\
  @cmp_row_order float float_ops b c 1 <= 0 /\
  ~ @cmp_row_order float float_ops a c 1 <= 0.
Proof.
  cbv zeta. repeat split; vm_compute; congruence.
Qed.

(** ** Containment *)

Lemma parent_dir_tokens (current home : str) (toks : list str) (t : str) :
  forallb good_token toks = true -> good_token t = true ->
  parent_dir current home (assemble (toks ++ [t])) =
    Ret (match toks with
         | [] => []
         | _ :: _ => assemble toks
         end).
Proof.
  intros Htoks Ht. destruct toks as [|t0 rest].
  - now apply parent_dir_root_child.
  - unfold assemble. rewrite join_tokens_snoc by discriminate.
    apply good_token_inv in Ht as Hparts.
    apply (parent_dir_child current home (SLASH :: join_tokens (t0 :: rest)) t); [|tauto..].
    exists ((t0 :: rest) ++ [t]). split.
    + rewrite forallb_app, Htoks. cbn. now rewrite Ht.
    + unfold assemble. now rewrite join_tokens_snoc by discriminate.
Qed.




(** ** Listing *)

Lemma readdir_fails_iff (w : Sys) (name : str) :
  sys_readdir w name = None <-> is_dir w name = false.
Proof.
  unfold sys_readdir, is_dir, sys_stat.
  destruct (os_resolve w name) as [key|]; [|tauto].
  destruct (node_at w key) as [[|data]|]; split; congruence.
Qed.

(** C10: when the canonicalised parent is not a directory that can be
    opened (it does not exist, or is a file), [ls] returns [Ok] with
    [dir_num] set to 0 and both buffers as the caller passed them, and
    [ls_c] returns [Ok] with [dir_num] set to 0. *)
Theorem ls_of_unopenable_directory
  (w : Sys) (parent real : str) (dirs : list str) (dir_types : list tiledb_object_t)
  (dir_num : Z) :
  real_dir (sys_cwd w) (sys_home w) parent = Ret real ->
  is_dir w real = false ->
  ls w parent dirs dir_types dir_num = Ret (Ok, dirs, dir_types, 0) /\
  ls_c w parent = Ret (Ok, 0).
Proof.
  intros Hreal Hdir. apply readdir_fails_iff in Hdir.
  unfold ls, ls_c. rewrite Hreal. cbn [bind]. rewrite Hdir. split; reflexivity.
Qed.

(** ** Reference counting *)

Lemma cnt_set_cnt (c : Z) (e : OpenArray) : cnt_ (set_cnt c e) = c.
Proof. reflexivity. Qed.

Lemma set_cnt_set_cnt (c c' : Z) (e : OpenArray) : set_cnt c (set_cnt c' e) = set_cnt c e.
Proof. reflexivity. Qed.

(** One open of a path that has an entry adds one to its count and
    changes nothing else of it; one open of a path without an entry
    leaves a fresh entry with count 1. *)
Lemma open_existing (sm : StorageManager) (p : str) (e : OpenArray) :
  open_arrays_ sm !! p = Some e ->
  array_get_open_array_entry pthread_ok sm p =
    (Ok, mkStorageManager (<[p := set_cnt (cnt_ e + 1) e]> (open_arrays_ sm))).
Proof.
  intros He. unfold array_get_open_array_entry. cbn [pthread_ok registry_mtx_lock ok negb].
  rewrite He. cbn. reflexivity.
Qed.

Lemma open_fresh (sm : StorageManager) (p : str) :
  open_arrays_ sm !! p = None ->
  array_get_open_array_entry pthread_ok sm p =
    (Ok, mkStorageManager (<[p := mkOpenArray 1 (-1) [] [] None]> (open_arrays_ sm))).
Proof.
  intros He. unfold array_get_open_array_entry. cbn [pthread_ok registry_mtx_lock ok negb].
  rewrite He. cbn. reflexivity.
Qed.

(** One close takes one from the count, and erases the entry exactly
    when the count reaches 0. *)
Lemma close_existing (sm : StorageManager) (w : Sys) (p : str) (e : OpenArray) :
  real_dir (sys_cwd w) (sys_home w) p = Ret p ->
  open_arrays_ sm !! p = Some e ->
  exists st w',
    array_close pthread_ok sm w p =
      Ret (st,
           mkStorageManager
             (if cnt_ e - 1 =? 0 then delete p (open_arrays_ sm)
              else <[p := set_cnt (cnt_ e - 1) e]> (open_arrays_ sm)),
           w') /\
    sys_cwd w' = sys_cwd w /\ sys_home w' = sys_home w.
Proof.
  intros Hreal He. unfold array_close. cbn [pthread_ok registry_mtx_lock ok negb].
  rewrite Hreal. cbn [bind]. rewrite He.
  cbn [entry_mtx_lock ok negb cnt_ set_cnt].
  destruct (cnt_ e - 1 =? 0).
  - unfold consolidation_filelock_unlock, sys_close.
    destruct (sys_fds w !! _); cbn; eauto.
  - cbn. eauto.
Qed.

Lemma open_n_counts (n : nat) (sm : StorageManager) (p : str) (e : OpenArray) :
  open_arrays_ sm !! p = Some e ->
  exists sm', open_n pthread_ok sm p n = Some sm' /\
              open_arrays_ sm' !! p = Some (set_cnt (cnt_ e + Z.of_nat n) e).
Proof.
  revert sm e. induction n as [|n IH]; intros sm e He.
  - exists sm. split; [reflexivity|]. rewrite He. f_equal.
    destruct e. unfold set_cnt. cbn. f_equal. lia.
  - cbn [open_n]. rewrite (open_existing sm p e He).
    destruct (IH (mkStorageManager (<[p := set_cnt (cnt_ e + 1) e]> (open_arrays_ sm)))
                (set_cnt (cnt_ e + 1) e)) as (sm' & Hrun & Hlook).
    { cbn. apply lookup_insert_eq. }
    exists sm'. split; [exact Hrun|]. rewrite Hlook. f_equal.
    rewrite set_cnt_set_cnt, cnt_set_cnt. f_equal. lia.
Qed.

Lemma close_n_counts (k : nat) (sm : StorageManager) (w : Sys) (p : str) (e : OpenArray) :
  real_dir (sys_cwd w) (sys_home w) p = Ret p ->
  open_arrays_ sm !! p = Some e ->
  Z.of_nat k < cnt_ e ->
  exists sm' w', close_n pthread_ok sm w p k = Some (sm', w') /\
                 open_arrays_ sm' !! p = Some (set_cnt (cnt_ e - Z.of_nat k) e) /\
                 sys_cwd w' = sys_cwd w /\ sys_home w' = sys_home w.
Proof.
  revert sm w e. induction k as [|k IH]; intros sm w e Hreal He Hk.
  - exists sm, w. split; [reflexivity|]. split; [|split; reflexivity]. rewrite He. f_equal.
    destruct e. unfold set_cnt. cbn. f_equal. lia.
  - cbn [close_n].
    destruct (close_existing sm w p e Hreal He) as (st & w1 & Hclose & Hcwd & Hhome).
    rewrite Hclose. destruct (Z.eqb_spec (cnt_ e - 1) 0) as [Hz|Hnz]; [lia|].
    destruct (IH (mkStorageManager (<[p := set_cnt (cnt_ e - 1) e]> (open_arrays_ sm))) w1
                (set_cnt (cnt_ e - 1) e)) as (sm' & w' & Hrun & Hlook & Hcwd' & Hhome').
    { now rewrite Hcwd, Hhome. }
    { cbn. apply lookup_insert_eq. }
    { rewrite cnt_set_cnt. lia. }
    exists sm', w'. split; [exact Hrun|]. split; [|split; congruence].
    rewrite Hlook. f_equal. rewrite set_cnt_set_cnt, cnt_set_cnt. f_equal. lia.
Qed.

(** C9: for an array path [p] in canonical form (the form every caller
    passes) with no entry in the registry, and every N >= 1, with mutex
    calls that succeed: N opens leave an entry with count N; N closes
    after them leave no entry for [p]; N - 1 closes leave the entry with
    count 1. Each open of a path that has an entry adds exactly 1 to its
    count, and each close takes exactly 1 from it and erases the entry
    exactly when the count reaches 0. *)
Theorem refcount_open_close (sm : StorageManager) (w : Sys) (p : str) (N : nat) :
  real_dir (sys_cwd w) (sys_home w) p = Ret p ->
  open_arrays_ sm !! p = None ->
  (1 <= N)%nat ->
  (exists sm1,
      open_n pthread_ok sm p N = Some sm1 /\
      cnt_ <$> open_arrays_ sm1 !! p = Some (Z.of_nat N) /\
      (exists sm2 w2, close_n pthread_ok sm1 w p N = Some (sm2, w2) /\
                      open_arrays_ sm2 !! p = None) /\
      (exists sm3 w3, close_n pthread_ok sm1 w p (N - 1) = Some (sm3, w3) /\
                      cnt_ <$> open_arrays_ sm3 !! p = Some 1)) /\
  (forall sm0 e,
      open_arrays_ sm0 !! p = Some e ->
      exists sm', array_get_open_array_entry pthread_ok sm0 p = (Ok, sm') /\
                  open_arrays_ sm' !! p = Some (set_cnt (cnt_ e + 1) e)) /\
  (forall sm0 e,
      open_arrays_ sm0 !! p = Some e ->
      exists st sm' w', array_close pthread_ok sm0 w p = Ret (st, sm', w') /\
                        open_arrays_ sm' !! p =
                          if cnt_ e - 1 =? 0 then None else Some (set_cnt (cnt_ e - 1) e)).
Proof.
  intros Hreal Hnone HN.
  split; [|split].
  2:{ intros sm0 e He. eexists. split; [apply open_existing, He|]. cbn. apply lookup_insert_eq. }
  2:{ intros sm0 e He. destruct (close_existing sm0 w p e Hreal He) as (st & w' & Hclose & _).
      exists st; eexists; exists w'. split; [exact Hclose|]. cbn [open_arrays_].
      destruct (cnt_ e - 1 =? 0); [apply lookup_delete_eq|apply lookup_insert_eq]. }
  destruct N as [|n]; [lia|].
  cbn [open_n]. rewrite (open_fresh sm p Hnone).
  set (e1 := mkOpenArray 1 (-1) [] [] None).
  destruct (open_n_counts n (mkStorageManager (<[p := e1]> (open_arrays_ sm))) p e1)
    as (sm1 & Hopen & Hlook1); [cbn; apply lookup_insert_eq|].
  exists sm1. split; [exact Hopen|].
  assert (Hcnt : cnt_ (set_cnt (cnt_ e1 + Z.of_nat n) e1) = Z.of_nat (S n))
    by (cbn; lia).
  split; [rewrite Hlook1; cbn; f_equal; lia|].
  destruct (close_n_counts n sm1 w p _ Hreal Hlook1) as (sm3 & w3 & Hrun3 & Hlook3 & Hcwd & Hhome);
    [cbn; lia|].
  split.
  - (* N closes: the first N - 1, then the one that reaches 0 *)
    assert (Hsplit : forall k sm w sma wa, close_n pthread_ok sm w p k = Some (sma, wa) ->
               close_n pthread_ok sm w p (S k) =
                 match array_close pthread_ok sma wa p with
                 | Ret (_, sm', w') => Some (sm', w')
                 | Abort _ => None
                 end).
    { induction k as [|k IHk]; intros sm0 w0 sma wa Hk.
      - cbn in Hk. inversion Hk; subst. cbn.
        destruct (array_close pthread_ok sma wa p) as [[[? ?] ?]|]; reflexivity.
      - cbn [close_n] in Hk |- *.
        destruct (array_close pthread_ok sm0 w0 p) as [[[st sm' ] w']|]; [|discriminate].
        now apply IHk. }
    rewrite (Hsplit n sm1 w sm3 w3 Hrun3).
    destruct (close_existing sm3 w3 p _ ltac:(now rewrite Hcwd, Hhome) Hlook3)
      as (st & w4 & Hclose & _).
    rewrite Hclose. do 2 eexists. split; [reflexivity|].
    cbn [open_arrays_]. rewrite !cnt_set_cnt.
    replace (cnt_ e1 + Z.of_nat n - Z.of_nat n - 1 =? 0) with true
      by (symmetry; apply Z.eqb_eq; cbn; lia).
    apply lookup_delete_eq.
  - replace (S n - 1)%nat with n by lia.
    exists sm3, w3. split; [exact Hrun3|]. rewrite Hlook3. cbn. f_equal. lia.
Qed.

Lemma fragment_file_canonical (arr b : str) :
  canonical arr -> arr <> s "/" -> good_token b = true ->
  canonical (arr ++ s "/" ++ b) /\ canonical (fragment_file (arr ++ s "/" ++ b)).
Proof.
  intros Harr Hroot Hb.
  assert (Hfrag : canonical (arr ++ s "/" ++ b)) by now apply canonical_child.
  split; [exact Hfrag|].
  unfold fragment_file. apply canonical_child; [exact Hfrag| |reflexivity].
  now apply canonical_child_not_root.
Qed.

(** C3: for a canonical array directory whose old fragments are visible
    and whose new fragment is not yet, every run of
    [consolidation_finalize], complete or cut short by a failure, makes
    its system calls in this order: the new fragment's marker is created
    before any old marker is removed, and every old marker is removed
    before any old fragment directory is deleted; so in no state the run
    goes through is an old marker absent while the new fragment's marker
    is absent too. *)
Theorem consolidation_publishes_before_hiding
  (w : Sys) (fd_uninit : Z) (array new_base : str) (old_bases : list str) :
  let new_fragment := mkFragment (array ++ s "/" ++ new_base) array in
  let old_fragment_names := map (fun b => array ++ s "/" ++ b) old_bases in
  canonical array -> array <> s "/" ->
  good_token new_base = true -> forallb good_token old_bases = true ->
  new_base ∉ old_bases ->
  (forall o, o ∈ old_fragment_names -> is_file w (fragment_file o) = true) ->
  is_file w (fragment_file (fragment_name new_fragment)) = false ->
  exists st tr,
    consolidation_finalize w fd_uninit new_fragment old_fragment_names = Ret (st, replay tr w) /\
    (forall pre post o,
        tr = pre ++ EvUnlink (fragment_file o) :: post ->
        EvCreat (fragment_file (fragment_name new_fragment)) ∈ pre) /\
    (forall pre post d o,
        tr = pre ++ EvDeleteDir d :: post ->
        o ∈ old_fragment_names ->
        EvUnlink (fragment_file o) ∈ pre) /\
    (forall k o,
        o ∈ old_fragment_names ->
        is_file (replay (take k tr) w) (fragment_file o) = false ->
        is_file (replay (take k tr) w) (fragment_file (fragment_name new_fragment)) = true).
Proof.
  intros new_fragment olds Harr Hroot Hnew Hbases Hfresh Hvisible Hinvisible.
  subst new_fragment. cbn [fragment_name] in *.
  set (newname := array ++ s "/" ++ new_base) in *.
  pose proof (proj1 (forallb_forall _ _) Hbases) as Hgood.
  assert (Hbase : forall o, o ∈ olds -> exists b, o = array ++ s "/" ++ b /\ good_token b = true /\
                                              b <> new_base).
  { intros o Ho. subst olds. apply list_elem_of_fmap in Ho as (b & -> & Hb).
    exists b. split; [reflexivity|]. split; [now apply Hgood, list_elem_of_In|].
    intros ->. contradiction. }
  destruct (fragment_file_canonical array new_base Harr Hroot Hnew) as [_ Hnewf].
  assert (Holds : Forall canonical olds).
  { apply List.Forall_forall. intros o Ho. apply list_elem_of_In, Hbase in Ho as (b & -> & Hb & _).
    now apply fragment_file_canonical. }
  assert (Hmarkers : Forall (fun o => canonical (fragment_file o)) olds).
  { apply List.Forall_forall. intros o Ho. apply list_elem_of_In, Hbase in Ho as (b & -> & Hb & _).
    now apply fragment_file_canonical. }
  destruct (consolidation_finalize_trace w fd_uninit array newname olds
              Harr Hroot Hnewf Holds Hmarkers Hinvisible) as (st & tr & Hrun & Hprefix).
  exists st, tr. split; [exact Hrun|].
  split; [|split].
  - intros pre post o Htr. eapply publish_precedes_hiding; eassumption.
  - intros pre post d o Htr Ho. eapply hiding_precedes_deletion; eassumption.
  - intros k o Ho.
    apply (never_both_invisible w (sys_next_fd w) array newname olds); try assumption.
    + intros o' Ho' Heq. apply Hbase in Ho' as (b & -> & Hb & Hne).
      unfold fragment_file, newname in Heq.
      rewrite <- !app_assoc in Heq. apply app_inv_head in Heq.
      change (s "/" ++ b ++ s "/" ++ TILEDB_FRAGMENT_FILENAME)
        with (SLASH :: b ++ SLASH :: TILEDB_FRAGMENT_FILENAME) in Heq.
      change (s "/" ++ new_base ++ s "/" ++ TILEDB_FRAGMENT_FILENAME)
        with (SLASH :: new_base ++ SLASH :: TILEDB_FRAGMENT_FILENAME) in Heq.
      injection Heq as Heq. apply app_inv_tail in Heq. contradiction.
    + intros o' Ho'. apply Hbase in Ho' as (b & -> & Hb & Hne).
      apply good_token_inv in Hb as (_ & Hbslash & _).
      pose proof (good_token_inv _ Hnew) as (_ & Hnslash & _).
      apply orb_false_iff. split.
      * apply str_eqb_false. intros Heq. unfold fragment_file, newname in Heq.
        rewrite <- !app_assoc in Heq. apply app_inv_head in Heq.
        change (s "/" ++ new_base ++ s "/" ++ TILEDB_FRAGMENT_FILENAME)
          with (SLASH :: new_base ++ SLASH :: TILEDB_FRAGMENT_FILENAME) in Heq.
        change (s "/" ++ b) with (SLASH :: b) in Heq.
        injection Heq as Heq. apply Hbslash. rewrite <- Heq.
        apply elem_of_app. right. now left.
      * destruct (starts_with (fragment_file newname) ((array ++ s "/" ++ b) ++ [SLASH])) eqn:E;
          [|reflexivity].
        apply starts_with_true in E as (r & Heq).
        unfold fragment_file, newname in Heq.
        rewrite <- !app_assoc in Heq. apply app_inv_head in Heq.
        change (s "/" ++ new_base ++ s "/" ++ TILEDB_FRAGMENT_FILENAME)
          with (SLASH :: new_base ++ SLASH :: TILEDB_FRAGMENT_FILENAME) in Heq.
        change (s "/" ++ b ++ [SLASH] ++ r) with (SLASH :: b ++ SLASH :: r) in Heq.
        injection Heq as Heq. apply token_split_unique in Heq; [|assumption..].
        congruence.
    + etransitivity; [apply prefix_take|exact Hprefix].
Qed.

(** ** Reading a timestamp *)

Lemma digit_val_range (c : ascii) (d : Z) : digit_val c = Some d -> 0 <= d <= 9.
Proof.
  unfold digit_val. destruct (_ && _)%nat eqn:E; [|discriminate].
  intros [= <-]. apply andb_true_iff in E as [E1 E2].
  apply Nat.leb_le in E1, E2. lia.
Qed.

Lemma digit_not_special (c : ascii) (d : Z) :
  digit_val c = Some d ->
  Ascii.eqb c NUL = false /\ Ascii.eqb c USCORE = false /\ Ascii.eqb c SLASH = false /\
  Ascii.eqb c "-"%char = false /\ Ascii.eqb c "+"%char = false /\ is_space c = false.
Proof.
  intros Hd.
  assert (Hne : forall c', digit_val c' = None -> Ascii.eqb c c' = false).
  { intros c' Hc'. apply Ascii.eqb_neq. intros ->. congruence. }
  repeat split; try (apply Hne; reflexivity).
  unfold digit_val in Hd. unfold is_space.
  destruct (_ && _)%nat eqn:E; [|discriminate].
  apply andb_true_iff in E as [E1 E2]. apply Nat.leb_le in E1, E2.
  apply orb_false_iff. split; [apply Nat.eqb_neq; lia|].
  apply andb_false_iff. right. apply Nat.leb_gt. lia.
Qed.

Lemma fold_decimal_none (x : str) :
  fold_left (fun acc c => match acc, digit_val c with
                          | Some a, Some d => Some (10 * a + d)
                          | _, _ => None
                          end) x None = None.
Proof. induction x as [|c x IH]; [reflexivity|exact IH]. Qed.

Lemma fold_decimal_digits (x : str) (a v : Z) :
  fold_left (fun acc c => match acc, digit_val c with
                          | Some a, Some d => Some (10 * a + d)
                          | _, _ => None
                          end) x (Some a) = Some v ->
  0 <= a ->
  Forall (fun c => exists d, digit_val c = Some d) x /\ read_digits x a = v /\ 0 <= v.
Proof.
  revert a. induction x as [|c x IH]; intros a Hfold Ha.
  - cbn in Hfold. injection Hfold as <-. repeat split; [constructor|assumption].
  - cbn [fold_left] in Hfold. cbn [read_digits].
    destruct (digit_val c) as [d|] eqn:Ed.
    + pose proof (digit_val_range c d Ed).
      destruct (IH (10 * a + d) Hfold ltac:(lia)) as (Hall & Hread & Hv).
      repeat split; [constructor; eauto|assumption..].
    + now rewrite fold_decimal_none in Hfold.
Qed.

Lemma spec_decimal_digits (x : str) (v : Z) :
  spec_decimal x = Some v ->
  x <> [] /\ Forall (fun c => exists d, digit_val c = Some d) x /\
  read_digits x 0 = v /\ 0 <= v.
Proof.
  destruct x as [|c x]; [discriminate|]. intros Hdec.
  split; [discriminate|]. now apply (fold_decimal_digits (c :: x) 0 v).
Qed.

Lemma digits_c_str (x : str) :
  Forall (fun c => exists d, digit_val c = Some d) x -> c_str x = x.
Proof.
  induction 1 as [|c x (d & Hd) Hx IH]; [reflexivity|].
  cbn [c_str]. destruct (digit_not_special c d Hd) as (-> & _). now rewrite IH.
Qed.

Lemma digits_no_char (x : str) (c' : ascii) :
  digit_val c' = None -> Forall (fun c => exists d, digit_val c = Some d) x -> c' ∉ x.
Proof.
  intros Hc' Hall Hin. rewrite List.Forall_forall in Hall.
  apply list_elem_of_In, Hall in Hin as (d & Hd). congruence.
Qed.

(** [sscanf] reads a well-formed timestamp as the specification does. *)
Lemma sscanf_lld_decimal (x : str) (v : Z) :
  spec_decimal x = Some v -> v <= INT64_MAX -> sscanf_lld x = Some v.
Proof.
  intros Hdec Hmax. apply spec_decimal_digits in Hdec as (Hne & Hall & Hread & Hv).
  unfold sscanf_lld. rewrite digits_c_str by assumption.
  destruct x as [|c x]; [congruence|].
  inversion Hall as [|? ? (d & Hd) Hx]; subst.
  destruct (digit_not_special c d Hd) as (_ & _ & _ & Hminus & Hplus & Hspace).
  cbn [skip_spaces]. rewrite Hspace, Hminus, Hplus, Hd. f_equal.
  unfold clamp_int64, INT64_MIN, INT64_MAX in *.
  remember (read_digits (c :: x) 0) as r. lia.
Qed.

(** ** Finding the timestamp in a name *)

Lemma find_underscore_skip (pre rest : str) :
  find_underscore (pre ++ rest) (length pre) =
  option_map (fun k => (length pre + k)%nat) (find_underscore rest 0).
Proof.
  induction pre as [|c pre IH]; cbn [app length find_underscore].
  - destruct (find_underscore rest 0); reflexivity.
  - rewrite IH. destruct (find_underscore rest 0); reflexivity.
Qed.

Lemma find_underscore_first (uuid rest : str) :
  forallb uuid_char uuid = true ->
  find_underscore (uuid ++ USCORE :: rest) 0 = Some (length uuid).
Proof.
  induction uuid as [|c uuid IH]; intros Hall; cbn [app find_underscore].
  - now rewrite Ascii.eqb_refl.
  - cbn [forallb] in Hall. apply andb_true_iff in Hall as [Hc Hall].
    unfold uuid_char in Hc. rewrite !andb_true_iff, !negb_true_iff in Hc.
    destruct Hc as ((_ & _) & ->). now rewrite IH.
Qed.

Lemma split_on_app_sep (sep : ascii) (x y : str) :
  split_on sep (x ++ sep :: y) = split_on sep x ++ split_on sep y.
Proof.
  induction x as [|c x IH]; cbn [app split_on].
  - now rewrite Ascii.eqb_refl.
  - destruct (Ascii.eqb c sep); rewrite IH; [reflexivity|].
    pose proof (split_on_nonempty sep x).
    destruct (split_on sep x); [congruence|reflexivity].
Qed.

Lemma last_split_on (sep : ascii) (x t : str) :
  sep ∉ t -> List.last (split_on sep (x ++ sep :: t)) [] = t.
Proof.
  intros Ht. rewrite split_on_app_sep, (split_on_token sep t Ht). apply last_last.
Qed.

(** ** Well-formed fragment names *)

Lemma uuid_char_inv (uuid : str) (c : ascii) :
  forallb uuid_char uuid = true -> c ∈ uuid -> c <> SLASH /\ c <> NUL /\ c <> USCORE.
Proof.
  intros Hall Hin. apply list_elem_of_In in Hin.
  apply (proj1 (forallb_forall _ _) Hall) in Hin. unfold uuid_char in Hin.
  rewrite !andb_true_iff, !negb_true_iff, !Ascii.eqb_neq in Hin. tauto.
Qed.

Lemma base_good (p : fragment_parts) :
  well_formed_fragment p -> good_token (base_of p) = true.
Proof.
  intros (_ & _ & Huuid & v & Hdec & _).
  apply spec_decimal_digits in Hdec as (_ & Hdigits & _).
  assert (Hnot : forall c, digit_val c = None -> c <> USCORE ->
                           (forall u, u ∈ fp_uuid p -> u <> c) -> c ∉ base_of p).
  { intros c Hc Hu Huu. unfold base_of. change (s "__") with [USCORE; USCORE].
    change (s "_") with [USCORE]. cbn [app].
    rewrite !elem_of_cons, elem_of_app, elem_of_cons.
    intros [H|[H|[H|[H|H]]]]; try congruence.
    - now apply (Huu c).
    - now apply (digits_no_char _ c Hc Hdigits). }
  apply good_token_intro.
  - discriminate.
  - apply Hnot; [reflexivity|discriminate|]. intros u Hu. now apply (uuid_char_inv _ u Huuid).
  - apply Hnot; [reflexivity|discriminate|]. intros u Hu. now apply (uuid_char_inv _ u Huuid).
  - discriminate.
  - discriminate.
Qed.

Lemma fragment_path_shape (p : fragment_parts) :
  fragment_path p = fp_array p ++ SLASH :: base_of p.
Proof. reflexivity. Qed.

Lemma fragment_path_canonical (p : fragment_parts) :
  well_formed_fragment p -> canonical (fragment_path p).
Proof.
  intros Hwf. rewrite fragment_path_shape.
  pose proof Hwf as (Harr & Hroot & _).
  apply canonical_child; [assumption..|]. now apply base_good.
Qed.

Lemma spec_timestamp_well_formed (p : fragment_parts) (v : Z) :
  well_formed_fragment p -> spec_decimal (fp_timestamp p) = Some v ->
  spec_timestamp (fragment_path p) = Some v.
Proof.
  intros Hwf Hdec. pose proof (base_good p Hwf) as Hbase.
  apply good_token_inv in Hbase as (_ & Hslash & _).
  unfold spec_timestamp, spec_last_field, spec_basename.
  rewrite fragment_path_shape, last_split_on by assumption.
  unfold base_of. change (s "_" ++ fp_timestamp p) with (USCORE :: fp_timestamp p).
  rewrite app_assoc, last_split_on; [exact Hdec|].
  apply spec_decimal_digits in Hdec as (_ & Hdigits & _).
  now apply digits_no_char.
Qed.

(** On a well-formed name the loop body of [sort_fragment_names] finds
    the timestamp the specification names. *)
Lemma timestamps_loop_well_formed (current home : str) (parts : list fragment_parts) (i t : Z) :
  Forall well_formed_fragment parts ->
  timestamps_loop current home (map fragment_path parts) i t =
    Ret (timestamp_pairs (map fragment_path parts) i).
Proof.
  intros Hall. revert i t. induction Hall as [|p parts Hwf Hparts IH]; intros i t; [reflexivity|].
  cbn [map timestamps_loop timestamp_pairs].
  pose proof (base_good p Hwf) as Hbase.
  pose proof (good_token_inv _ Hbase) as (Hne & Hslash & _).
  pose proof (fragment_path_canonical p Hwf) as Hcan.
  destruct Hwf as (Harr & Hroot & Huuid & v & Hdec & Hmax).
  assert (Hwf : well_formed_fragment p) by (repeat split; eauto).
  rewrite (spec_timestamp_well_formed p v Hwf Hdec). cbn [default].
  rewrite fragment_path_shape in Hcan |- *.
  rewrite (parent_dir_child current home (fp_array p) (base_of p) Hcan Hne Hslash).
  cbn [bind].
  assert (Hlen : (length (fp_array p ++ SLASH :: base_of p) <? length (fp_array p) + 1)%nat = false).
  { apply Nat.ltb_ge. rewrite length_app. cbn [length]. lia. }
  rewrite Hlen.
  assert (Hstrip : substr_from (fp_array p ++ SLASH :: base_of p) (length (fp_array p) + 1) =
                   base_of p).
  { unfold substr_from. rewrite (cons_middle SLASH), app_assoc.
    replace (length (fp_array p) + 1)%nat with (length (fp_array p ++ [SLASH]))
      by (rewrite length_app; reflexivity).
    apply drop_app_length. }
  rewrite Hstrip.
  assert (Hprefix : starts_with (base_of p) (s "__") = true).
  { unfold starts_with, base_of. change (s "__") with [USCORE; USCORE]. cbn [app length take].
    rewrite take_0. reflexivity. }
  rewrite Hprefix. cbn [assert bind].
  assert (Hfind : find_underscore (base_of p) 2 = Some (2 + length (fp_uuid p))%nat).
  { unfold base_of. change (s "_" ++ fp_timestamp p) with (USCORE :: fp_timestamp p).
    rewrite (find_underscore_skip (s "__")), find_underscore_first by assumption.
    reflexivity. }
  rewrite Hfind.
  assert (Htstr : substr (base_of p) (2 + length (fp_uuid p) + 1)
                    (length (base_of p) - (2 + length (fp_uuid p))) = fp_timestamp p).
  { unfold substr, base_of.
    change (s "_" ++ fp_timestamp p) with ([USCORE] ++ fp_timestamp p).
    change (s "__") with [USCORE; USCORE].
    rewrite !app_assoc.
    replace (2 + length (fp_uuid p) + 1)%nat
      with (length (([USCORE; USCORE] ++ fp_uuid p) ++ [USCORE]))
      by (rewrite !length_app; cbn [length]; lia).
    rewrite drop_app_length. apply take_ge. rewrite !length_app. cbn [length]. lia. }
  rewrite Htstr, (sscanf_lld_decimal _ v Hdec Hmax).
  rewrite IH. reflexivity.
Qed.

(** ** Sorting the pairs *)

Lemma pair_le_total (p q : Z * Z) : pair_ltb p q = true -> pair_le p q.
Proof. destruct p, q. unfold pair_le, pair_ltb. cbn. lia. Qed.

Lemma pair_le_trans (p q r : Z * Z) : pair_le p q -> pair_le q r -> pair_le p r.
Proof. destruct p, q, r. unfold pair_le, pair_ltb. cbn. lia. Qed.

Lemma pair_le_antisym (p q : Z * Z) : pair_le p q -> pair_le q p -> p = q.
Proof.
  destruct p as [p1 p2], q as [q1 q2]. unfold pair_le, pair_ltb. cbn. intros H1 H2.
  f_equal; lia.
Qed.

Lemma sort_insert_perm (p : Z * Z) (l : list (Z * Z)) : Permutation (sort_insert p l) (p :: l).
Proof.
  induction l as [|q l IH]; cbn [sort_insert]; [reflexivity|].
  destruct (pair_ltb q p); [|reflexivity].
  rewrite IH. apply perm_swap.
Qed.

Lemma std_sort_perm (l : list (Z * Z)) : Permutation (std_sort l) l.
Proof.
  induction l as [|p l IH]; cbn [std_sort]; [reflexivity|].
  rewrite sort_insert_perm. now constructor.
Qed.

Lemma sort_insert_sorted (p : Z * Z) (l : list (Z * Z)) :
  StronglySorted pair_le l -> StronglySorted pair_le (sort_insert p l).
Proof.
  induction 1 as [|q l Hsorted IH Hq]; cbn [sort_insert]; [repeat constructor|].
  destruct (pair_ltb q p) eqn:E.
  - constructor; [exact IH|].
    apply List.Forall_forall. intros x Hx.
    apply (Permutation_in _ (sort_insert_perm p l)) in Hx as [<-|Hx].
    + now apply pair_le_total.
    + rewrite List.Forall_forall in Hq. now apply Hq.
  - constructor; [now constructor|]. constructor; [exact E|].
    eapply Forall_impl; [exact Hq|]. intros x Hx. now apply (pair_le_trans p q x).
Qed.

Lemma std_sort_sorted (l : list (Z * Z)) : StronglySorted pair_le (std_sort l).
Proof.
  induction l as [|p l IH]; cbn [std_sort]; [constructor|]. now apply sort_insert_sorted.
Qed.

(** What a sort returns does not depend on how it sorts: the range has
    one ascending arrangement. *)
Lemma sorted_arrangement_unique (l1 l2 : list (Z * Z)) :
  Permutation l1 l2 -> StronglySorted pair_le l1 -> StronglySorted pair_le l2 -> l1 = l2.
Proof.
  revert l2. induction l1 as [|a l1 IH]; intros l2 Hperm H1 H2.
  - now apply Permutation_nil in Hperm.
  - destruct l2 as [|b l2]; [now apply Permutation_sym, Permutation_nil in Hperm|].
    apply StronglySorted_inv in H1 as [H1 Ha], H2 as [H2 Hb].
    rewrite List.Forall_forall in Ha, Hb.
    assert (Hab : a = b).
    { assert (Hina : In a (b :: l2)) by (apply (Permutation_in _ Hperm); now left).
      assert (Hinb : In b (a :: l1)) by (apply (Permutation_in _ (Permutation_sym Hperm)); now left).
      destruct Hina as [->|Hina]; [reflexivity|].
      destruct Hinb as [->|Hinb]; [reflexivity|].
      apply pair_le_antisym; [now apply Ha|now apply Hb]. }
    subst b. f_equal. apply IH; [|assumption..].
    now apply Permutation_cons_inv in Hperm.
Qed.

Lemma timestamp_pairs_indices (names : list str) (i : nat) :
  map (fun p : Z * Z => Z.to_nat p.2) (timestamp_pairs names (Z.of_nat i)) = seq i (length names).
Proof.
  revert i. induction names as [|name names IH]; intros i; [reflexivity|].
  cbn [timestamp_pairs map length seq]. f_equal; [cbn; lia|].
  replace (Z.of_nat i + 1) with (Z.of_nat (S i)) by lia. apply IH.
Qed.

Lemma timestamp_pairs_in (names : list str) (i : nat) (p : Z * Z) :
  In p (timestamp_pairs names (Z.of_nat i)) ->
  exists k, (k < length names)%nat /\ p.2 = Z.of_nat (i + k) /\
            p.1 = default 0 (spec_timestamp (nth k names [])).
Proof.
  revert i. induction names as [|name names IH]; intros i; [intros []|].
  cbn [timestamp_pairs]. intros [<-|Hin].
  - exists O. cbn. split; [lia|]. split; [f_equal; lia|reflexivity].
  - replace (Z.of_nat i + 1) with (Z.of_nat (S i)) in Hin by lia.
    apply IH in Hin as (k & Hk & H2 & H1). exists (S k). cbn [length nth].
    split; [lia|]. split; [rewrite H2; f_equal; lia|exact H1].
Qed.

Lemma sorted_pairs_in_time (names : list str) (l : list (Z * Z)) :
  (forall p, In p l ->
     0 <= p.2 /\ spec_timestamp (nth (Z.to_nat p.2) names []) = Some p.1) ->
  List.NoDup (map (fun p : Z * Z => Z.to_nat p.2) l) ->
  StronglySorted pair_le l ->
  StronglySorted (before_in_time names) (map (fun p : Z * Z => Z.to_nat p.2) l).
Proof.
  intros Hgood Hnodup Hsorted. induction Hsorted as [|a l Hsorted IH Ha]; [constructor|].
  cbn [map] in Hnodup |- *. apply List.NoDup_cons_iff in Hnodup as [Hnotin Hnodup].
  constructor.
  - apply IH; [|assumption]. intros p Hp. apply Hgood. now right.
  - apply List.Forall_forall. intros j Hj. apply in_map_iff in Hj as (q & <- & Hq).
    destruct (Hgood a ltac:(now left)) as (Ha0 & Hta).
    destruct (Hgood q ltac:(now right)) as (Hq0 & Htq).
    exists a.1, q.1. split; [exact Hta|]. split; [exact Htq|].
    rewrite List.Forall_forall in Ha. specialize (Ha q Hq).
    assert (Hne : Z.to_nat a.2 <> Z.to_nat q.2).
    { intros Heq. apply Hnotin. rewrite Heq. apply in_map_iff. now exists q. }
    destruct a as [a1 a2], q as [q1 q2]. unfold pair_le, pair_ltb in Ha. cbn in *. lia.
Qed.

(** C4: for every list of fragment directories of the form
    [<array>/__<uuid>_<timestamp>], [sort_fragment_names] returns the
    names rearranged by a permutation of their positions that is in
    ascending order of the timestamp, ties in ascending order of the
    original index; the timestamp is the one the specification names,
    the last underscore-separated field of the basename read as a
    decimal integer. *)
Theorem sort_fragment_names_by_timestamp
  (current home : str) (t_uninit : Z) (parts : list fragment_parts) :
  let names := map fragment_path parts in
  Forall well_formed_fragment parts ->
  exists order : list nat,
    sort_fragment_names current home t_uninit names =
      Ret (map (fun i => nth i names []) order) /\
    Permutation order (seq 0 (length names)) /\
    StronglySorted (before_in_time names) order.
Proof.
  intros names Hwf.
  set (sorted := std_sort (timestamp_pairs names 0)).
  exists (map (fun p : Z * Z => Z.to_nat p.2) sorted).
  assert (Hperm : Permutation (map (fun p : Z * Z => Z.to_nat p.2) sorted)
                    (seq 0 (length names))).
  { rewrite <- (timestamp_pairs_indices names 0). apply Permutation_map, std_sort_perm. }
  split; [|split].
  - unfold sort_fragment_names. subst names.
    rewrite timestamps_loop_well_formed by assumption. cbn [bind].
    now rewrite map_map.
  - exact Hperm.
  - apply sorted_pairs_in_time; [| |apply std_sort_sorted].
    + intros p Hp. apply (Permutation_in _ (std_sort_perm _)) in Hp.
      apply (timestamp_pairs_in names 0) in Hp as (k & Hk & H2 & H1).
      cbn [Nat.add] in H2. rewrite H2, Nat2Z.id. split; [lia|].
      rewrite H1. subst names. rewrite length_map in Hk.
      destruct (nth_error parts k) as [q|] eqn:Eq; [|apply nth_error_None in Eq; lia].
      assert (Hq : well_formed_fragment q).
      { rewrite List.Forall_forall in Hwf. eapply Hwf, nth_error_In, Eq. }
      rewrite (nth_indep _ [] (fragment_path q)) by (rewrite length_map; lia).
      rewrite (map_nth fragment_path), (nth_error_nth _ _ _ Eq).
      pose proof Hq as (_ & _ & _ & v & Hdec & _).
      now rewrite (spec_timestamp_well_formed q v Hq Hdec).
    + eapply Permutation_NoDup; [apply Permutation_sym, Hperm|apply seq_NoDup].
Qed.

(** ** Witnesses on the example states *)


Lemma ls_of_unopenable_directory_witness :
  ls example_sys (s "/nowhere") [s "keep"] [TILEDB_ARRAY] 1 =
    Ret (Ok, [s "keep"], [TILEDB_ARRAY], 0) /\
  ls_c example_sys (s "/nowhere") = Ret (Ok, 0).
Proof.
  apply (ls_of_unopenable_directory example_sys (s "/nowhere") (s "/nowhere"));
    [reflexivity|vm_compute; reflexivity].
Defined.

Lemma refcount_open_close_witness :
  exists sm1,
    open_n pthread_ok (mkStorageManager ∅) (s "/w/a") 3 = Some sm1 /\
    cnt_ <$> open_arrays_ sm1 !! s "/w/a" = Some 3 /\
    (exists sm2 w2, close_n pthread_ok sm1 example_sys (s "/w/a") 3 = Some (sm2, w2) /\
                    open_arrays_ sm2 !! s "/w/a" = None) /\
    (exists sm3 w3, close_n pthread_ok sm1 example_sys (s "/w/a") 2 = Some (sm3, w3) /\
                    cnt_ <$> open_arrays_ sm3 !! s "/w/a" = Some 1).
Proof.
  refine (proj1 (refcount_open_close (mkStorageManager ∅) example_sys (s "/w/a") 3 _ _ _)).
  - reflexivity.
  - apply lookup_empty.
  - lia.
Defined.

Lemma consolidation_publishes_before_hiding_witness :
  let new_fragment := mkFragment (s "/w/a" ++ s "/" ++ s "__u3_3") (s "/w/a") in
  let old_fragment_names := map (fun b => s "/w/a" ++ s "/" ++ b) [s "__u1_2"; s "__u2_1"] in
  exists st tr,
    consolidation_finalize example_sys 0 new_fragment old_fragment_names =
      Ret (st, replay tr example_sys) /\
    (forall pre post o,
        tr = pre ++ EvUnlink (fragment_file o) :: post ->
        EvCreat (fragment_file (fragment_name new_fragment)) ∈ pre) /\
    (forall pre post d o,
        tr = pre ++ EvDeleteDir d :: post ->
        o ∈ old_fragment_names ->
        EvUnlink (fragment_file o) ∈ pre) /\
    (forall k o,
        o ∈ old_fragment_names ->
        is_file (replay (take k tr) example_sys) (fragment_file o) = false ->
        is_file (replay (take k tr) example_sys)
          (fragment_file (fragment_name new_fragment)) = true).
Proof.
  apply (consolidation_publishes_before_hiding example_sys 0 (s "/w/a") (s "__u3_3")
           [s "__u1_2"; s "__u2_1"]).
  - exact (proj2 (proj2 canonical_example_paths)).
  - discriminate.
  - reflexivity.
  - reflexivity.
  - rewrite !elem_of_cons, elem_of_nil. intros [H|[H|[]]]; discriminate.
  - intros o. cbn [map]. rewrite !elem_of_cons, elem_of_nil.
    intros [->|[->|[]]]; vm_compute; reflexivity.
  - vm_compute. reflexivity.
Defined.

Lemma example_parts_well_formed : Forall well_formed_fragment example_parts.
Proof.
  assert (H : forall u t v,
             forallb uuid_char u = true -> spec_decimal t = Some v -> v <= INT64_MAX ->
             well_formed_fragment (mkParts (s "/w/a") u t)).
  { intros u t v Hu Ht Hv. split; [exact (proj2 (proj2 canonical_example_paths))|].
    split; [discriminate|]. split; [exact Hu|]. now exists v. }
  unfold example_parts.
  apply List.Forall_cons; [apply (H _ _ 5); [reflexivity|reflexivity|unfold INT64_MAX; lia]|].
  apply List.Forall_cons; [apply (H _ _ 1); [reflexivity|reflexivity|unfold INT64_MAX; lia]|].
  apply List.Forall_cons; [apply (H _ _ 3); [reflexivity|reflexivity|unfold INT64_MAX; lia]|].
  apply List.Forall_cons; [apply (H _ _ 2); [reflexivity|reflexivity|unfold INT64_MAX; lia]|].
  apply List.Forall_cons; [apply (H _ _ 4); [reflexivity|reflexivity|unfold INT64_MAX; lia]|].
  apply List.Forall_nil.
Defined.

Lemma sort_fragment_names_by_timestamp_witness :
  let names := map fragment_path example_parts in
  exists order : list nat,
    sort_fragment_names (s "/home/u") (s "/home/u") 0 names =
      Ret (map (fun i => nth i names []) order) /\
    Permutation order (seq 0 (length names)) /\
    StronglySorted (before_in_time names) order.
Proof.
  exact (sort_fragment_names_by_timestamp (s "/home/u") (s "/home/u") 0 example_parts
           example_parts_well_formed).
Defined.

(** Fragments created with the timestamps 5, 1, 3, 2, 4 come out in the
    order 1, 2, 3, 4, 5, also through [array_get_fragment_names] on a
    directory that holds them. *)
Example sort_fragment_names_example :
  sort_fragment_names (s "/home/u") (s "/home/u") 0 (map fragment_path example_parts) =
    Ret [s "/w/a/__0a2_1"; s "/w/a/__0a4_2"; s "/w/a/__0a3_3"; s "/w/a/__0a5_4";
         s "/w/a/__0a1_5"].
Proof. vm_compute. reflexivity. Qed.

Example array_get_fragment_names_example :
  array_get_fragment_names example_sys 0 (s "/w/a") =
    Ret [s "/w/a/__u2_1"; s "/w/a/__u1_2"].
Proof. vm_compute. reflexivity. Qed.

(** * Further properties of the code *)

(** ** Streaming inflation into a buffer of at least one chunk *)

Lemma forallb_snoc {A} (f : A -> bool) (l : list A) (x : A) :
  forallb f (l ++ [x]) = forallb f l && f x.
Proof. rewrite forallb_app. cbn. now rewrite andb_true_r. Qed.

Lemma gunzip_loop_safe (chunk_size : Z) :
  0 < chunk_size ->
  forall fuel pending st,
    (length pending < fuel)%nat ->
    gz_out_size st = Z.of_nat (length (gz_out st)) ->
    chunk_size <= gz_avail_out st ->
    gz_out_size st <= gz_avail_out st ->
    2 * (gz_out_size st + Z.of_nat (length pending)) <= SIZE_MAX + 1 ->
    forallb within_allocation (gz_writes st) = true ->
    exists st', gunzip_loop fuel chunk_size pending st = Some st' /\
      gz_out st' = gz_out st ++ pending /\
      gz_out_size st' = Z.of_nat (length (gz_out st')) /\
      gz_out_size st' <= gz_avail_out st' /\
      forallb within_allocation (gz_writes st') = true.
Proof.
  intros Hchunk. induction fuel as [|fuel IH]; intros pending st Hfuel Hsize Hcap Hfit Hmax Hwr;
    [lia|].
  cbn [gunzip_loop]. unfold inflate.
  set (produced := take (Z.to_nat chunk_size) pending).
  set (rest := drop (Z.to_nat chunk_size) pending).
  assert (Hsplit : pending = produced ++ rest) by (symmetry; apply take_drop).
  assert (Hlen : length pending = (length produced + length rest)%nat)
    by (rewrite Hsplit at 1; apply length_app).
  assert (Hprod : Z.of_nat (length produced) <= chunk_size)
    by (unfold produced; rewrite length_take; lia).
  replace (chunk_size - (chunk_size - Z.of_nat (length produced)))
    with (Z.of_nat (length produced)) by lia.
  set (avail' := if gz_out_size st + Z.of_nat (length produced) >? gz_avail_out st
                 then expand_buffer (gz_avail_out st) else gz_avail_out st).
  assert (Havail : gz_avail_out st <= avail' /\
                   gz_out_size st + Z.of_nat (length produced) <= avail').
  { unfold avail'. destruct (Z.gtb_spec (gz_out_size st + Z.of_nat (length produced))
                                         (gz_avail_out st)) as [Hgt|Hle]; [|lia].
    unfold expand_buffer. rewrite Z.mod_small; [lia|].
    split; [lia|]. unfold SIZE_MAX in *. lia. }
  set (st1 := mkGunzip (gz_out st ++ produced) avail'
                (gz_out_size st + Z.of_nat (length produced))
                (gz_writes st ++ [mkWrite (gz_out_size st) (Z.of_nat (length produced)) avail'])).
  assert (Hst1 : gz_out_size st1 = Z.of_nat (length (gz_out st1)) /\
                 chunk_size <= gz_avail_out st1 /\
                 gz_out_size st1 <= gz_avail_out st1 /\
                 forallb within_allocation (gz_writes st1) = true).
  { unfold st1. cbn. rewrite length_app, forallb_snoc, Hwr. unfold within_allocation. cbn.
    repeat split; try lia; try (apply Z.leb_le; lia). }
  destruct (Z.eqb_spec (Z.of_nat (length produced)) 0) as [Hz|Hnz].
  - (* nothing was produced: the stream is at its end *)
    cbn [negb]. assert (produced = []) by (apply length_zero_iff_nil; lia).
    assert (Hsmall : (length pending < Z.to_nat chunk_size)%nat).
    { unfold produced in Hz. rewrite length_take in Hz. lia. }
    assert (pending = []).
    { apply length_zero_iff_nil. unfold produced in Hz. rewrite length_take in Hz. lia. }
    destruct (Z.eqb_spec (chunk_size - Z.of_nat (length produced)) 0); [lia|].
    exists st. replace pending with (@nil ascii) by congruence.
    rewrite app_nil_r. repeat split; assumption.
  - cbn [negb]. fold avail'. fold st1.
    destruct Hst1 as (H1 & H2 & H3 & H4).
    destruct (Z.eqb_spec (chunk_size - Z.of_nat (length produced)) 0) as [Hfull|Hpart].
    + destruct (IH rest st1) as (st' & Hrun & Hout & Hsz & Hfit' & Hwr').
      * lia.
      * exact H1.
      * exact H2.
      * exact H3.
      * unfold st1 at 1. cbn. lia.
      * exact H4.
      * exists st'. split; [exact Hrun|]. split; [|repeat split; assumption].
        rewrite Hout. unfold st1. cbn. now rewrite <- app_assoc, Hsplit.
    + assert (Hrest : rest = []).
      { apply length_zero_iff_nil. unfold rest. rewrite length_drop.
        unfold produced in Hpart. rewrite length_take in Hpart. lia. }
      exists st1. split; [reflexivity|]. split; [|repeat split; assumption].
      rewrite Hrest, app_nil_r in Hsplit. unfold st1. cbn. now rewrite <- Hsplit.
Qed.

(** X1: when the output buffer starts with at least the chunk size
    (and twice the payload fits in [size_t]),
    [gunzip_unknown_output_size] ends, [out] holds exactly the payload,
    [out_size] is its length, and every [memcpy] stays within the size
    the buffer is allocated with at that moment. *)
Theorem gunzip_streaming_within_allocation (chunk_size : Z) (payload : str) (avail_out : Z) :
  0 < chunk_size -> chunk_size <= avail_out ->
  2 * Z.of_nat (length payload) <= SIZE_MAX + 1 ->
  exists st, gunzip_unknown_output_size chunk_size payload avail_out = Some st /\
    gz_out st = payload /\
    gz_out_size st = Z.of_nat (length payload) /\
    gz_out_size st <= gz_avail_out st /\
    forallb within_allocation (gz_writes st) = true.
Proof.
  intros Hchunk Hcap Hmax. unfold gunzip_unknown_output_size.
  destruct (gunzip_loop_safe chunk_size Hchunk (S (length payload)) payload
              (mkGunzip [] avail_out 0 [])) as (st & Hrun & Hout & Hsz & Hfit & Hwr);
    cbn; try lia; try reflexivity.
  cbn in Hout. exists st. rewrite Hsz in *. rewrite Hout in *.
  repeat split; try assumption; try reflexivity.
Qed.

Lemma gunzip_streaming_within_allocation_witness :
  exists st, gunzip_unknown_output_size 4 (s "abcdefghij") 4 = Some st /\
    gz_out st = s "abcdefghij" /\
    gz_out_size st = Z.of_nat (length (s "abcdefghij")) /\
    gz_out_size st <= gz_avail_out st /\
    forallb within_allocation (gz_writes st) = true.
Proof.
  apply (gunzip_streaming_within_allocation 4 (s "abcdefghij") 4); [lia|lia|].
  vm_compute. discriminate.
Defined.

(** ** Array reads *)

Lemma read_lookup {T} (a : list T) (i : nat) (x : T) :
  a !! i = Some x -> read a i = Ret x.
Proof. unfold read. now intros ->. Qed.

Lemma read_in_bounds {T} (a : list T) (i : nat) :
  (i < length a)%nat -> exists x, a !! i = Some x /\ read a i = Ret x.
Proof.
  intros Hi. destruct (lookup_lt_is_Some_2 a i Hi) as (x & Hx).
  exists x. split; [exact Hx|now apply read_lookup].
Qed.

(** ** Cells and ranges *)

Lemma cell_in_range_loop_iff (cell range : list Z) (n : nat) :
  forall i,
    (i + n <= length cell)%nat -> (2 * (i + n) <= length range)%nat ->
    exists b, cell_in_range_loop cell range i n = Ret b /\
      (b = true <->
       forall k c lo hi, (i <= k < i + n)%nat ->
         cell !! k = Some c -> range !! (2 * k)%nat = Some lo ->
         range !! (2 * k + 1)%nat = Some hi -> lo <= c <= hi).
Proof.
  induction n as [|n IH]; intros i Hc Hr.
  - exists true. split; [reflexivity|]. split; [intros _ k c lo hi Hk; lia|reflexivity].
  - cbn [cell_in_range_loop].
    destruct (read_in_bounds cell i) as (c & Hc0 & ->); [lia|].
    destruct (read_in_bounds range (2 * i)) as (lo & Hlo & ->); [lia|].
    destruct (read_in_bounds range (2 * i + 1)) as (hi & Hhi & Hrd); [lia|].
    cbn [bind elem_lt elem_gt int_ops].
    destruct (Z.ltb_spec c lo) as [Hlt|Hge].
    { exists false. split; [reflexivity|]. split; [discriminate|].
      intros Hall. specialize (Hall i c lo hi ltac:(lia) Hc0 Hlo Hhi). lia. }
    rewrite Hrd. cbn [bind].
    destruct (Z.gtb_spec c hi) as [Hgt|Hle].
    { exists false. split; [reflexivity|]. split; [discriminate|].
      intros Hall. specialize (Hall i c lo hi ltac:(lia) Hc0 Hlo Hhi). lia. }
    destruct (IH (S i)) as (b & Hrun & Hb); [lia|lia|].
    exists b. split; [exact Hrun|]. rewrite Hb. split.
    + intros Hall k c' lo' hi' Hk Hck Hlok Hhik.
      destruct (decide (k = i)) as [->|Hne].
      * assert (c' = c) by congruence. assert (lo' = lo) by congruence.
        assert (hi' = hi) by congruence. lia.
      * apply (Hall k c' lo' hi'); [lia|assumption..].
    + intros Hall k c' lo' hi' Hk. apply Hall. lia.
Qed.

(** X4: on integer coordinates, with a cell of at least [dim_num]
    coordinates and a range of at least [2 * dim_num] bounds,
    [cell_in_range] returns, and returns true exactly when every
    coordinate lies between the low and the high bound of its dimension,
    both included. *)
Theorem cell_in_range_iff (cell range : list Z) (dim_num : Z) :
  (Z.to_nat dim_num <= length cell)%nat ->
  (2 * Z.to_nat dim_num <= length range)%nat ->
  exists b, cell_in_range cell range dim_num = Ret b /\
    (b = true <->
     forall i c lo hi, (i < Z.to_nat dim_num)%nat ->
       cell !! i = Some c -> range !! (2 * i)%nat = Some lo ->
       range !! (2 * i + 1)%nat = Some hi -> lo <= c <= hi).
Proof.
  intros Hc Hr. unfold cell_in_range.
  destruct (cell_in_range_loop_iff cell range (Z.to_nat dim_num) 0%nat) as (b & Hrun & Hb);
    [lia|lia|].
  exists b. split; [exact Hrun|]. rewrite Hb. split.
  - intros Hall i c lo hi Hi. apply Hall. lia.
  - intros Hall k c lo hi Hk. apply Hall. lia.
Qed.

Lemma cell_in_range_iff_witness :
  exists b, cell_in_range [3; 7] [1; 5; 7; 9] 2 = Ret b /\
    (b = true <->
     forall i c lo hi, (i < Z.to_nat 2)%nat ->
       [3; 7] !! i = Some c -> [1; 5; 7; 9] !! (2 * i)%nat = Some lo ->
       [1; 5; 7; 9] !! (2 * i + 1)%nat = Some hi -> lo <= c <= hi).
Proof.
  apply (cell_in_range_iff [3; 7] [1; 5; 7; 9] 2); cbn; lia.
Defined.

(** ** Bounding rectangles *)

Lemma expand_mbr_dim_spec (mbr coords : list Z) (i : nat) (lo hi c : Z) :
  mbr !! (2 * i)%nat = Some lo -> mbr !! (2 * i + 1)%nat = Some hi ->
  coords !! i = Some c ->
  expand_mbr_dim mbr coords i =
    Ret (<[(2 * i + 1)%nat := Z.max hi c]> (<[(2 * i)%nat := Z.min lo c]> mbr)).
Proof.
  intros Hlo Hhi Hc. unfold expand_mbr_dim.
  rewrite (read_lookup _ _ _ Hlo), (read_lookup _ _ _ Hc). cbn [bind elem_lt elem_gt int_ops].
  assert (Hlo' : (if lo >? c then <[(2 * i)%nat := c]> mbr else mbr) =
                 <[(2 * i)%nat := Z.min lo c]> mbr).
  { destruct (Z.gtb_spec lo c).
    - now rewrite Z.min_r by lia.
    - rewrite Z.min_l by lia. symmetry. now apply list_insert_id. }
  rewrite Hlo'.
  assert (Hhi' : <[(2 * i)%nat := Z.min lo c]> mbr !! (2 * i + 1)%nat = Some hi).
  { rewrite list_lookup_insert_ne by lia. exact Hhi. }
  rewrite (read_lookup _ _ _ Hhi'). cbn [bind]. f_equal.
  destruct (Z.ltb_spec hi c).
  - now rewrite Z.max_r by lia.
  - rewrite Z.max_l by lia. symmetry. now apply list_insert_id.
Qed.

Lemma expand_mbr_loop_spec (coords : list Z) (n : nat) :
  forall i mbr,
    (i + n <= length coords)%nat -> (2 * (i + n) <= length mbr)%nat ->
    exists mbr', expand_mbr_loop mbr coords i n = Ret mbr' /\
      length mbr' = length mbr /\
      (forall j, (j < 2 * i \/ 2 * (i + n) <= j)%nat -> mbr' !! j = mbr !! j) /\
      (forall k lo hi c, (i <= k < i + n)%nat ->
         mbr !! (2 * k)%nat = Some lo -> mbr !! (2 * k + 1)%nat = Some hi ->
         coords !! k = Some c ->
         mbr' !! (2 * k)%nat = Some (Z.min lo c) /\
         mbr' !! (2 * k + 1)%nat = Some (Z.max hi c)).
Proof.
  induction n as [|n IH]; intros i mbr Hc Hm.
  - exists mbr. repeat split; try reflexivity; intros; lia.
  - cbn [expand_mbr_loop].
    destruct (lookup_lt_is_Some_2 mbr (2 * i)) as (lo & Hlo); [lia|].
    destruct (lookup_lt_is_Some_2 mbr (2 * i + 1)) as (hi & Hhi); [lia|].
    destruct (lookup_lt_is_Some_2 coords i) as (c & Hci); [lia|].
    rewrite (expand_mbr_dim_spec mbr coords i lo hi c Hlo Hhi Hci). cbn [bind].
    set (mbr1 := <[(2 * i + 1)%nat := Z.max hi c]> (<[(2 * i)%nat := Z.min lo c]> mbr)).
    assert (Hlen1 : length mbr1 = length mbr) by (unfold mbr1; now rewrite !length_insert).
    assert (Hother : forall j, j <> (2 * i)%nat -> j <> (2 * i + 1)%nat -> mbr1 !! j = mbr !! j).
    { intros j H1 H2. unfold mbr1. now rewrite !list_lookup_insert_ne by lia. }
    assert (Hlo1 : mbr1 !! (2 * i)%nat = Some (Z.min lo c)).
    { unfold mbr1. rewrite list_lookup_insert_ne by lia.
      apply list_lookup_insert_eq. lia. }
    assert (Hhi1 : mbr1 !! (2 * i + 1)%nat = Some (Z.max hi c)).
    { unfold mbr1. apply list_lookup_insert_eq. rewrite length_insert. lia. }
    destruct (IH (S i) mbr1) as (mbr' & Hrun & Hlen & Hout & Hin); [lia|lia|].
    exists mbr'. split; [exact Hrun|]. split; [lia|]. split.
    + intros j Hj. rewrite Hout by lia. apply Hother; lia.
    + intros k lo' hi' c' Hk Hlok Hhik Hck.
      destruct (decide (k = i)) as [->|Hne].
      * assert (lo' = lo) by congruence. assert (hi' = hi) by congruence.
        assert (c' = c) by congruence. subst.
        rewrite !Hout by lia. now split.
      * apply Hin; [lia| | |exact Hck].
        -- rewrite Hother by lia. exact Hlok.
        -- rewrite Hother by lia. exact Hhik.
Qed.

(** ** Bounding rectangles: the laws *)

(** X5: [expand_mbr] on integer coordinates returns, keeps the length of
    the rectangle and its entries past [2 * dim_num], and leaves in each
    dimension the smaller of the low bound and the coordinate and the
    larger of the high bound and the coordinate. *)
Theorem expand_mbr_bounds (mbr coords : list Z) (dim_num : Z) :
  (Z.to_nat dim_num <= length coords)%nat ->
  (2 * Z.to_nat dim_num <= length mbr)%nat ->
  exists mbr', expand_mbr mbr coords dim_num = Ret mbr' /\
    length mbr' = length mbr /\
    (forall j, (2 * Z.to_nat dim_num <= j)%nat -> mbr' !! j = mbr !! j) /\
    (forall i lo hi c, (i < Z.to_nat dim_num)%nat ->
       mbr !! (2 * i)%nat = Some lo -> mbr !! (2 * i + 1)%nat = Some hi ->
       coords !! i = Some c ->
       mbr' !! (2 * i)%nat = Some (Z.min lo c) /\
       mbr' !! (2 * i + 1)%nat = Some (Z.max hi c)).
Proof.
  intros Hc Hm. unfold expand_mbr.
  destruct (expand_mbr_loop_spec coords (Z.to_nat dim_num) 0%nat mbr)
    as (mbr' & Hrun & Hlen & Hout & Hin); [lia|lia|].
  exists mbr'. split; [exact Hrun|]. split; [exact Hlen|]. split.
  - intros j Hj. apply Hout. lia.
  - intros i lo hi c Hi. apply Hin. lia.
Qed.

Lemma expand_mbr_bounds_witness :
  exists mbr', expand_mbr [2; 4; 10; 20] [5; 7] 2 = Ret mbr' /\
    length mbr' = length [2; 4; 10; 20] /\
    (forall j, (2 * Z.to_nat 2 <= j)%nat -> mbr' !! j = [2; 4; 10; 20] !! j) /\
    (forall i lo hi c, (i < Z.to_nat 2)%nat ->
       [2; 4; 10; 20] !! (2 * i)%nat = Some lo -> [2; 4; 10; 20] !! (2 * i + 1)%nat = Some hi ->
       [5; 7] !! i = Some c ->
       mbr' !! (2 * i)%nat = Some (Z.min lo c) /\
       mbr' !! (2 * i + 1)%nat = Some (Z.max hi c)).
Proof.
  apply (expand_mbr_bounds [2; 4; 10; 20] [5; 7] 2); cbn; lia.
Defined.

Lemma half_even (k : nat) : (2 * k / 2)%nat = k.
Proof. symmetry. apply (Nat.div_unique _ _ _ 0%nat); lia. Qed.

Lemma half_odd (k : nat) : ((2 * k + 1) / 2)%nat = k.
Proof. symmetry. apply (Nat.div_unique _ _ _ 1%nat); lia. Qed.

(** Every entry of the rectangle after [expand_mbr], from the rectangle
    before it. *)
Lemma expand_mbr_lookup (mbr coords mbr' : list Z) (dim_num : Z) :
  (Z.to_nat dim_num <= length coords)%nat ->
  (2 * Z.to_nat dim_num <= length mbr)%nat ->
  expand_mbr mbr coords dim_num = Ret mbr' ->
  length mbr' = length mbr /\
  forall j, mbr' !! j =
    if (j <? 2 * Z.to_nat dim_num)%nat then
      match mbr !! j, coords !! (j / 2)%nat with
      | Some v, Some c => Some (if Nat.even j then Z.min v c else Z.max v c)
      | _, _ => None
      end
    else mbr !! j.
Proof.
  intros Hc Hm Hrun.
  unfold expand_mbr in Hrun.
  destruct (expand_mbr_loop_spec coords (Z.to_nat dim_num) 0%nat mbr)
    as (m & Hrun' & Hlen & Hout & Hin); [lia|lia|].
  rewrite Hrun in Hrun'. injection Hrun' as <-. split; [exact Hlen|].
  intros j. destruct (Nat.ltb_spec j (2 * Z.to_nat dim_num)) as [Hlt|Hge]; [|apply Hout; lia].
  destruct (lookup_lt_is_Some_2 coords (j / 2)) as (c & Hcj).
  { apply Nat.lt_le_trans with (Z.to_nat dim_num); [|exact Hc].
    apply Nat.Div0.div_lt_upper_bound. lia. }
  rewrite Hcj.
  destruct (Nat.even j) eqn:Hev.
  - apply Nat.even_spec in Hev as (k & ->).
    rewrite half_even in Hcj.
    destruct (lookup_lt_is_Some_2 mbr (2 * k)) as (lo & Hlo); [lia|].
    destruct (lookup_lt_is_Some_2 mbr (2 * k + 1)) as (hi & Hhi); [lia|].
    rewrite Hlo. apply (Hin k lo hi c); [lia|assumption..].
  - assert (Hodd : Nat.odd j = true) by (rewrite <- Nat.negb_even, Hev; reflexivity).
    apply Nat.odd_spec in Hodd as (k & ->).
    rewrite half_odd in Hcj.
    destruct (lookup_lt_is_Some_2 mbr (2 * k)) as (lo & Hlo); [lia|].
    destruct (lookup_lt_is_Some_2 mbr (2 * k + 1)) as (hi & Hhi); [lia|].
    rewrite Hhi. apply (Hin k lo hi c); [lia|assumption..].
Qed.

Lemma expand_mbr_runs (mbr coords : list Z) (dim_num : Z) :
  (Z.to_nat dim_num <= length coords)%nat ->
  (2 * Z.to_nat dim_num <= length mbr)%nat ->
  exists mbr', expand_mbr mbr coords dim_num = Ret mbr'.
Proof.
  intros Hc Hm. unfold expand_mbr.
  destruct (expand_mbr_loop_spec coords (Z.to_nat dim_num) 0%nat mbr) as (m & Hrun & _);
    [lia|lia|].
  now exists m.
Qed.

(** X6: on integer coordinates, expanding a rectangle by the cell [a]
    and then by the cell [b] gives the rectangle that [b] and then [a]
    give, and expanding by [a] a second time changes nothing. *)
Theorem expand_mbr_commutative_idempotent (mbr a b : list Z) (dim_num : Z) :
  (Z.to_nat dim_num <= length a)%nat ->
  (Z.to_nat dim_num <= length b)%nat ->
  (2 * Z.to_nat dim_num <= length mbr)%nat ->
  exists mbr_a mbr_b mbr_ab,
    expand_mbr mbr a dim_num = Ret mbr_a /\
    expand_mbr mbr b dim_num = Ret mbr_b /\
    expand_mbr mbr_a b dim_num = Ret mbr_ab /\
    expand_mbr mbr_b a dim_num = Ret mbr_ab /\
    expand_mbr mbr_a a dim_num = Ret mbr_a.
Proof.
  intros Ha Hb Hm.
  destruct (expand_mbr_runs mbr a dim_num Ha Hm) as (ma & Hra).
  destruct (expand_mbr_runs mbr b dim_num Hb Hm) as (mb & Hrb).
  destruct (expand_mbr_lookup _ _ _ _ Ha Hm Hra) as (Hla & Hqa).
  destruct (expand_mbr_lookup _ _ _ _ Hb Hm Hrb) as (Hlb & Hqb).
  assert (Hma : (2 * Z.to_nat dim_num <= length ma)%nat) by lia.
  assert (Hmb : (2 * Z.to_nat dim_num <= length mb)%nat) by lia.
  destruct (expand_mbr_runs ma b dim_num Hb Hma) as (mab & Hrab).
  destruct (expand_mbr_runs mb a dim_num Ha Hmb) as (mba & Hrba).
  destruct (expand_mbr_runs ma a dim_num Ha Hma) as (maa & Hraa).
  destruct (expand_mbr_lookup _ _ _ _ Hb Hma Hrab) as (Hlab & Hqab).
  destruct (expand_mbr_lookup _ _ _ _ Ha Hmb Hrba) as (Hlba & Hqba).
  destruct (expand_mbr_lookup _ _ _ _ Ha Hma Hraa) as (Hlaa & Hqaa).
  assert (Hsame : mba = mab).
  { apply list_eq. intros j. rewrite Hqba, Hqab, Hqa, Hqb.
    destruct (j <? 2 * Z.to_nat dim_num)%nat; [|reflexivity].
    destruct (mbr !! j), (a !! (j / 2)%nat), (b !! (j / 2)%nat); try reflexivity.
    destruct (Nat.even j); f_equal; lia. }
  assert (Hidem : maa = ma).
  { apply list_eq. intros j. rewrite Hqaa, Hqa.
    destruct (j <? 2 * Z.to_nat dim_num)%nat; [|reflexivity].
    destruct (mbr !! j), (a !! (j / 2)%nat); try reflexivity.
    destruct (Nat.even j); f_equal; lia. }
  subst. now exists ma, mb, mab.
Qed.

Lemma expand_mbr_commutative_idempotent_witness :
  exists mbr_a mbr_b mbr_ab,
    expand_mbr [2; 4; 10; 20] [5; 7] 2 = Ret mbr_a /\
    expand_mbr [2; 4; 10; 20] [1; 30] 2 = Ret mbr_b /\
    expand_mbr mbr_a [1; 30] 2 = Ret mbr_ab /\
    expand_mbr mbr_b [5; 7] 2 = Ret mbr_ab /\
    expand_mbr mbr_a [5; 7] 2 = Ret mbr_a.
Proof.
  apply (expand_mbr_commutative_idempotent [2; 4; 10; 20] [5; 7] [1; 30] 2); cbn; lia.
Defined.

(** ** Listing: [ls] and [ls_c] *)

Lemma classify_none (w : Sys) (filename : str) :
  classify w filename = None <->
  is_group w filename || is_metadata w filename ||
  is_array w filename || is_workspace w filename = false.
Proof.
  unfold classify.
  destruct (is_group w filename), (is_metadata w filename),
    (is_array w filename), (is_workspace w filename); cbn; split; congruence.
Qed.

Lemma ls_loop_count (w : Sys) (parent_dir_real : str) (dir_num : Z) (entries : list str) :
  forall dirs dir_types dir_i,
    0 <= dir_i <= dir_num ->
    let n := dir_i + Z.of_nat (length
        (List.filter
           (fun d_name =>
              negb (str_eqb d_name (s ".") || str_eqb d_name (s "..")) &&
              let filename := parent_dir_real ++ s "/" ++ d_name in
              (is_group w filename || is_metadata w filename ||
               is_array w filename || is_workspace w filename))
           entries)) in
    exists dirs' types' dir_i',
      ls_loop w parent_dir_real entries dirs dir_types dir_i dir_num =
        (if n <=? dir_num then Ok
         else StorageManagerError (s "Cannot list TileDB directory; Directory buffer overflow"),
         dirs', types', dir_i') /\
      (n <= dir_num -> dir_i' = n).
Proof.
  induction entries as [|d_name rest IH]; intros dirs dir_types dir_i Hi n.
  - subst n. cbn [List.filter length ls_loop].
    destruct (Z.leb_spec (dir_i + Z.of_nat 0) dir_num); [|lia].
    exists dirs, dir_types, dir_i. split; [reflexivity|lia].
  - subst n. cbn [ls_loop List.filter].
    destruct (str_eqb d_name (s ".") || str_eqb d_name (s "..")) eqn:Hdot.
    { cbn [negb andb]. apply IH. exact Hi. }
    cbn [negb andb].
    destruct (classify w (parent_dir_real ++ s "/" ++ d_name)) as [ty|] eqn:Hcl.
    + assert (Hobj : is_group w (parent_dir_real ++ s "/" ++ d_name) ||
                     is_metadata w (parent_dir_real ++ s "/" ++ d_name) ||
                     is_array w (parent_dir_real ++ s "/" ++ d_name) ||
                     is_workspace w (parent_dir_real ++ s "/" ++ d_name) = true).
      { apply not_false_iff_true. intros Hf. apply classify_none in Hf. congruence. }
      cbv zeta. rewrite Hobj. cbn [length].
      destruct (Z.eqb_spec dir_i dir_num) as [Heq|Hne].
      * destruct (Z.leb_spec (dir_i + Z.of_nat (S (length
             (List.filter
                (fun d_name =>
                   negb (str_eqb d_name (s ".") || str_eqb d_name (s "..")) &&
                   (is_group w (parent_dir_real ++ s "/" ++ d_name) ||
                    is_metadata w (parent_dir_real ++ s "/" ++ d_name) ||
                    is_array w (parent_dir_real ++ s "/" ++ d_name) ||
                    is_workspace w (parent_dir_real ++ s "/" ++ d_name)))
                rest)))) dir_num); [lia|].
        exists dirs, dir_types, dir_i. split; [reflexivity|lia].
      * destruct (IH (<[Z.to_nat dir_i := d_name]> dirs) (<[Z.to_nat dir_i := ty]> dir_types)
                    (dir_i + 1)) as (d' & t' & i' & Hrun & Hcount); [lia|].
        cbv zeta in Hrun, Hcount. exists d', t', i'.
        replace (dir_i + Z.of_nat (S _)) with
          (dir_i + 1 + Z.of_nat (length
             (List.filter
                (fun d_name =>
                   negb (str_eqb d_name (s ".") || str_eqb d_name (s "..")) &&
                   (is_group w (parent_dir_real ++ s "/" ++ d_name) ||
                    is_metadata w (parent_dir_real ++ s "/" ++ d_name) ||
                    is_array w (parent_dir_real ++ s "/" ++ d_name) ||
                    is_workspace w (parent_dir_real ++ s "/" ++ d_name)))
                rest))) by lia.
        split; [exact Hrun|exact Hcount].
    + apply classify_none in Hcl. cbv zeta. rewrite Hcl. apply IH. exact Hi.
Qed.

(** X7: [ls_c] counts what [ls] lists. When [ls_c] returns the count
    [n] for a directory, [ls] with buffers of capacity [dir_num] returns
    [Ok] with [dir_num] set to [n] if [n <= dir_num], and the buffer
    overflow error, with [dir_num] as it was, otherwise. *)
Theorem ls_lists_what_ls_c_counts
  (w : Sys) (parent_dir : str) (dirs : list str) (dir_types : list tiledb_object_t)
  (dir_num n : Z) :
  0 <= dir_num ->
  ls_c w parent_dir = Ret (Ok, n) ->
  exists dirs' types',
    ls w parent_dir dirs dir_types dir_num =
      Ret (if n <=? dir_num then (Ok, dirs', types', n)
           else (StorageManagerError
                   (s "Cannot list TileDB directory; Directory buffer overflow"),
                 dirs', types', dir_num)).
Proof.
  intros Hnum. unfold ls_c, ls.
  destruct (real_dir (sys_cwd w) (sys_home w) parent_dir) as [real|]; [|discriminate].
  cbn [bind]. destruct (sys_readdir w real) as [entries|].
  - intros [= Hn].
    destruct (ls_loop_count w real dir_num entries dirs dir_types 0 ltac:(lia))
      as (d' & t' & i' & Hrun & Hcount).
    cbv zeta in Hrun, Hcount. rewrite Z.add_0_l in Hrun, Hcount.
    assert (Hrun' : ls_loop w real entries dirs dir_types 0 dir_num =
                    (if n <=? dir_num then Ok
                     else StorageManagerError
                            (s "Cannot list TileDB directory; Directory buffer overflow"),
                     d', t', i')) by (rewrite <- Hn; exact Hrun).
    assert (Hcount' : n <= dir_num -> i' = n) by (rewrite <- Hn; exact Hcount).
    rewrite Hrun'. exists d', t'. destruct (Z.leb_spec n dir_num) as [Hle|Hgt].
    + cbn [ok]. now rewrite (Hcount' Hle).
    + reflexivity.
  - intros [= <-]. exists dirs, dir_types.
    replace (0 <=? dir_num) with true by (symmetry; apply Z.leb_le; lia). reflexivity.
Qed.

Lemma ls_lists_what_ls_c_counts_witness :
  exists dirs' types',
    ls example_sys (s "/w") [s ""; s ""] [TILEDB_GROUP; TILEDB_GROUP] 2 =
      Ret (if 1 <=? 2 then (Ok, dirs', types', 1)
           else (StorageManagerError
                   (s "Cannot list TileDB directory; Directory buffer overflow"),
                 dirs', types', 2)).
Proof.
  apply (ls_lists_what_ls_c_counts example_sys (s "/w") [s ""; s ""]
           [TILEDB_GROUP; TILEDB_GROUP] 2 1); [lia|vm_compute; reflexivity].
Defined.

Example ls_example :
  ls example_sys (s "/w") [s ""; s ""] [TILEDB_GROUP; TILEDB_GROUP] 2 =
    Ret (Ok, [s "a"; s ""], [TILEDB_ARRAY; TILEDB_GROUP], 1).
Proof. vm_compute. reflexivity. Qed.

(** ** Canonicalisation *)

(** X3: with a canonical working directory and HOME, [real_dir]
    returns for every input, and what it returns is the empty string or
    a canonical absolute path: "/" followed by components, none of them
    empty, "." or "..", separated by single slashes. *)
Theorem real_dir_canonical_or_empty (current home p : str) :
  canonical current -> canonical home ->
  exists r, real_dir current home p = Ret r /\ (r = [] \/ canonical r).
Proof.
  intros Hcur Hhome.
  destruct (real_dir_total current home p Hcur Hhome) as (r & Hr).
  exists r. split; [exact Hr|]. exact (real_dir_result current home p r Hcur Hhome Hr).
Qed.

Lemma real_dir_canonical_or_empty_witness :
  exists r, real_dir (s "/cwd") (s "/home/u") (s "~/data/../x//y/.") = Ret r /\
            (r = [] \/ canonical r).
Proof.
  apply (real_dir_canonical_or_empty (s "/cwd") (s "/home/u") (s "~/data/../x//y/.")).
  - exact (proj1 canonical_example_paths).
  - exact (proj1 (proj2 canonical_example_paths)).
Defined.

(** The empty path is canonicalised to the working directory,
    "/a//b/../c/./d" to "/a/c/d", and "/../x", which climbs above the
    root, to the empty string. *)
Example real_dir_examples :
  real_dir (s "/cwd") (s "/home/u") (s "") = Ret (s "/cwd") /\
  real_dir (s "/cwd") (s "/home/u") (s "/a//b/../c/./d") = Ret (s "/a/c/d") /\
  real_dir (s "/cwd") (s "/home/u") (s "/../x") = Ret (s "").
Proof. repeat split; reflexivity. Qed.

(** ** Prefixes *)

Lemma starts_with_prefix (v p : str) :
  starts_with v p = true <-> exists r, v = p ++ r.
Proof.
  split; [apply starts_with_true|].
  intros (r & ->). unfold starts_with. rewrite length_app.
  destruct (Nat.ltb_spec (length p + length r) (length p)); [lia|].
  rewrite take_app_length. apply str_eqb_refl.
Qed.

(** ** Numerals *)

Lemma isdigit_not_nul (c : ascii) : isdigit c = true -> c <> NUL.
Proof. intros Hd ->. discriminate. Qed.

Lemma digits_to_nul_c_str (x : str) :
  digits_to_nul x = forallb isdigit (c_str x).
Proof.
  induction x as [|c t IH]; [reflexivity|]. cbn [digits_to_nul c_str].
  destruct (Ascii.eqb c NUL); [reflexivity|]. cbn [forallb].
  destruct (isdigit c); [exact IH|reflexivity].
Qed.

Lemma char_at_0 (x : str) : char_at x 0 = match x with c :: _ => c | [] => NUL end.
Proof. destruct x; reflexivity. Qed.

Lemma char_at_1 (c : ascii) (x : str) : char_at (c :: x) 1 = match x with d :: _ => d | [] => NUL end.
Proof. destruct x; reflexivity. Qed.

(** X2: [is_positive_integer] accepts exactly the C strings, other than
    "0", that are a run of decimal digits, possibly empty, after an
    optional leading '+'. The empty string, "+", "00" and "+0" are
    therefore accepted, and of the runs of digits only "0" is refused. *)
Theorem is_positive_integer_accepts (x : str) :
  is_positive_integer x = true <->
  c_str x <> s "0" /\
  exists digits, forallb isdigit digits = true /\
                 (c_str x = digits \/ c_str x = "+"%char :: digits).
Proof.
  unfold is_positive_integer. rewrite char_at_0, digits_to_nul_c_str.
  destruct x as [|c t].
  - cbn. split; [intros _|reflexivity]. split; [discriminate|]. exists []. now split; [|left].
  - rewrite char_at_1. cbn [drop].
    destruct (Ascii.eqb_spec c "-"%char) as [->|Hminus].
    { split; [discriminate|]. intros (_ & ds & Hds & [Heq|Heq]); cbn in Heq.
      - rewrite <- Heq in Hds. discriminate.
      - discriminate. }
    destruct (Ascii.eqb_spec c NUL) as [->|Hnul].
    { cbn. split; [intros _|reflexivity]. split; [discriminate|]. exists []. now split; [|left]. }
    assert (Hc : c_str (c :: t) = c :: c_str t).
    { cbn [c_str]. destruct (Ascii.eqb_spec c NUL); [contradiction|reflexivity]. }
    destruct (Ascii.eqb_spec c "0"%char) as [->|Hzero].
    + change (Ascii.eqb "0" "+") with false. cbn [andb]. cbv iota.
      destruct t as [|d t'].
      * cbn. split; [discriminate|]. intros (Hne & _). now contradiction Hne.
      * destruct (Ascii.eqb_spec d NUL) as [->|Hd].
        -- cbn. split; [discriminate|]. intros (Hne & _). now contradiction Hne.
        -- rewrite Hc. split.
           ++ intros Hall. split.
              ** cbn [c_str]. destruct (Ascii.eqb_spec d NUL); [contradiction|discriminate].
              ** exists ("0"%char :: c_str (d :: t')). split; [exact Hall|now left].
           ++ intros (_ & ds & Hds & [Heq|Heq]); [now rewrite Heq|discriminate].
    + cbn [andb]. destruct (Ascii.eqb_spec c "+"%char) as [->|Hplus].
      * rewrite Hc. split.
        -- intros Hall. split; [discriminate|]. exists (c_str t). split; [exact Hall|now right].
        -- intros (_ & ds & Hds & [Heq|Heq]).
           ++ rewrite <- Heq in Hds. discriminate.
           ++ injection Heq as Heq. rewrite <- Heq in Hds. exact Hds.
      * rewrite Hc. split.
        -- intros Hall. split.
           ++ intros Heq. injection Heq as Hc0 _. contradiction.
           ++ exists (c :: c_str t). split; [exact Hall|now left].
        -- intros (_ & ds & Hds & [Heq|Heq]); [now rewrite Heq|].
           injection Heq as Hc0 _. contradiction.
Qed.

Example is_positive_integer_edges :
  is_positive_integer (s "") = true /\ is_positive_integer (s "+") = true /\
  is_positive_integer (s "00") = true /\ is_positive_integer (s "+0") = true /\
  is_positive_integer (s "0") = false /\ is_positive_integer (s "-1") = false /\
  is_positive_integer (s "12a") = false /\ is_positive_integer (s "42") = true.
Proof. repeat split. Qed.

(** ** Vectors of names *)

Lemma difference_singleton_subseteq (X : gset str) (x : str) : X ∖ {[x]} ⊆ X.
Proof. intros y Hy. apply elem_of_difference in Hy. tauto. Qed.

Lemma size_list_to_set_le (v : list str) : (size (list_to_set v : gset str) <= length v)%nat.
Proof.
  induction v as [|x v IH]; cbn [list_to_set length].
  - rewrite size_empty. lia.
  - rewrite size_union_alt, size_singleton.
    pose proof (subseteq_size _ _ (difference_singleton_subseteq (list_to_set v) x)). lia.
Qed.

Lemma size_remove_member (X : gset str) (x : str) :
  x ∈ X -> size X = S (size (X ∖ {[x]})).
Proof.
  intros Hx.
  assert (Hsplit : X = {[x]} ∪ (X ∖ {[x]})).
  { apply set_eq. intros y. rewrite elem_of_union, elem_of_difference, elem_of_singleton.
    destruct (decide (y = x)) as [->|]; tauto. }
  etransitivity; [apply (f_equal size), Hsplit|].
  rewrite size_union, size_singleton; [reflexivity|].
  intros y Hy1 Hy2. apply elem_of_difference in Hy2. tauto.
Qed.

(** X9: [has_duplicates] returns false exactly when no name occurs
    twice in the vector. *)
Theorem has_duplicates_iff (v : list str) : has_duplicates v = false <-> NoDup v.
Proof.
  unfold has_duplicates. rewrite negb_false_iff, Nat.eqb_eq. split.
  - induction v as [|x v IH]; [constructor|].
    cbn [list_to_set length]. intros Hsize.
    rewrite size_union_alt, size_singleton in Hsize.
    pose proof (size_list_to_set_le v) as Hle.
    pose proof (subseteq_size _ _ (difference_singleton_subseteq (list_to_set v) x)) as Hsub.
    constructor; [|apply IH; lia].
    intros Hin.
    assert (Hx : x ∈ (list_to_set v : gset str)) by now apply elem_of_list_to_set.
    apply size_remove_member in Hx. lia.
  - apply size_list_to_set.
Qed.

(** X10: [intersect] returns true exactly when some name occurs in both
    vectors. *)
Theorem intersect_iff (v1 v2 : list str) :
  intersect v1 v2 = true <-> exists x, x ∈ v1 /\ x ∈ v2.
Proof.
  unfold intersect. rewrite negb_true_iff, Nat.eqb_neq.
  change (length (elements ?X)) with (size X).
  rewrite size_non_empty_iff. split.
  - intros Hne. apply set_choose in Hne as (x & Hx).
    exists x. rewrite elem_of_intersection, !elem_of_list_to_set in Hx. exact Hx.
  - intros (x & H1 & H2) Hempty.
    assert (Hx : x ∈ (list_to_set v1 ∩ list_to_set v2 : gset str))
      by (rewrite elem_of_intersection, !elem_of_list_to_set; now split).
    rewrite Hempty in Hx. now apply not_elem_of_empty in Hx.
Qed.

(** ** Rectangles and the cells they hold *)

(** X11: when the cell has a coordinate and the rectangle a pair of
    bounds for each of the [dim_num] dimensions, [expand_mbr] returns a
    rectangle that holds the cell, and every cell the rectangle held
    before is still inside it: the rectangle only grows. *)
Theorem expand_mbr_covers (mbr cell : list Z) (dim_num : Z) :
  (Z.to_nat dim_num <= length cell)%nat ->
  (2 * Z.to_nat dim_num <= length mbr)%nat ->
  exists mbr',
    expand_mbr mbr cell dim_num = Ret mbr' /\
    cell_in_range cell mbr' dim_num = Ret true /\
    forall other,
      (Z.to_nat dim_num <= length other)%nat ->
      cell_in_range other mbr dim_num = Ret true ->
      cell_in_range other mbr' dim_num = Ret true.
Proof.
  intros Hc Hm. unfold expand_mbr, cell_in_range.
  destruct (expand_mbr_loop_spec cell (Z.to_nat dim_num) 0%nat mbr)
    as (mbr' & Hrun & Hlen & _ & Hin); [lia|lia|].
  exists mbr'. split; [exact Hrun|].
  assert (Hbounds : forall k lo' hi', (k < Z.to_nat dim_num)%nat ->
            mbr' !! (2 * k)%nat = Some lo' -> mbr' !! (2 * k + 1)%nat = Some hi' ->
            exists lo hi c, mbr !! (2 * k)%nat = Some lo /\ mbr !! (2 * k + 1)%nat = Some hi /\
                            cell !! k = Some c /\ lo' = Z.min lo c /\ hi' = Z.max hi c).
  { intros k lo' hi' Hk Hlo' Hhi'.
    destruct (lookup_lt_is_Some_2 mbr (2 * k)) as (lo & Hlo); [lia|].
    destruct (lookup_lt_is_Some_2 mbr (2 * k + 1)) as (hi & Hhi); [lia|].
    destruct (lookup_lt_is_Some_2 cell k) as (c & Hck); [lia|].
    destruct (Hin k lo hi c ltac:(lia) Hlo Hhi Hck) as [H1 H2].
    exists lo, hi, c. repeat split; congruence. }
  split.
  - destruct (cell_in_range_loop_iff cell mbr' (Z.to_nat dim_num) 0%nat) as (b & Hb & Hiff);
      [lia|lia|].
    rewrite Hb. f_equal. apply Hiff. intros k c lo' hi' Hk Hck Hlo' Hhi'.
    destruct (Hbounds k lo' hi' ltac:(lia) Hlo' Hhi') as (lo & hi & c0 & _ & _ & Hc0 & -> & ->).
    assert (c0 = c) by congruence. lia.
  - intros other Ho Hother.
    destruct (cell_in_range_loop_iff other mbr (Z.to_nat dim_num) 0%nat) as (b & Hb & Hiff);
      [lia|lia|].
    rewrite Hb in Hother. injection Hother as ->.
    destruct (cell_in_range_loop_iff other mbr' (Z.to_nat dim_num) 0%nat) as (b' & Hb' & Hiff');
      [lia|lia|].
    rewrite Hb'. f_equal. apply Hiff'. intros k c lo' hi' Hk Hck Hlo' Hhi'.
    destruct (Hbounds k lo' hi' ltac:(lia) Hlo' Hhi') as (lo & hi & c0 & Hlo & Hhi & _ & -> & ->).
    pose proof (proj1 Hiff eq_refl k c lo hi Hk Hck Hlo Hhi). lia.
Qed.

Lemma expand_mbr_covers_witness :
  exists mbr',
    expand_mbr [2; 4; 10; 20] [5; 7] 2 = Ret mbr' /\
    cell_in_range [5; 7] mbr' 2 = Ret true /\
    forall other,
      (Z.to_nat 2 <= length other)%nat ->
      cell_in_range other [2; 4; 10; 20] 2 = Ret true ->
      cell_in_range other mbr' 2 = Ret true.
Proof.
  apply (expand_mbr_covers [2; 4; 10; 20] [5; 7] 2); cbn; lia.
Defined.

(** ** Unary ranges *)

Lemma is_unary_range_loop_iff (range : list Z) (n : nat) :
  forall i,
    (2 * (i + n) <= length range)%nat ->
    exists b, is_unary_range_loop range i n = Ret b /\
      (b = true <->
       forall k, (i <= k < i + n)%nat -> range !! (2 * k)%nat = range !! (2 * k + 1)%nat).
Proof.
  induction n as [|n IH]; intros i Hr.
  - exists true. split; [reflexivity|]. split; [intros _ k Hk; lia|reflexivity].
  - cbn [is_unary_range_loop].
    destruct (read_in_bounds range (2 * i)) as (lo & Hlo & ->); [lia|].
    destruct (read_in_bounds range (2 * i + 1)) as (hi & Hhi & ->); [lia|].
    cbn [bind]. unfold elem_ne, int_ne.
    destruct (Z.eqb_spec lo hi) as [->|Hne]; cbn [negb].
    + destruct (IH (S i)) as (b & Hrun & Hb); [lia|].
      exists b. split; [exact Hrun|]. rewrite Hb. split.
      * intros Hall k Hk. destruct (decide (k = i)) as [->|]; [congruence|apply Hall; lia].
      * intros Hall k Hk. apply Hall. lia.
    + exists false. split; [reflexivity|]. split; [discriminate|].
      intros Hall. specialize (Hall i ltac:(lia)). congruence.
Qed.

Lemma wrap_small (bits v : Z) :
  0 < bits -> - 2 ^ (bits - 1) <= v < 2 ^ (bits - 1) -> wrap bits v = v.
Proof.
  intros Hbits Hv. unfold wrap.
  assert (H2 : 2 ^ bits = 2 * 2 ^ (bits - 1)).
  { replace bits with (bits - 1 + 1) at 1 by lia. rewrite Z.pow_add_r by lia. lia. }
  rewrite Z.mod_small by lia. lia.
Qed.

Lemma cell_num_unary_loop (bits : Z) (range : list Z) (n : nat) :
  1 < bits ->
  forall i cell_num,
    - 2 ^ 63 <= cell_num < 2 ^ 63 ->
    (2 * (i + n) <= length range)%nat ->
    (forall k, (i <= k < i + n)%nat -> range !! (2 * k)%nat = range !! (2 * k + 1)%nat) ->
    cell_num_in_range_loop bits range cell_num i n = Ret cell_num.
Proof.
  intros Hbits. induction n as [|n IH]; intros i cell_num Hnum Hr Hun; [reflexivity|].
  cbn [cell_num_in_range_loop].
  destruct (read_in_bounds range (2 * i)) as (lo & Hlo & Hrlo); [lia|].
  destruct (read_in_bounds range (2 * i + 1)) as (hi & Hhi & Hrhi); [lia|].
  rewrite Hrhi. cbn [bind]. rewrite Hrlo. cbn [bind].
  assert (hi = lo) by (specialize (Hun i ltac:(lia)); congruence). subst hi.
  rewrite Z.sub_diag.
  assert (Hpow : 2 <= 2 ^ (bits - 1)).
  { change 2 with (2 ^ 1) at 1. apply Z.pow_le_mono_r; lia. }
  rewrite (wrap_small bits 0) by lia. rewrite (wrap_small bits (0 + 1)) by lia.
  replace (cell_num * (0 + 1)) with cell_num by lia.
  rewrite (wrap_small 64 cell_num) by (change (2 ^ (64 - 1)) with (2 ^ 63); lia).
  apply IH; [exact Hnum|lia|]. intros k Hk. apply Hun. lia.
Qed.

(** X12: a range that [is_unary_range] accepts holds one cell:
    [cell_num_in_range] returns 1 for it, and [cell_in_range] accepts
    exactly the cell whose coordinates are the low bounds of the range. *)
Theorem unary_range_holds_one_cell (bits : Z) (range cell : list Z) (dim_num : Z) :
  1 < bits ->
  (Z.to_nat dim_num <= length cell)%nat ->
  (2 * Z.to_nat dim_num <= length range)%nat ->
  is_unary_range range dim_num = Ret true ->
  cell_num_in_range bits range dim_num = Ret 1 /\
  exists b, cell_in_range cell range dim_num = Ret b /\
    (b = true <->
     forall i, (i < Z.to_nat dim_num)%nat -> cell !! i = range !! (2 * i)%nat).
Proof.
  intros Hbits Hc Hr Hun. unfold is_unary_range in Hun.
  destruct (is_unary_range_loop_iff range (Z.to_nat dim_num) 0%nat) as (u & Hu & Huiff); [lia|].
  rewrite Hu in Hun. injection Hun as ->.
  pose proof (proj1 Huiff eq_refl) as Hsame. split.
  - unfold cell_num_in_range. apply cell_num_unary_loop; [exact Hbits|lia|lia|exact Hsame].
  - unfold cell_in_range.
    destruct (cell_in_range_loop_iff cell range (Z.to_nat dim_num) 0%nat) as (b & Hb & Hiff);
      [lia|lia|].
    exists b. split; [exact Hb|]. rewrite Hiff. split.
    + intros Hall i Hi.
      destruct (lookup_lt_is_Some_2 cell i) as (c & Hci); [lia|].
      destruct (lookup_lt_is_Some_2 range (2 * i)) as (lo & Hlo); [lia|].
      pose proof (Hsame i ltac:(lia)) as Hhi. rewrite Hlo in Hhi.
      pose proof (Hall i c lo lo ltac:(lia) Hci Hlo (eq_sym Hhi)).
      rewrite Hci, Hlo. f_equal. lia.
    + intros Hall k c lo hi Hk Hck Hlo Hhi.
      pose proof (Hall k ltac:(lia)) as Heq. pose proof (Hsame k ltac:(lia)) as Hs.
      assert (c = lo) by congruence. assert (hi = lo) by congruence. lia.
Qed.

Lemma unary_range_holds_one_cell_witness :
  cell_num_in_range 32 [3; 3; 7; 7] 2 = Ret 1 /\
  exists b, cell_in_range [3; 7] [3; 3; 7; 7] 2 = Ret b /\
    (b = true <->
     forall i, (i < Z.to_nat 2)%nat -> [3; 7] !! i = [3; 3; 7; 7] !! (2 * i)%nat).
Proof.
  apply (unary_range_holds_one_cell 32 [3; 3; 7; 7] [3; 7] 2); [lia|cbn; lia|cbn; lia|].
  reflexivity.
Defined.

(** ** The comparator on tile ids and coordinates *)

(** X13: the overload of [cmp_row_order] that takes tile ids is a total
    preorder on pairs of an id and coordinates without NaN: it returns
    -1, 0 or 1, swapping the arguments negates the result, and it is
    transitive. A smaller id decides, and with equal ids the result is
    that of [cmp_row_order] on the coordinates. *)
Theorem cmp_row_order_ids_laws
  (t : elem_type) (dim_num : Z) (ia ib ic : Z) (a b c : list (carrier t)) :
  Forall (ordered_value t) a -> Forall (ordered_value t) b -> Forall (ordered_value t) c ->
  length a = length b -> length b = length c ->
  let cmp := @cmp_row_order_ids (carrier t) (elem_ops t) in
  (cmp ia a ib b dim_num = -1 \/ cmp ia a ib b dim_num = 0 \/ cmp ia a ib b dim_num = 1) /\
  cmp ia a ib b dim_num = - cmp ib b ia a dim_num /\
  (cmp ia a ib b dim_num <= 0 -> cmp ib b ic c dim_num <= 0 -> cmp ia a ic c dim_num <= 0) /\
  (ia < ib -> cmp ia a ib b dim_num = -1) /\
  (ia = ib -> cmp ia a ib b dim_num = @cmp_row_order (carrier t) (elem_ops t) a b dim_num).
Proof.
  intros Ha Hb Hc Hab Hbc cmp. subst cmp. unfold cmp_row_order_ids, cmp_row_order.
  pose proof (elem_order_laws t) as laws.
  pose proof (@cmp_row_loop_range (carrier t) (elem_ops t) a b 0 (Z.to_nat dim_num)) as Hrange.
  pose proof (@cmp_row_loop_antisym (carrier t) (elem_ops t) _ laws a b 0 (Z.to_nat dim_num) Ha Hb)
    as Hanti.
  pose proof (@cmp_row_loop_trans (carrier t) (elem_ops t) _ laws a b c 0 (Z.to_nat dim_num)
                Ha Hb Hc Hab Hbc) as Htrans.
  repeat split.
  - destruct (Z.ltb_spec ia ib); [now left|]. destruct (Z.gtb_spec ia ib); [now right; right|].
    exact Hrange.
  - destruct (Z.ltb_spec ia ib), (Z.ltb_spec ib ia), (Z.gtb_spec ia ib), (Z.gtb_spec ib ia);
      try lia; exact Hanti.
  - destruct (Z.ltb_spec ia ib), (Z.ltb_spec ib ic), (Z.ltb_spec ia ic),
      (Z.gtb_spec ia ib), (Z.gtb_spec ib ic), (Z.gtb_spec ia ic); try lia; exact Htrans.
  - intros Hlt. destruct (Z.ltb_spec ia ib); [reflexivity|lia].
  - intros ->. rewrite Z.ltb_irrefl. destruct (Z.gtb_spec ib ib); [lia|reflexivity].
Qed.

Lemma cmp_row_order_ids_laws_witness :
  let cmp := @cmp_row_order_ids (carrier Int64) (elem_ops Int64) in
  (cmp 1 [5; 2] 1 [5; 3] 2 = -1 \/ cmp 1 [5; 2] 1 [5; 3] 2 = 0 \/ cmp 1 [5; 2] 1 [5; 3] 2 = 1) /\
  cmp 1 [5; 2] 1 [5; 3] 2 = - cmp 1 [5; 3] 1 [5; 2] 2 /\
  (cmp 1 [5; 2] 1 [5; 3] 2 <= 0 -> cmp 1 [5; 3] 2 [0; 0] 2 <= 0 -> cmp 1 [5; 2] 2 [0; 0] 2 <= 0) /\
  (1 < 1 -> cmp 1 [5; 2] 1 [5; 3] 2 = -1) /\
  (1 = 1 -> cmp 1 [5; 2] 1 [5; 3] 2 = @cmp_row_order (carrier Int64) (elem_ops Int64) [5; 2] [5; 3] 2).
Proof.
  apply (cmp_row_order_ids_laws Int64 2 1 1 2 [5; 2] [5; 3] [0; 0]);
    try reflexivity; repeat constructor; cbn; lia.
Defined.

(** ** Counting the cells of a range *)

Lemma length_bind_uniform {A B} (f : A -> list B) (l : list A) (m : nat) :
  (forall x, x ∈ l -> length (f x) = m) -> length (l ≫= f) = (length l * m)%nat.
Proof.
  induction l as [|x l IH]; intros Hf; [reflexivity|].
  rewrite bind_cons, length_app, IH, Hf; [cbn; lia|left|].
  intros y Hy. apply Hf. now right.
Qed.

Lemma cells_of_length (range : list Z) (n : nat) :
  forall i lo hi,
    range !! (2 * i)%nat = Some lo -> range !! (2 * i + 1)%nat = Some hi ->
    length (cells_of range i (S n)) =
    (Z.to_nat (hi - lo + 1) * length (cells_of range (S i) n))%nat.
Proof.
  intros i lo hi Hlo Hhi. cbn [cells_of]. rewrite Hlo, Hhi.
  rewrite (length_bind_uniform _ _ (length (cells_of range (S i) n))).
  - now rewrite length_seqZ.
  - intros x _. apply length_fmap.
Qed.

Lemma cells_of_elem (range : list Z) (n : nat) :
  forall i cell,
    (2 * (i + n) <= length range)%nat ->
    cell ∈ cells_of range i n <->
    length cell = n /\
    forall k c lo hi, (k < n)%nat ->
      cell !! k = Some c -> range !! (2 * (i + k))%nat = Some lo ->
      range !! (2 * (i + k) + 1)%nat = Some hi -> lo <= c <= hi.
Proof.
  induction n as [|n IH]; intros i cell Hr.
  - cbn [cells_of]. rewrite list_elem_of_singleton. split.
    + intros ->. split; [reflexivity|]. intros k c lo hi Hk. lia.
    + intros [Hlen _]. now apply length_zero_iff_nil.
  - cbn [cells_of].
    destruct (lookup_lt_is_Some_2 range (2 * i)) as (lo & Hlo); [lia|].
    destruct (lookup_lt_is_Some_2 range (2 * i + 1)) as (hi & Hhi); [lia|].
    rewrite Hlo, Hhi. rewrite list_elem_of_bind. split.
    + intros (c & Hcell & Hc). apply list_elem_of_fmap in Hcell as (rest & -> & Hrest).
      apply elem_of_seqZ in Hc. apply IH in Hrest as [Hlen Hall]; [|lia].
      split; [cbn; lia|]. intros k c' lo' hi' Hk Hck Hlok Hhik.
      destruct k as [|k].
      * replace (2 * (i + 0))%nat with (2 * i)%nat in * by lia.
        cbn in Hck. assert (c' = c) by congruence. assert (lo' = lo) by congruence.
        assert (hi' = hi) by congruence. lia.
      * cbn in Hck. apply (Hall k c' lo' hi'); [lia|exact Hck| |].
        -- replace (2 * (S i + k))%nat with (2 * (i + S k))%nat by lia. exact Hlok.
        -- replace (2 * (S i + k) + 1)%nat with (2 * (i + S k) + 1)%nat by lia. exact Hhik.
    + intros [Hlen Hall]. destruct cell as [|c rest]; [discriminate|].
      exists c. split.
      * apply list_elem_of_fmap. exists rest. split; [reflexivity|].
        apply IH; [lia|]. split; [cbn in Hlen; lia|].
        intros k c' lo' hi' Hk Hck Hlok Hhik.
        apply (Hall (S k) c' lo' hi'); [lia|exact Hck| |].
        -- replace (2 * (i + S k))%nat with (2 * (S i + k))%nat by lia. exact Hlok.
        -- replace (2 * (i + S k) + 1)%nat with (2 * (S i + k) + 1)%nat by lia. exact Hhik.
      * apply elem_of_seqZ.
        assert (lo <= c <= hi); [|lia].
        apply (Hall 0%nat c lo hi); [lia|reflexivity| |].
        -- replace (2 * (i + 0))%nat with (2 * i)%nat by lia. exact Hlo.
        -- replace (2 * (i + 0) + 1)%nat with (2 * i + 1)%nat by lia. exact Hhi.
Qed.

Lemma cells_of_NoDup (range : list Z) (n : nat) : forall i, NoDup (cells_of range i n).
Proof.
  induction n as [|n IH]; intros i; cbn [cells_of].
  - apply NoDup_singleton.
  - destruct (range !! (2 * i)%nat) as [lo|]; [|constructor].
    destruct (range !! (2 * i + 1)%nat) as [hi|]; [|constructor].
    apply NoDup_bind.
    + intros c1 c2 cell _ _ H1 H2.
      apply list_elem_of_fmap in H1 as (r1 & -> & _).
      apply list_elem_of_fmap in H2 as (r2 & Heq & _). congruence.
    + intros c _. apply NoDup_fmap_2; [|apply IH]. intros x y Hxy. congruence.
    + apply NoDup_seqZ.
Qed.

Lemma cells_of_nonempty (range : list Z) (n : nat) :
  forall i,
    (2 * (i + n) <= length range)%nat ->
    (forall k lo hi, (i <= k < i + n)%nat ->
       range !! (2 * k)%nat = Some lo -> range !! (2 * k + 1)%nat = Some hi -> lo <= hi) ->
    (1 <= length (cells_of range i n))%nat.
Proof.
  induction n as [|n IH]; intros i Hr Hord; [cbn; lia|].
  destruct (lookup_lt_is_Some_2 range (2 * i)) as (lo & Hlo); [lia|].
  destruct (lookup_lt_is_Some_2 range (2 * i + 1)) as (hi & Hhi); [lia|].
  rewrite (cells_of_length range n i lo hi Hlo Hhi).
  pose proof (Hord i lo hi ltac:(lia) Hlo Hhi).
  pose proof (IH (S i) ltac:(lia) ltac:(intros k l h Hk; apply Hord; lia)).
  nia.
Qed.

Lemma cell_num_in_range_loop_counts (bits : Z) (range : list Z) (n : nat) :
  1 < bits ->
  forall i cell_num,
    0 <= cell_num ->
    (2 * (i + n) <= length range)%nat ->
    (forall k lo hi, (i <= k < i + n)%nat ->
       range !! (2 * k)%nat = Some lo -> range !! (2 * k + 1)%nat = Some hi ->
       lo <= hi /\ hi - lo + 1 < 2 ^ (bits - 1)) ->
    cell_num * Z.of_nat (length (cells_of range i n)) < 2 ^ 63 ->
    cell_num_in_range_loop bits range cell_num i n =
      Ret (cell_num * Z.of_nat (length (cells_of range i n))).
Proof.
  intros Hbits. induction n as [|n IH]; intros i cell_num Hnum Hr Hord Hfit.
  - cbn. f_equal. lia.
  - cbn [cell_num_in_range_loop].
    destruct (read_in_bounds range (2 * i)) as (lo & Hlo & Hrlo); [lia|].
    destruct (read_in_bounds range (2 * i + 1)) as (hi & Hhi & Hrhi); [lia|].
    rewrite Hrhi. cbn [bind]. rewrite Hrlo. cbn [bind].
    destruct (Hord i lo hi ltac:(lia) Hlo Hhi) as [Hle Hsmall].
    assert (Hpow : 0 < 2 ^ (bits - 1)) by (apply Z.pow_pos_nonneg; lia).
    rewrite (wrap_small bits (hi - lo)) by lia.
    rewrite (wrap_small bits (hi - lo + 1)) by lia.
    pose proof (cells_of_length range n i lo hi Hlo Hhi) as Hlen.
    assert (Hrest : (1 <= length (cells_of range (S i) n))%nat).
    { apply cells_of_nonempty; [lia|]. intros k l h Hk Hl Hh.
      apply (Hord k l h); [lia|assumption..]. }
    assert (Hprod : Z.of_nat (length (cells_of range i (S n))) =
                    (hi - lo + 1) * Z.of_nat (length (cells_of range (S i) n))).
    { rewrite Hlen. rewrite Nat2Z.inj_mul, Z2Nat.id by lia. reflexivity. }
    rewrite Hprod in Hfit |- *.
    assert (Hstep : cell_num * (hi - lo + 1) < 2 ^ 63) by nia.
    rewrite (wrap_small 64 (cell_num * (hi - lo + 1)))
      by (change (2 ^ (64 - 1)) with (2 ^ 63); nia).
    rewrite IH; [f_equal; lia|nia|lia| |nia].
    intros k l h Hk. apply Hord. lia.
Qed.

(** X14: [cell_num_in_range] counts the cells [cell_in_range] accepts.
    For an integer type of [bits] bits and a range whose bounds are
    ordered and whose extents fit the type, the cells of [dim_num]
    coordinates inside the range can be listed without repetition, and
    when their number is below 2^63 it is the value returned. *)
Theorem cell_num_in_range_counts (bits : Z) (range : list Z) (dim_num : Z) :
  1 < bits ->
  (2 * Z.to_nat dim_num <= length range)%nat ->
  (forall i lo hi, (i < Z.to_nat dim_num)%nat ->
     range !! (2 * i)%nat = Some lo -> range !! (2 * i + 1)%nat = Some hi ->
     lo <= hi /\ hi - lo + 1 < 2 ^ (bits - 1)) ->
  exists cells : list (list Z),
    NoDup cells /\
    (forall cell, cell ∈ cells <->
                  length cell = Z.to_nat dim_num /\
                  cell_in_range cell range dim_num = Ret true) /\
    (Z.of_nat (length cells) < 2 ^ 63 ->
     cell_num_in_range bits range dim_num = Ret (Z.of_nat (length cells))).
Proof.
  intros Hbits Hr Hord. exists (cells_of range 0 (Z.to_nat dim_num)).
  split; [apply cells_of_NoDup|]. split.
  - intros cell. rewrite cells_of_elem by lia. unfold cell_in_range. split.
    + intros [Hlen Hall]. split; [exact Hlen|].
      destruct (cell_in_range_loop_iff cell range (Z.to_nat dim_num) 0%nat) as (b & Hb & Hiff);
        [lia|lia|].
      rewrite Hb. f_equal. apply Hiff. intros k c lo hi Hk. apply Hall. lia.
    + intros [Hlen Hin]. split; [exact Hlen|].
      destruct (cell_in_range_loop_iff cell range (Z.to_nat dim_num) 0%nat) as (b & Hb & Hiff);
        [lia|lia|].
      rewrite Hb in Hin. injection Hin as ->.
      intros k c lo hi Hk. apply (proj1 Hiff eq_refl). lia.
  - intros Hfit. unfold cell_num_in_range.
    rewrite (cell_num_in_range_loop_counts bits range (Z.to_nat dim_num) Hbits 0%nat 1);
      [f_equal; lia|lia|lia| |lia].
    intros k lo hi Hk. apply Hord. lia.
Qed.

Lemma cell_num_in_range_counts_witness :
  exists cells : list (list Z),
    NoDup cells /\
    (forall cell, cell ∈ cells <->
                  length cell = Z.to_nat 2 /\
                  cell_in_range cell [1; 3; 10; 11] 2 = Ret true) /\
    (Z.of_nat (length cells) < 2 ^ 63 ->
     cell_num_in_range 32 [1; 3; 10; 11] 2 = Ret (Z.of_nat (length cells))).
Proof.
  apply (cell_num_in_range_counts 32 [1; 3; 10; 11] 2); [lia|cbn; lia|].
  intros i lo hi Hi Hlo Hhi.
  destruct i as [|[|i]]; cbn in Hlo, Hhi; [| |cbn in Hi; lia];
    injection Hlo as <-; injection Hhi as <-; cbn; lia.
Defined.

Example cell_num_in_range_example : cell_num_in_range 32 [1; 3; 10; 11] 2 = Ret 6.
Proof. reflexivity. Qed.

(** ** Adjacent slashes *)

Lemma unique_from_no_adjacent (l : str) :
  forall prev pre post,
    prev :: unique_from both_slashes prev l <> pre ++ SLASH :: SLASH :: post.
Proof.
  induction l as [|x t IH]; intros prev pre post; cbn [unique_from].
  - destruct pre as [|p [|q pre]]; discriminate.
  - destruct (both_slashes prev x) eqn:Eb; [apply IH|].
    destruct pre as [|p pre]; cbn [app].
    + intros [= -> -> _]. discriminate.
    + intros [= _ Heq]. now apply IH in Heq.
Qed.

Lemma unique_from_fixed (l : str) :
  forall prev,
    (forall pre post, prev :: l <> pre ++ SLASH :: SLASH :: post) ->
    unique_from both_slashes prev l = l.
Proof.
  induction l as [|x t IH]; intros prev Hno; [reflexivity|]. cbn [unique_from].
  destruct (both_slashes prev x) eqn:Eb.
  - apply andb_true_iff in Eb as [E1 E2].
    apply Ascii.eqb_eq in E1, E2. subst. now contradiction (Hno [] t).
  - f_equal. apply IH. intros pre post Heq. apply (Hno (prev :: pre) post).
    cbn [app]. now rewrite Heq.
Qed.

Lemma unique_from_keeps_others (l : str) :
  forall prev,
    List.filter (fun c => negb (Ascii.eqb c SLASH)) (unique_from both_slashes prev l) =
    List.filter (fun c => negb (Ascii.eqb c SLASH)) l.
Proof.
  induction l as [|x t IH]; intros prev; [reflexivity|]. cbn [unique_from].
  destruct (both_slashes prev x) eqn:Eb.
  - apply andb_true_iff in Eb as [_ E2]. cbn [List.filter]. rewrite E2. cbn [negb]. apply IH.
  - cbn [List.filter]. rewrite IH. reflexivity.
Qed.

(** X15: what [adjacent_slashes_dedup] returns has no two slashes in a
    row; applying it again changes nothing; a string without two
    slashes in a row is returned as it is; and the characters other
    than '/' are kept, in their order. *)
Theorem adjacent_slashes_dedup_result (value : str) :
  (forall pre post, adjacent_slashes_dedup value <> pre ++ SLASH :: SLASH :: post) /\
  adjacent_slashes_dedup (adjacent_slashes_dedup value) = adjacent_slashes_dedup value /\
  ((forall pre post, value <> pre ++ SLASH :: SLASH :: post) ->
   adjacent_slashes_dedup value = value) /\
  List.filter (fun c => negb (Ascii.eqb c SLASH)) (adjacent_slashes_dedup value) =
  List.filter (fun c => negb (Ascii.eqb c SLASH)) value.
Proof.
  unfold adjacent_slashes_dedup. destruct value as [|a t]; cbn [std_unique].
  - repeat split; try reflexivity. intros [|p [|q pre]] post; discriminate.
  - split; [apply unique_from_no_adjacent|]. split; [|split].
    + f_equal. apply unique_from_fixed, unique_from_no_adjacent.
    + intros Hno. f_equal. now apply unique_from_fixed.
    + cbn [List.filter]. now rewrite unique_from_keeps_others.
Qed.

(** ** Canonicalisation after removing adjacent slashes *)

Lemma nonempty_pieces_dedup (y : str) :
  forall prev acc,
    SLASH ∉ acc -> (prev = SLASH -> acc = []) ->
    List.filter (fun t => negb (str_eqb t [])) (split_on SLASH (acc ++ unique_from both_slashes prev y)) =
    List.filter (fun t => negb (str_eqb t [])) (split_on SLASH (acc ++ y)).
Proof.
  induction y as [|c t IH]; intros prev acc Hacc Hprev; [reflexivity|].
  pose proof (IH SLASH [] ltac:(apply not_elem_of_nil) ltac:(reflexivity)) as IH0.
  cbn [app] in IH0.
  cbn [unique_from]. destruct (Ascii.eqb_spec c SLASH) as [->|Hc].
  - destruct (Ascii.eqb_spec prev SLASH) as [->|Hp].
    + rewrite (Hprev eq_refl). change (both_slashes SLASH SLASH) with true. cbv iota.
      cbn [app]. rewrite IH0.
      cbn [split_on]. rewrite Ascii.eqb_refl. cbn [List.filter].
      change (str_eqb [] []) with true. reflexivity.
    + assert (Eb : both_slashes prev SLASH = false).
      { unfold both_slashes. destruct (Ascii.eqb_spec prev SLASH); [contradiction|reflexivity]. }
      rewrite Eb. rewrite !split_on_app_token by assumption. cbn [List.filter].
      now rewrite IH0.
  - assert (Eb : both_slashes prev c = false).
    { unfold both_slashes. destruct (Ascii.eqb_spec c SLASH); [contradiction|].
      now rewrite andb_false_r. }
    rewrite Eb. rewrite !(cons_middle c), !app_assoc.
    apply IH.
    + rewrite elem_of_app, list_elem_of_singleton. intros [?|?]; [contradiction|congruence].
    + intros ->. contradiction.
Qed.

Lemma filter_map_c_str (P : list str) :
  List.filter (fun t => negb (str_eqb t [])) (map c_str P) =
  List.filter (fun t => negb (str_eqb t []))
    (map c_str (List.filter (fun t => negb (str_eqb t [])) P)).
Proof.
  induction P as [|p P IH]; [reflexivity|]. cbn [map List.filter].
  destruct p as [|c p]; [exact IH|].
  change (str_eqb (c :: p) []) with false. cbn [negb map List.filter]. now rewrite IH.
Qed.

Lemma tokenize_dedup (y : str) :
  tokenize (adjacent_slashes_dedup (SLASH :: y)) =
  List.filter (fun t => negb (str_eqb t [])) (map c_str (split_on SLASH y)).
Proof.
  unfold tokenize, adjacent_slashes_dedup. cbn [std_unique drop]. rewrite drop_0.
  rewrite filter_map_c_str.
  pose proof (nonempty_pieces_dedup y SLASH [] ltac:(apply not_elem_of_nil) ltac:(reflexivity))
    as Hpieces.
  cbn [app] in Hpieces. rewrite Hpieces. now rewrite <- filter_map_c_str.
Qed.

(** What [purge_dots_from_path] makes of a path that starts with a slash,
    once adjacent slashes are removed: the dots are purged from its
    non-empty pieces. *)
Lemma purge_dots_dedup (y : str) :
  purge_dots_from_path (adjacent_slashes_dedup (SLASH :: y)) =
  Ret (match purge_tokens
               (List.filter (fun t => negb (str_eqb t [])) (map c_str (split_on SLASH y))) [] with
       | Some toks => assemble toks
       | None => []
       end).
Proof.
  rewrite <- tokenize_dedup. unfold purge_dots_from_path.
  remember (adjacent_slashes_dedup (SLASH :: y)) as d eqn:Hd.
  assert (Hhead : exists rest, d = SLASH :: rest)
    by (subst d; unfold adjacent_slashes_dedup; apply std_unique_head).
  destruct Hhead as (rest & ->).
  destruct rest as [|c rest]; [reflexivity|].
  change (str_eqb (SLASH :: c :: rest) (s "/")) with false.
  cbn [length Nat.eqb orb]. change (Ascii.eqb SLASH SLASH) with true. cbn [assert bind].
  destruct (purge_tokens _ _); reflexivity.
Qed.

Lemma os_walk_app (P Q : list str) :
  forall acc, os_walk (P ++ Q) acc = os_walk Q (os_walk P acc).
Proof.
  induction P as [|p P IH]; intros acc; [reflexivity|]. cbn [app os_walk].
  destruct (_ || _); [apply IH|]. destruct (str_eqb p (s "..")); apply IH.
Qed.

Lemma os_resolve_slash (w : Sys) (y : str) :
  NUL ∉ y -> os_resolve w (SLASH :: y) = Some (assemble (os_walk (split_on SLASH y) [])).
Proof.
  intros Hy. unfold os_resolve.
  rewrite c_str_id by (rewrite elem_of_cons; intros [?|?]; [discriminate|contradiction]).
  change (str_eqb (SLASH :: y) []) with false. cbv iota.
  assert (E : starts_with (SLASH :: y) (s "/") = true).
  { apply starts_with_prefix. now exists y. }
  rewrite E. cbn [split_on]. rewrite Ascii.eqb_refl. reflexivity.
Qed.

(** ** Above the root *)

(** X17: a path that climbs above the root is invalid for [real_dir],
    which returns the empty string for "/.." and for "/../" followed by
    anything, whereas the kernel stays at the root and resolves
    "/../rest" as "/rest". *)
Theorem real_dir_above_root (w : Sys) (current home rest : str) :
  real_dir current home (s "/..") = Ret [] /\
  real_dir current home (s "/../" ++ rest) = Ret [] /\
  ((NUL ∉ rest) -> os_resolve w (s "/../" ++ rest) = os_resolve w (SLASH :: rest)).
Proof.
  split; [reflexivity|]. split.
  - unfold real_dir.
    change (s "/../" ++ rest) with (SLASH :: "."%char :: "."%char :: SLASH :: rest).
    change (str_eqb (SLASH :: "."%char :: "."%char :: SLASH :: rest) (s "")) with false.
    change (str_eqb (SLASH :: "."%char :: "."%char :: SLASH :: rest) (s ".")) with false.
    change (str_eqb (SLASH :: "."%char :: "."%char :: SLASH :: rest) (s "./")) with false.
    change (str_eqb (SLASH :: "."%char :: "."%char :: SLASH :: rest) (s "~")) with false.
    change (str_eqb (SLASH :: "."%char :: "."%char :: SLASH :: rest) (s "/")) with false.
    cbn [orb].
    assert (E : starts_with (SLASH :: "."%char :: "."%char :: SLASH :: rest) (s "/") = true).
    { apply starts_with_prefix. now eexists. }
    rewrite E. change (s "/" ++ ?x) with (SLASH :: x).
    rewrite purge_dots_dedup.
    change (SLASH :: "."%char :: "."%char :: SLASH :: rest) with ([] ++ SLASH :: s ".." ++ SLASH :: rest).
    rewrite !split_on_app_sep. reflexivity.
  - intros Hrest.
    change (s "/../" ++ rest) with (SLASH :: (s ".." ++ SLASH :: rest)).
    rewrite !os_resolve_slash.
    + rewrite split_on_app_sep, os_walk_app. reflexivity.
    + exact Hrest.
    + rewrite elem_of_app, elem_of_cons.
      intros [Hin|[?|?]]; [|discriminate|contradiction].
      revert Hin. apply (bool_decide_unpack _). vm_compute. exact I.
Qed.

(** ** Parents *)

(** X18: when [real_dir] maps a name to the canonical path of the
    components [toks] followed by [t], [parent_dir] of the name is the
    canonical path of [toks], and the same as [parent_dir] of the
    canonical path; for an entry of the root directory ([toks] empty)
    it is the empty string, not "/". *)
Theorem parent_dir_of_child (current home : str) (toks : list str) (t x : str) :
  forallb good_token toks = true -> good_token t = true ->
  real_dir current home x = Ret (assemble (toks ++ [t])) ->
  parent_dir current home x =
    Ret (match toks with
         | [] => []
         | _ :: _ => assemble toks
         end) /\
  parent_dir current home (assemble (toks ++ [t])) = parent_dir current home x.
Proof.
  intros Htoks Ht Hreal.
  pose proof (parent_dir_tokens current home toks t Htoks Ht) as Hparent.
  assert (Hcan : canonical (assemble (toks ++ [t]))).
  { exists (toks ++ [t]). split; [|reflexivity]. rewrite forallb_app, Htoks. cbn. now rewrite Ht. }
  assert (Hsame : parent_dir current home x = parent_dir current home (assemble (toks ++ [t]))).
  { unfold parent_dir. now rewrite Hreal, (real_dir_canonical current home _ Hcan). }
  split; [now rewrite Hsame|now rewrite Hsame].
Qed.

Lemma parent_dir_of_child_witness :
  parent_dir (s "/cwd") (s "/home/u") (s "/w//g/./a/") =
    Ret (assemble [s "w"; s "g"]) /\
  parent_dir (s "/cwd") (s "/home/u") (assemble ([s "w"; s "g"] ++ [s "a"])) =
    parent_dir (s "/cwd") (s "/home/u") (s "/w//g/./a/").
Proof.
  apply (parent_dir_of_child (s "/cwd") (s "/home/u") [s "w"; s "g"] (s "a") (s "/w//g/./a/"));
    reflexivity.
Defined.

(** ** The kind of a directory *)



(** ** Nodes at canonical paths *)

Lemma is_dir_node (w : Sys) (p : str) :
  canonical p ->
  is_dir w p = match node_at w p with Some Dir => true | _ => false end.
Proof. intros Hp. unfold is_dir, sys_stat. now rewrite os_resolve_canonical. Qed.

Lemma is_file_node (w : Sys) (p : str) :
  canonical p ->
  is_file w p = match node_at w p with Some (File _) => true | _ => false end.
Proof. intros Hp. unfold is_file, sys_stat. now rewrite os_resolve_canonical. Qed.

Lemma assemble_not_root (toks : list str) (t : str) :
  forallb good_token (toks ++ [t]) = true -> assemble (toks ++ [t]) <> s "/".
Proof.
  intros Hall Heq. unfold assemble in Heq. injection Heq as Heq.
  apply (join_tokens_nonempty (toks ++ [t])); [now destruct toks|exact Hall|exact Heq].
Qed.

Lemma canonical_assemble (toks : list str) :
  forallb good_token toks = true -> canonical (assemble toks).
Proof. intros Hall. now exists toks. Qed.

Lemma good_snoc (toks : list str) (t : str) :
  forallb good_token toks = true -> good_token t = true ->
  forallb good_token (toks ++ [t]) = true.
Proof. intros H1 H2. rewrite forallb_app, H1. cbn. now rewrite H2. Qed.

Lemma node_at_not_root (w : Sys) (toks : list str) (t : str) :
  forallb good_token (toks ++ [t]) = true ->
  node_at w (assemble (toks ++ [t])) = sys_nodes w !! assemble (toks ++ [t]).
Proof.
  intros Hall. unfold node_at.
  now rewrite (proj2 (str_eqb_false _ _) (assemble_not_root toks t Hall)).
Qed.

Lemma os_dirname_child (toks : list str) (t : str) :
  forallb good_token (toks ++ [t]) = true ->
  os_dirname (assemble (toks ++ [t])) = assemble toks.
Proof.
  intros Hall. unfold os_dirname.
  replace (List.filter (fun t0 => negb (str_eqb t0 [])) (split_on SLASH (assemble (toks ++ [t]))))
    with (toks ++ [t]); [now rewrite removelast_last|].
  pose proof (tokenize_assemble (toks ++ [t]) Hall) as Htok.
  unfold tokenize, assemble in Htok. cbn [drop] in Htok. rewrite drop_0 in Htok.
  unfold assemble. cbn [split_on]. rewrite Ascii.eqb_refl. cbn [List.filter].
  change (str_eqb [] []) with true. cbn [negb].
  pose proof (proj1 (forallb_forall _ _) Hall) as Hgood.
  rewrite split_join_tokens.
  - symmetry. apply forallb_filter_id. apply forallb_forall. intros x Hx.
    apply Hgood, good_token_inv in Hx. apply negb_true_iff, str_eqb_false. tauto.
  - now destruct toks.
  - apply List.Forall_forall. intros x Hx. apply Hgood, good_token_inv in Hx. tauto.
Qed.

Lemma marker_path (toks : list str) (t m : str) :
  assemble (toks ++ [t]) ++ s "/" ++ m = assemble ((toks ++ [t]) ++ [m]).
Proof.
  unfold assemble. rewrite (join_tokens_snoc (toks ++ [t]) m) by now destruct toks.
  reflexivity.
Qed.

Lemma assemble_snoc_inj (toks : list str) (t m : str) :
  forallb good_token (toks ++ [t]) = true ->
  assemble ((toks ++ [t]) ++ [m]) <> assemble (toks ++ [t]).
Proof.
  intros Hall Heq. apply (f_equal (@length ascii)) in Heq.
  rewrite <- marker_path in Heq. change (s "/" ++ m) with (SLASH :: m) in Heq.
  rewrite length_app in Heq. cbn [length] in Heq. lia.
Qed.

Lemma below_starts_with (toks : list str) (t m : str) :
  starts_with (assemble ((toks ++ [t]) ++ [m])) (assemble (toks ++ [t]) ++ [SLASH]) = true.
Proof.
  rewrite <- marker_path. apply starts_with_prefix. exists m.
  rewrite <- app_assoc. reflexivity.
Qed.

Lemma nothing_below_lookup (w : Sys) (toks : list str) (t m : str) :
  nothing_below w (assemble (toks ++ [t])) ->
  sys_nodes w !! assemble ((toks ++ [t]) ++ [m]) = None.
Proof.
  intros Hnb. destruct (sys_nodes w !! _) as [n|] eqn:Hlook; [|reflexivity].
  apply Hnb in Hlook. cbn in Hlook. rewrite below_starts_with in Hlook. discriminate.
Qed.

(** ** System calls at canonical paths *)

Lemma sys_mkdir_child (w : Sys) (toks : list str) (t : str) :
  forallb good_token (toks ++ [t]) = true ->
  sys_mkdir w (assemble (toks ++ [t])) =
    match sys_nodes w !! assemble (toks ++ [t]), node_at w (assemble toks) with
    | None, Some Dir => Some (apply_event (EvMkdir (assemble (toks ++ [t]))) w)
    | _, _ => None
    end.
Proof.
  intros Hall. unfold sys_mkdir.
  rewrite os_resolve_canonical by now apply canonical_assemble.
  now rewrite node_at_not_root, os_dirname_child.
Qed.

Lemma sys_creat_write_child (w : Sys) (toks : list str) (t data : str) :
  forallb good_token (toks ++ [t]) = true ->
  sys_creat_write w (assemble (toks ++ [t])) data =
    let key := assemble (toks ++ [t]) in
    let written w := if str_eqb data [] then w else apply_event (EvWrite key data) w in
    match sys_nodes w !! key, node_at w (assemble toks) with
    | None, Some Dir => Some (written (apply_event (EvCreat key) w))
    | Some (File _), _ => Some (written w)
    | _, _ => None
    end.
Proof.
  intros Hall. unfold sys_creat_write.
  rewrite os_resolve_canonical by now apply canonical_assemble.
  now rewrite node_at_not_root, os_dirname_child.
Qed.

(** ** Creating a directory *)

Lemma create_dir_at (w : Sys) (toks : list str) (t : str) :
  forallb good_token (toks ++ [t]) = true ->
  let p := assemble (toks ++ [t]) in
  create_dir w p =
    Ret (match sys_nodes w !! p, node_at w (assemble toks) with
         | None, Some Dir => (Ok, apply_event (EvMkdir p) w)
         | _, _ => (UtilsError, w)
         end).
Proof.
  intros Hall p.
  assert (Hp : canonical p) by now apply canonical_assemble.
  unfold create_dir. rewrite (real_dir_canonical _ _ p Hp). cbn [bind].
  rewrite (is_dir_node w p Hp). unfold p. rewrite node_at_not_root by exact Hall.
  rewrite sys_mkdir_child by exact Hall.
  fold p. destruct (sys_nodes w !! p) as [[|d]|]; try reflexivity.
  destruct (node_at w (assemble toks)) as [[|d]|]; reflexivity.
Qed.

(** X20: [create_dir] on a canonical path succeeds exactly when nothing
    is at the path and its parent is a directory; it then makes the
    directory by one [mkdir], after which [is_dir] holds and a second
    [create_dir] fails. In every other case it fails and the file
    system is as before. *)
Theorem create_dir_once (w : Sys) (toks : list str) (t : str) :
  forallb good_token (toks ++ [t]) = true ->
  let p := assemble (toks ++ [t]) in
  (node_at w p = None -> node_at w (assemble toks) = Some Dir ->
   exists w',
     create_dir w p = Ret (Ok, w') /\
     w' = apply_event (EvMkdir p) w /\
     is_dir w' p = true /\
     create_dir w' p = Ret (UtilsError, w')) /\
  (node_at w p <> None \/ node_at w (assemble toks) <> Some Dir ->
   create_dir w p = Ret (UtilsError, w)).
Proof.
  intros Hall p.
  assert (Hp : canonical p) by now apply canonical_assemble.
  assert (Hnode : forall w0, node_at w0 p = sys_nodes w0 !! p)
    by (intros w0; now apply node_at_not_root).
  pose proof (fun w0 => create_dir_at w0 toks t Hall) as Hcreate. cbv zeta in Hcreate.
  fold p in Hcreate.
  split.
  - intros Hfree Hparent. rewrite Hnode in Hfree.
    exists (apply_event (EvMkdir p) w). rewrite !Hcreate, Hfree, Hparent.
    split; [reflexivity|]. split; [reflexivity|].
    assert (Hnew : sys_nodes (apply_event (EvMkdir p) w) !! p = Some Dir)
      by (cbn; apply lookup_insert_eq).
    split.
    + now rewrite (is_dir_node _ p Hp), Hnode, Hnew.
    + now rewrite Hnew.
  - intros Hbad. rewrite Hcreate. rewrite Hnode in Hbad.
    destruct (sys_nodes w !! p) as [[|d]|]; try reflexivity.
    destruct (node_at w (assemble toks)) as [[|d]|]; try reflexivity.
    destruct Hbad; congruence.
Qed.

Lemma create_dir_once_witness :
  (exists w',
     create_dir example_sys (s "/w/g") = Ret (Ok, w') /\
     w' = apply_event (EvMkdir (s "/w/g")) example_sys /\
     is_dir w' (s "/w/g") = true /\
     create_dir w' (s "/w/g") = Ret (UtilsError, w')) /\
  create_dir example_sys (s "/w/a") = Ret (UtilsError, example_sys) /\
  create_dir example_sys (s "/x/y") = Ret (UtilsError, example_sys).
Proof.
  split; [|split].
  - apply (proj1 (create_dir_once example_sys [s "w"] (s "g") eq_refl)); reflexivity.
  - apply (proj2 (create_dir_once example_sys [s "w"] (s "a") eq_refl)). left. discriminate.
  - apply (proj2 (create_dir_once example_sys [s "x"] (s "y") eq_refl)). right. discriminate.
Defined.

(** ** Creating workspaces and groups *)

Lemma parent_dir_child_tokens (w : Sys) (toks : list str) (t : str) :
  forallb good_token (toks ++ [t]) = true ->
  parent_dir (sys_cwd w) (sys_home w) (assemble (toks ++ [t])) =
    Ret (match toks with [] => [] | _ :: _ => assemble toks end).
Proof.
  intros Hall. rewrite forallb_app in Hall. apply andb_true_iff in Hall as [Htoks Ht].
  cbn in Ht. rewrite andb_true_r in Ht. now apply parent_dir_tokens.
Qed.

Lemma markers_good :
  good_token TILEDB_WORKSPACE_FILENAME = true /\ good_token TILEDB_GROUP_FILENAME = true /\
  good_token TILEDB_ARRAY_SCHEMA_FILENAME = true /\
  good_token TILEDB_METADATA_SCHEMA_FILENAME = true /\
  good_token TILEDB_SM_CONSOLIDATION_FILELOCK_NAME = true.
Proof. repeat split; reflexivity. Qed.

Lemma node_at_lookup (w : Sys) (q : str) : q <> s "/" -> node_at w q = sys_nodes w !! q.
Proof. intros Hq. unfold node_at. now rewrite (proj2 (str_eqb_false _ _) Hq). Qed.

(** A directory made by [create_dir] and then given a marker file. *)
Lemma mkdir_then_marker (w : Sys) (toks : list str) (t m : str) :
  forallb good_token (toks ++ [t]) = true -> good_token m = true ->
  let p := assemble (toks ++ [t]) in
  sys_nodes w !! p = None -> nothing_below w p -> node_at w (assemble toks) = Some Dir ->
  create_dir w p = Ret (Ok, apply_event (EvMkdir p) w) /\
  sys_creat_write (apply_event (EvMkdir p) w) (p ++ s "/" ++ m) [] =
    Some (replay [EvMkdir p; EvCreat (p ++ s "/" ++ m)] w) /\
  is_dir (replay [EvMkdir p; EvCreat (p ++ s "/" ++ m)] w) p = true /\
  is_file (replay [EvMkdir p; EvCreat (p ++ s "/" ++ m)] w) (p ++ s "/" ++ m) = true.
Proof.
  intros Hall Hm p Hfree Hbelow Hparent.
  assert (Hall2 : forallb good_token ((toks ++ [t]) ++ [m]) = true) by now apply good_snoc.
  assert (Hp : canonical p) by now apply canonical_assemble.
  assert (Hf : canonical (p ++ s "/" ++ m)).
  { unfold p. rewrite marker_path. now apply canonical_assemble. }
  split.
  { unfold p. rewrite (create_dir_at w toks t Hall). fold p. now rewrite Hfree, Hparent. }
  assert (Hwrite : sys_creat_write (apply_event (EvMkdir p) w) (p ++ s "/" ++ m) [] =
                   Some (replay [EvMkdir p; EvCreat (p ++ s "/" ++ m)] w)).
  { unfold p. rewrite marker_path, sys_creat_write_child by exact Hall2.
    cbn [apply_event sys_nodes event_nodes]. fold p.
    rewrite lookup_insert_ne by (apply not_eq_sym, assemble_snoc_inj; exact Hall).
    unfold p. rewrite (nothing_below_lookup w toks t m Hbelow).
    rewrite node_at_not_root by exact Hall.
    cbn [apply_event sys_nodes event_nodes]. rewrite lookup_insert_eq.
    reflexivity. }
  split; [exact Hwrite|].
  assert (Hnodes : sys_nodes (replay [EvMkdir p; EvCreat (p ++ s "/" ++ m)] w) =
                   <[p ++ s "/" ++ m := File []]> (<[p := Dir]> (sys_nodes w))) by reflexivity.
  assert (Hne : p ++ s "/" ++ m <> p).
  { unfold p. rewrite marker_path. apply assemble_snoc_inj. exact Hall. }
  assert (Hproot : p <> s "/") by (unfold p; now apply assemble_not_root).
  assert (Hfroot : p ++ s "/" ++ m <> s "/").
  { unfold p. rewrite marker_path. now apply assemble_not_root. }
  split.
  - rewrite (is_dir_node _ p Hp), node_at_lookup by exact Hproot.
    rewrite Hnodes, lookup_insert_ne by exact Hne.
    now rewrite lookup_insert_eq.
  - rewrite (is_file_node _ _ Hf), node_at_lookup by exact Hfroot.
    now rewrite Hnodes, lookup_insert_eq.
Qed.

(** X21: on a free canonical path whose parent is a directory,
    [workspace_create] succeeds when the parent is the root or is no
    TileDB object, and [group_create] succeeds when the parent is a
    workspace or a group. Each makes the directory, then its marker
    file, and nothing else, and the result is a workspace, respectively
    a group. *)
Theorem workspace_and_group_create_succeed (w : Sys) (toks : list str) (t : str) :
  forallb good_token (toks ++ [t]) = true ->
  let p := assemble (toks ++ [t]) in
  sys_nodes w !! p = None -> nothing_below w p -> node_at w (assemble toks) = Some Dir ->
  (toks = [] \/
   is_workspace w (assemble toks) || is_group w (assemble toks) ||
   is_array w (assemble toks) || is_metadata w (assemble toks) = false ->
   let w' := replay [EvMkdir p; EvCreat (p ++ s "/" ++ TILEDB_WORKSPACE_FILENAME)] w in
   workspace_create w p = Ret (Ok, w') /\ is_workspace w' p = true) /\
  (toks <> [] ->
   is_workspace w (assemble toks) || is_group w (assemble toks) = true ->
   let w' := replay [EvMkdir p; EvCreat (p ++ s "/" ++ TILEDB_GROUP_FILENAME)] w in
   group_create w p = Ret (Ok, w') /\ is_group w' p = true).
Proof.
  intros Hall p Hfree Hbelow Hparent.
  pose proof (parent_dir_child_tokens w toks t Hall) as Hpd. fold p in Hpd.
  destruct markers_good as (Hws & Hgr & _).
  split.
  - intros Hkind w'.
    destruct (mkdir_then_marker w toks t TILEDB_WORKSPACE_FILENAME Hall Hws Hfree Hbelow Hparent)
      as (Hmk & Hwr & Hdir & Hfile). fold p in Hmk, Hwr, Hdir, Hfile. fold w' in Hwr, Hdir, Hfile.
    split; [|unfold is_workspace; now rewrite Hdir, Hfile].
    unfold workspace_create. rewrite Hpd. cbn [bind].
    assert (Hnone : forall parent,
              parent = match toks with [] => [] | _ :: _ => assemble toks end ->
              is_workspace w parent || is_group w parent ||
              is_array w parent || is_metadata w parent = false).
    { intros parent ->. destruct toks as [|t0 rest].
      - destruct (no_entity_at_empty_name w) as (-> & -> & -> & ->). reflexivity.
      - destruct Hkind as [?|Hkind]; [discriminate|exact Hkind]. }
    rewrite (Hnone _ eq_refl).
    rewrite Hmk. cbn [bind ok negb].
    unfold create_workspace_file. now rewrite Hwr.
  - intros Hne Hkind w'.
    destruct (mkdir_then_marker w toks t TILEDB_GROUP_FILENAME Hall Hgr Hfree Hbelow Hparent)
      as (Hmk & Hwr & Hdir & Hfile). fold p in Hmk, Hwr, Hdir, Hfile. fold w' in Hwr, Hdir, Hfile.
    split; [|unfold is_group; now rewrite Hdir, Hfile].
    unfold group_create. rewrite Hpd. cbn [bind].
    destruct toks as [|t0 rest]; [contradiction|].
    apply orb_true_iff in Hkind.
    assert (Hgate : negb (is_workspace w (assemble (t0 :: rest))) &&
                    negb (is_group w (assemble (t0 :: rest))) = false).
    { destruct Hkind as [-> | ->]; [reflexivity|apply andb_false_r]. }
    rewrite Hgate, Hmk. cbn [bind ok negb].
    unfold create_group_file. now rewrite Hwr.
Qed.

(** ** Creating an array, and loading its schema back *)

(** X22: creating an array and loading its schema back. On a free
    canonical path inside a workspace or group, [array_create] succeeds
    when the schema initialises and serialises; afterwards the path is
    an array with its lock file, the schema file holds exactly the
    serialised bytes, and [array_load_schema] hands those bytes to the
    deserialiser (or reports the empty schema file when there are
    none). *)
Theorem array_create_then_load
  {ArraySchemaC : Type} (init : ArraySchemaC -> Status * ArraySchema) (eng : Engine)
  (w : Sys) (c : ArraySchemaC) (schema : ArraySchema) (bin : str) (toks : list str) (t : str) :
  forallb good_token (toks ++ [t]) = true -> toks <> [] ->
  let p := assemble (toks ++ [t]) in
  init c = (Ok, schema) -> array_name schema = p -> serialize schema = (Ok, bin) ->
  is_workspace w (assemble toks) || is_group w (assemble toks) = true ->
  sys_nodes w !! p = None -> nothing_below w p ->
  exists w',
    array_create init w c = Ret (Ok, w') /\
    is_array w' p = true /\
    is_file w' (p ++ s "/" ++ TILEDB_SM_CONSOLIDATION_FILELOCK_NAME) = true /\
    sys_stat w' (p ++ s "/" ++ TILEDB_ARRAY_SCHEMA_FILENAME) = Some (File bin) /\
    array_load_schema eng w' p =
      Ret (if (length bin =? 0)%nat
           then (StorageManagerError (s "Cannot load array schema; Empty array schema file"), None)
           else let '(st, loaded) := schema_deserialize eng bin in
                if negb (ok st) then (st, None) else (Ok, Some loaded)).
Proof.
  intros Hall Hne p Hinit Hname Hser Hkind Hfree Hbelow.
  destruct markers_good as (_ & _ & Hsch & _ & Hlock).
  set (f := p ++ s "/" ++ TILEDB_ARRAY_SCHEMA_FILENAME).
  set (l := p ++ s "/" ++ TILEDB_SM_CONSOLIDATION_FILELOCK_NAME).
  assert (Hparent : node_at w (assemble toks) = Some Dir).
  { assert (Hdir : is_dir w (assemble toks) = true).
    { apply orb_true_iff in Hkind as [H|H]; apply andb_true_iff in H; tauto. }
    rewrite is_dir_node in Hdir.
    - destruct (node_at w (assemble toks)) as [[|d]|]; congruence.
    - apply canonical_assemble. rewrite forallb_app in Hall. now apply andb_true_iff in Hall. }
  destruct (mkdir_then_marker w toks t TILEDB_ARRAY_SCHEMA_FILENAME Hall Hsch Hfree Hbelow Hparent)
    as (Hmk & Hwr & _ & _). fold p in Hmk, Hwr. fold f in Hwr.
  assert (Hall_f : forallb good_token ((toks ++ [t]) ++ [TILEDB_ARRAY_SCHEMA_FILENAME]) = true)
    by now apply good_snoc.
  assert (Hall_l : forallb good_token ((toks ++ [t]) ++ [TILEDB_SM_CONSOLIDATION_FILELOCK_NAME]) = true)
    by now apply good_snoc.
  assert (Ef : f = assemble ((toks ++ [t]) ++ [TILEDB_ARRAY_SCHEMA_FILENAME]))
    by apply marker_path.
  assert (El : l = assemble ((toks ++ [t]) ++ [TILEDB_SM_CONSOLIDATION_FILELOCK_NAME]))
    by apply marker_path.
  assert (Hp : canonical p) by now apply canonical_assemble.
  assert (Hf : canonical f) by (rewrite Ef; now apply canonical_assemble).
  assert (Hl : canonical l) by (rewrite El; now apply canonical_assemble).
  assert (Hproot : p <> s "/") by (unfold p; now apply assemble_not_root).
  assert (Hfroot : f <> s "/") by (rewrite Ef; now apply assemble_not_root).
  assert (Hlroot : l <> s "/") by (rewrite El; now apply assemble_not_root).
  assert (Hfp : f <> p) by (rewrite Ef; apply assemble_snoc_inj; exact Hall).
  assert (Hlp : l <> p) by (rewrite El; apply assemble_snoc_inj; exact Hall).
  assert (Hlf : l <> f).
  { unfold l, f. intros Heq. apply app_inv_head in Heq. apply app_inv_head in Heq. discriminate. }
  set (w1 := apply_event (EvMkdir p) w) in *.
  set (w2 := replay [EvMkdir p; EvCreat f] w) in *.
  set (w3 := if str_eqb bin [] then w2 else apply_event (EvWrite f bin) w2).
  set (w4 := apply_event (EvCreat l) w3).
  assert (N2 : sys_nodes w2 = <[f := File []]> (<[p := Dir]> (sys_nodes w))) by reflexivity.
  assert (N3 : sys_nodes w3 = <[f := File bin]> (<[p := Dir]> (sys_nodes w))).
  { unfold w3. destruct (str_eqb bin []) eqn:Ebin.
    - apply str_eqb_true in Ebin. subst bin. exact N2.
    - cbn [apply_event sys_nodes event_nodes]. rewrite N2, lookup_insert_eq.
      cbn [length drop]. rewrite drop_nil, app_nil_r. apply insert_insert_eq. }
  assert (N4 : sys_nodes w4 = <[l := File []]> (<[f := File bin]> (<[p := Dir]> (sys_nodes w))))
    by (unfold w4; cbn [apply_event sys_nodes event_nodes]; now rewrite N3).
  assert (Hstore : array_store_schema w1 p schema = (Ok, w3)).
  { unfold array_store_schema. fold f.
    assert (Hrm : sys_remove w1 f = None).
    { unfold sys_remove. rewrite (os_resolve_canonical w1 f Hf).
      unfold w1. cbn [apply_event sys_nodes event_nodes].
      rewrite lookup_insert_ne by (apply not_eq_sym; exact Hfp).
      rewrite Ef. unfold p in Hbelow. now rewrite (nothing_below_lookup w toks t _ Hbelow). }
    rewrite Hrm, Hwr, Hser. cbn [ok negb].
    rewrite Ef, sys_creat_write_child by exact Hall_f. rewrite <- Ef.
    cbv zeta. rewrite N2, lookup_insert_eq. reflexivity. }
  assert (Hlockfile : consolidation_filelock_create w3 p = (Ok, w4)).
  { unfold consolidation_filelock_create. fold l.
    rewrite El, sys_creat_write_child by exact Hall_l. rewrite <- El. cbv zeta.
    rewrite N3, lookup_insert_ne, lookup_insert_ne by congruence.
    rewrite El. unfold p in Hbelow. rewrite (nothing_below_lookup w toks t _ Hbelow).
    rewrite node_at_lookup by exact Hproot. fold p.
    rewrite N3, lookup_insert_ne, lookup_insert_eq by exact Hfp.
    rewrite <- El. reflexivity. }
  exists w4.
  assert (Hdir4 : is_dir w4 p = true).
  { rewrite (is_dir_node w4 p Hp), node_at_lookup by exact Hproot.
    rewrite N4, !lookup_insert_ne by congruence. now rewrite lookup_insert_eq. }
  assert (Hstat : sys_stat w4 f = Some (File bin)).
  { unfold sys_stat. rewrite (os_resolve_canonical w4 f Hf), node_at_lookup by exact Hfroot.
    rewrite N4, lookup_insert_ne by congruence. apply lookup_insert_eq. }
  assert (Hisarr : is_array w4 p = true).
  { unfold is_array. fold f. rewrite Hdir4. unfold is_file. now rewrite Hstat. }
  split; [|split; [exact Hisarr|split; [|split; [exact Hstat|]]]].
  - unfold array_create. rewrite Hinit. cbn [ok negb]. rewrite Hname.
    unfold p. rewrite (parent_dir_child_tokens w toks t Hall). cbn [bind].
    destruct toks as [|t0 rest]; [contradiction|].
    apply orb_true_iff in Hkind.
    assert (Hgate : negb (is_workspace w (assemble (t0 :: rest))) &&
                    negb (is_group w (assemble (t0 :: rest))) = false).
    { destruct Hkind as [-> | ->]; [reflexivity|apply andb_false_r]. }
    rewrite Hgate. unfold array_create_schema. rewrite Hname. fold p.
    rewrite Hmk. cbn [bind ok negb]. fold w1. rewrite Hstore. cbn [ok negb].
    now rewrite Hlockfile.
  - rewrite (is_file_node w4 l Hl), node_at_lookup by exact Hlroot.
    now rewrite N4, lookup_insert_eq.
  - unfold array_load_schema. rewrite (real_dir_canonical _ _ p Hp). cbn [bind].
    rewrite Hisarr. cbn [negb]. fold f. unfold load_schema_file. rewrite Hstat.
    destruct (length bin =? 0)%nat; reflexivity.
Qed.

Lemma example_nothing_below (p : str) :
  bool_decide (nothing_below example_sys p) = true -> nothing_below example_sys p.
Proof. apply bool_decide_eq_true_1. Qed.

Lemma workspace_and_group_create_succeed_witness :
  (let p := s "/v" in
   let w' := replay [EvMkdir p; EvCreat (p ++ s "/" ++ TILEDB_WORKSPACE_FILENAME)] example_sys in
   workspace_create example_sys p = Ret (Ok, w') /\ is_workspace w' p = true) /\
  (let p := s "/w/g" in
   let w' := replay [EvMkdir p; EvCreat (p ++ s "/" ++ TILEDB_GROUP_FILENAME)] example_sys in
   group_create example_sys p = Ret (Ok, w') /\ is_group w' p = true).
Proof.
  split.
  - apply (proj1 (workspace_and_group_create_succeed example_sys [] (s "v") eq_refl eq_refl
                    (example_nothing_below (s "/v") eq_refl) eq_refl)).
    now left.
  - apply (proj2 (workspace_and_group_create_succeed example_sys [s "w"] (s "g") eq_refl eq_refl
                    (example_nothing_below (s "/w/g") eq_refl) eq_refl)).
    + discriminate.
    + reflexivity.
Defined.

Lemma array_create_then_load_witness :
  let schema := mkArraySchema (s "/w/b") (Ok, s "schema") in
  exists w',
    array_create (fun _ : unit => (Ok, schema)) example_sys tt = Ret (Ok, w') /\
    is_array w' (s "/w/b") = true /\
    is_file w' (s "/w/b" ++ s "/" ++ TILEDB_SM_CONSOLIDATION_FILELOCK_NAME) = true /\
    sys_stat w' (s "/w/b" ++ s "/" ++ TILEDB_ARRAY_SCHEMA_FILENAME) = Some (File (s "schema")) /\
    array_load_schema (example_engine (s "/w/a/__u3_3")) w' (s "/w/b") =
      Ret (if (length (s "schema") =? 0)%nat
           then (StorageManagerError (s "Cannot load array schema; Empty array schema file"), None)
           else let '(st, loaded) := schema_deserialize (example_engine (s "/w/a/__u3_3")) (s "schema") in
                if negb (ok st) then (st, None) else (Ok, Some loaded)).
Proof.
  intros schema.
  apply (array_create_then_load (fun _ : unit => (Ok, schema)) (example_engine (s "/w/a/__u3_3"))
           example_sys tt schema (s "schema") [s "w"] (s "b")).
  - reflexivity.
  - discriminate.
  - reflexivity.
  - reflexivity.
  - reflexivity.
  - vm_compute. reflexivity.
  - reflexivity.
  - apply example_nothing_below. vm_compute. reflexivity.
Defined.

(** ** Closing: what is left alone *)

(** X23: what [array_close] leaves alone. The entries of the other
    arrays and the files are never touched; closing an array that has
    no entry is an error that leaves the entries of the registry and
    the state of the system as they were; and an entry that is still in
    the registry afterwards is the old one, or the old one with its
    count decremented by one. The mutexes are outside this statement:
    the state holds no lock of theirs. *)
Theorem array_close_frame
  (mx : Pthread) (sm sm' : StorageManager) (w w' : Sys) (array key : str) (st : Status) :
  real_dir (sys_cwd w) (sys_home w) array = Ret key ->
  array_close mx sm w array = Ret (st, sm', w') ->
  (forall q, q <> key -> open_arrays_ sm' !! q = open_arrays_ sm !! q) /\
  sys_nodes w' = sys_nodes w /\
  (open_arrays_ sm !! key = None ->
   ok st = false /\ open_arrays_ sm' = open_arrays_ sm /\ w' = w) /\
  (forall e, open_arrays_ sm' !! key = Some e ->
             exists e0, open_arrays_ sm !! key = Some e0 /\
                        (e = e0 \/ e = set_cnt (cnt_ e0 - 1) e0)).
Proof.
  intros Hreal Hrun. unfold array_close in Hrun.
  destruct (ok (registry_mtx_lock mx)) eqn:Elock; cbn [negb] in Hrun.
  2:{ injection Hrun as <- <- <-.
      split; [reflexivity|]. split; [reflexivity|]. split; [now intros _|].
      intros e He. exists e. split; [exact He|now left]. }
  rewrite Hreal in Hrun. cbn [bind] in Hrun.
  destruct (open_arrays_ sm !! key) as [e0|] eqn:Hentry.
  2:{ injection Hrun as <- <- <-.
      split; [reflexivity|]. split; [reflexivity|]. split; [now intros _|].
      intros e He. congruence. }
  destruct (ok (entry_mtx_lock mx)) eqn:Eelock; cbn [negb] in Hrun.
  2:{ injection Hrun as <- <- <-.
      split; [reflexivity|]. split; [reflexivity|]. split; [discriminate|].
      intros e He. exists e0. split; [reflexivity|]. left. congruence. }
  destruct (cnt_ (set_cnt (cnt_ e0 - 1) e0) =? 0).
  - unfold consolidation_filelock_unlock in Hrun.
    destruct (sys_close w (consolidation_filelock_ (set_cnt (cnt_ e0 - 1) e0))) as [wc|] eqn:Eclose.
    + assert (Hnodes : sys_nodes wc = sys_nodes w).
      { unfold sys_close in Eclose. destruct (sys_fds w !! _); [|discriminate].
        now injection Eclose as <-. }
      destruct (ok (entry_mtx_destroy mx)), (ok (registry_mtx_unlock mx));
        cbn [negb ok] in Hrun; injection Hrun as <- <- <-; cbn [open_arrays_];
        (split; [intros q Hq; now apply lookup_delete_ne|]);
        (split; [exact Hnodes|]); (split; [discriminate|]);
        intros e He; rewrite lookup_delete_eq in He; discriminate.
    + destruct (ok (entry_mtx_destroy mx)), (ok (registry_mtx_unlock mx));
        cbn [negb ok] in Hrun; injection Hrun as <- <- <-; cbn [open_arrays_];
        (split; [intros q Hq; now apply lookup_delete_ne|]);
        (split; [reflexivity|]); (split; [discriminate|]);
        intros e He; rewrite lookup_delete_eq in He; discriminate.
  - destruct (ok (entry_mtx_unlock mx)), (ok (registry_mtx_unlock mx));
      cbn [negb] in Hrun; injection Hrun as <- <- <-; cbn [open_arrays_];
      (split; [intros q Hq; now apply lookup_insert_ne|]);
      (split; [reflexivity|]); (split; [discriminate|]);
      intros e He; rewrite lookup_insert_eq in He; injection He as <-;
      exists e0; (split; [reflexivity|now right]).
Qed.

Lemma array_close_frame_witness :
  (let sm := mkStorageManager (<[s "/w/a" := mkOpenArray 2 (-1) [] [] None]> ∅) in
   exists sm',
     array_close pthread_ok sm example_sys (s "/w/a/") = Ret (Ok, sm', example_sys) /\
     (forall q, q <> s "/w/a" -> open_arrays_ sm' !! q = open_arrays_ sm !! q) /\
     (forall e, open_arrays_ sm' !! s "/w/a" = Some e ->
                exists e0, open_arrays_ sm !! s "/w/a" = Some e0 /\
                           (e = e0 \/ e = set_cnt (cnt_ e0 - 1) e0))) /\
  (let sm := mkStorageManager ∅ in
   exists st sm' w',
     array_close pthread_ok sm example_sys (s "/w/a/") = Ret (st, sm', w') /\
     ok st = false /\ open_arrays_ sm' = open_arrays_ sm /\ w' = example_sys).
Proof.
  split.
  - intros sm.
    assert (Hrun : exists sm',
               array_close pthread_ok sm example_sys (s "/w/a/") = Ret (Ok, sm', example_sys)).
    { eexists. unfold array_close. cbn [pthread_ok registry_mtx_lock ok negb].
      change (real_dir (sys_cwd example_sys) (sys_home example_sys) (s "/w/a/"))
        with (@Ret str (s "/w/a")).
      cbn [bind]. unfold sm at 1. cbn [open_arrays_]. rewrite lookup_insert_eq. reflexivity. }
    destruct Hrun as (sm' & Hrun). exists sm'. split; [exact Hrun|].
    destruct (array_close_frame pthread_ok sm sm' example_sys example_sys (s "/w/a/") (s "/w/a")
                Ok eq_refl Hrun) as (Hothers & _ & _ & Hentry).
    now split.
  - intros sm.
    assert (Hrun : exists st sm' w',
               array_close pthread_ok sm example_sys (s "/w/a/") = Ret (st, sm', w')).
    { do 3 eexists. unfold array_close. cbn [pthread_ok registry_mtx_lock ok negb].
      change (real_dir (sys_cwd example_sys) (sys_home example_sys) (s "/w/a/"))
        with (@Ret str (s "/w/a")).
      cbn [bind]. unfold sm. cbn [open_arrays_]. rewrite lookup_empty. reflexivity. }
    destruct Hrun as (st & sm' & w' & Hrun). exists st, sm', w'. split; [exact Hrun|].
    destruct (array_close_frame pthread_ok sm sm' example_sys w' (s "/w/a/") (s "/w/a")
                st eq_refl Hrun) as (_ & _ & Hnone & _).
    now apply Hnone.
Defined.

(** ** Opening an array that has an entry *)

Lemma filelock_lock_result (w w1 : Sys) (name : str) (fd fd' : Z) (l : sm_lock_type) (st : Status) :
  (l = TILEDB_SM_SHARED_LOCK \/ l = TILEDB_SM_EXCLUSIVE_LOCK) ->
  consolidation_filelock_lock w name fd l = Ret (st, fd', w1) ->
  (fd' = -1 /\ w1 = w /\ ok st = false) \/
  (fd' = sys_next_fd w /\ sys_nodes w1 = sys_nodes w /\
   sys_cwd w1 = sys_cwd w /\ sys_home w1 = sys_home w /\
   exists key, sys_fds w1 = <[fd' := key]> (sys_fds w)).
Proof.
  unfold consolidation_filelock_lock.
  intros [-> | ->].
  all: destruct (real_dir _ _ name) as [real|]; [|discriminate]; cbn [bind];
    unfold sys_open_rdwr;
    destruct (os_resolve w _) as [key|]; [|intros [= <- <- <-]; now left];
    destruct (node_at w key) as [[|d]|]; try (intros [= <- <- <-]; now left);
    destruct (Z.eqb_spec (sys_next_fd w) (-1)) as [Hm|Hm];
      [intros [= <- <- <-]; right; repeat (split; [reflexivity|]); now exists key|];
    unfold sys_setlkw; cbn [apply_event sys_fds event_fds]; rewrite lookup_insert_eq;
    intros [= <- <- <-]; right; repeat (split; [reflexivity|]); now exists key.
Qed.

(** X24: opening an array that is already in the registry. When the
    entry lists fragments, [array_open] only increments its count: no
    system call is made. When the entry lists none (an array without
    fragments), the array is treated as opened for the first time: the
    lock file is opened again, the entry takes the new descriptor, and
    the old descriptor stays open, no longer referred to. *)
Theorem array_open_existing_entry
  (eng : Engine) (sm : StorageManager) (w : Sys) (p : str) (e : OpenArray) (mode : ArrayMode) :
  open_arrays_ sm !! p = Some e ->
  (fragment_names_ e <> [] ->
   array_open pthread_ok eng sm w p mode =
     Ret (Ok, mkStorageManager (<[p := set_cnt (cnt_ e + 1) e]> (open_arrays_ sm)), w)) /\
  (fragment_names_ e = [] ->
   forall st sm' w' f,
     array_open pthread_ok eng sm w p mode = Ret (st, sm', w') ->
     sys_fds w !! consolidation_filelock_ e = Some f ->
     0 <= consolidation_filelock_ e < sys_next_fd w ->
     exists e',
       open_arrays_ sm' !! p = Some e' /\
       cnt_ e' = cnt_ e + 1 /\
       consolidation_filelock_ e' <> consolidation_filelock_ e /\
       sys_fds w' !! consolidation_filelock_ e = Some f).
Proof.
  intros Hentry. split.
  - intros Hnames. unfold array_open. rewrite (open_existing sm p e Hentry).
    cbn [ok negb pthread_ok entry_mtx_lock entry_mtx_unlock open_arrays_].
    rewrite lookup_insert_eq. cbn [set_cnt fragment_names_].
    destruct (fragment_names_ e); [contradiction|reflexivity].
  - intros Hnames st sm' w' f Hrun Hfd Hrange. unfold array_open in Hrun.
    rewrite (open_existing sm p e Hentry) in Hrun.
    cbn [ok negb pthread_ok entry_mtx_lock entry_mtx_unlock open_arrays_] in Hrun.
    rewrite lookup_insert_eq in Hrun. cbn [set_cnt fragment_names_ consolidation_filelock_] in Hrun.
    rewrite Hnames in Hrun. cbn [length Nat.eqb] in Hrun.
    destruct (consolidation_filelock_lock w p (consolidation_filelock_ e) TILEDB_SM_SHARED_LOCK)
      as [[[st_l fd'] w1]|] eqn:Elock; [|discriminate].
    cbn [bind] in Hrun.
    assert (Hfacts : fd' <> consolidation_filelock_ e /\
                     sys_fds w1 !! consolidation_filelock_ e = Some f /\
                     (ok st_l = true -> True)).
    { destruct (filelock_lock_result _ _ _ _ _ _ _ ltac:(now left) Elock)
        as [(-> & -> & _)|(-> & _ & _ & _ & key & Hfds)].
      - split; [lia|now split].
      - split; [lia|]. split; [|trivial]. rewrite Hfds, lookup_insert_ne by lia. exact Hfd. }
    destruct Hfacts as (Hnew & Hkept & _).
    assert (Hdone : forall smx,
              (exists e', open_arrays_ smx !! p = Some e' /\ cnt_ e' = cnt_ e + 1 /\
                          consolidation_filelock_ e' = fd') ->
              exists e', open_arrays_ smx !! p = Some e' /\ cnt_ e' = cnt_ e + 1 /\
                         consolidation_filelock_ e' <> consolidation_filelock_ e /\
                         sys_fds w1 !! consolidation_filelock_ e = Some f).
    { intros smx (e' & H1 & H2 & H3). exists e'. rewrite H3. now repeat split. }
    destruct (ok st_l); cbn [negb] in Hrun.
    2:{ injection Hrun as <- <- <-. apply Hdone. eexists. split.
        - cbn [update_entry open_arrays_]. rewrite lookup_alter_eq, lookup_insert_eq. reflexivity.
        - now split. }
    destruct (array_get_fragment_names w1 (t_uninit eng) p) as [names|]; [|discriminate].
    cbn [bind] in Hrun.
    destruct (if is_array w1 p then array_load_schema eng w1 p else metadata_load_schema eng w1 p)
      as [[st_s schema]|]; [|discriminate].
    cbn [bind] in Hrun.
    destruct (ok st_s); cbn [negb] in Hrun.
    2:{ injection Hrun as <- <- <-. apply Hdone. eexists. split.
        - cbn [update_entry open_arrays_]. rewrite !lookup_alter_eq, lookup_insert_eq. reflexivity.
        - now split. }
    destruct (array_load_book_keeping eng w1 names) as [st_b bks].
    destruct (ok st_b); cbn [negb] in Hrun.
    2:{ injection Hrun as <- <- <-. apply Hdone. eexists. split.
        - cbn [update_entry open_arrays_]. rewrite !lookup_alter_eq, lookup_insert_eq. reflexivity.
        - now split. }
    injection Hrun as <- <- <-. apply Hdone. eexists. split.
    + cbn [update_entry open_arrays_]. rewrite !lookup_alter_eq, lookup_insert_eq. reflexivity.
    + now split.
Qed.

Lemma array_open_existing_entry_witness :
  let eng := example_engine (s "/w/a/__u3_3") in
  let w := apply_event (EvOpen 3 (s "/w/a/__consolidation_lock")) example_sys in
  (let e := mkOpenArray 1 3 [s "/w/a/__u1_2"] [] None in
   let sm := mkStorageManager (<[s "/w/a" := e]> ∅) in
   array_open pthread_ok eng sm w (s "/w/a") READ =
     Ret (Ok, mkStorageManager (<[s "/w/a" := set_cnt 2 e]> (open_arrays_ sm)), w)) /\
  (let e := mkOpenArray 1 3 [] [] None in
   let sm := mkStorageManager (<[s "/w/a" := e]> ∅) in
   exists st sm' w' e',
     array_open pthread_ok eng sm w (s "/w/a") READ = Ret (st, sm', w') /\
     open_arrays_ sm' !! s "/w/a" = Some e' /\
     cnt_ e' = 2 /\
     consolidation_filelock_ e' <> 3 /\
     sys_fds w' !! 3 = Some (s "/w/a/__consolidation_lock")).
Proof.
  intros eng w. split.
  - intros e sm.
    apply (proj1 (array_open_existing_entry eng sm w (s "/w/a") e READ (lookup_insert_eq _ _ _))).
    discriminate.
  - intros e sm.
    assert (Hrun : exists st sm' w',
               array_open pthread_ok eng sm w (s "/w/a") READ = Ret (st, sm', w')).
    { do 3 eexists. vm_compute. reflexivity. }
    destruct Hrun as (st & sm' & w' & Hrun).
    destruct (proj2 (array_open_existing_entry eng sm w (s "/w/a") e READ
                       (lookup_insert_eq _ _ _)) eq_refl st sm' w'
                (s "/w/a/__consolidation_lock") Hrun eq_refl)
      as (e' & Hlook & Hcnt & Hfd & Hold).
    + split; [discriminate|reflexivity].
    + exists st, sm', w', e'. split; [exact Hrun|]. split; [exact Hlook|].
      split; [exact Hcnt|]. split; [exact Hfd|exact Hold].
Defined.

(** ** Initialising an array for reading, then finalizing it *)

Lemma array_open_fresh_ok
  (eng : Engine) (sm sm1 : StorageManager) (w w1 : Sys) (p : str) (st : Status) :
  open_arrays_ sm !! p = None ->
  array_open pthread_ok eng sm w p READ = Ret (st, sm1, w1) -> ok st = true ->
  exists e key,
    open_arrays_ sm1 = <[p := e]> (open_arrays_ sm) /\
    cnt_ e = 1 /\ consolidation_filelock_ e = sys_next_fd w /\
    sys_fds w1 = <[sys_next_fd w := key]> (sys_fds w) /\
    sys_nodes w1 = sys_nodes w /\ sys_cwd w1 = sys_cwd w /\ sys_home w1 = sys_home w.
Proof.
  intros Hnone Hrun Hok. unfold array_open in Hrun.
  rewrite (open_fresh sm p Hnone) in Hrun.
  cbn [ok negb pthread_ok entry_mtx_lock entry_mtx_unlock open_arrays_] in Hrun.
  rewrite lookup_insert_eq in Hrun.
  cbn [fragment_names_ consolidation_filelock_ length Nat.eqb] in Hrun.
  destruct (consolidation_filelock_lock w p (-1) TILEDB_SM_SHARED_LOCK)
    as [[[st_l fd'] wl]|] eqn:Elock; [|discriminate].
  cbn [bind] in Hrun.
  destruct (ok st_l) eqn:Ekl; cbn [negb] in Hrun.
  2:{ injection Hrun as <- <- <-. congruence. }
  destruct (filelock_lock_result _ _ _ _ _ _ _ ltac:(now left) Elock)
    as [(_ & _ & Hbad)|(-> & Hnodes & Hcwd & Hhome & key & Hfds)]; [congruence|].
  assert (Hdone : forall bks schema names,
            exists e key0,
              alter (fun e0 => mkOpenArray (cnt_ e0) (consolidation_filelock_ e0)
                                 (fragment_names_ e0) bks schema) p
                (alter (fun e0 => mkOpenArray (cnt_ e0) (consolidation_filelock_ e0) names
                                    (book_keeping_ e0) (array_schema_ e0)) p
                   (alter (fun e0 => mkOpenArray (cnt_ e0) (sys_next_fd w) (fragment_names_ e0)
                                       (book_keeping_ e0) (array_schema_ e0)) p
                      (<[p := mkOpenArray 1 (-1) [] [] None]> (open_arrays_ sm)))) =
              <[p := e]> (open_arrays_ sm) /\
              cnt_ e = 1 /\ consolidation_filelock_ e = sys_next_fd w /\
              sys_fds wl = <[sys_next_fd w := key0]> (sys_fds w) /\
              sys_nodes wl = sys_nodes w /\ sys_cwd wl = sys_cwd w /\ sys_home wl = sys_home w).
  { intros bks schema names. eexists. exists key.
    split; [rewrite !alter_insert_eq; reflexivity|]. now repeat split. }
  destruct (array_get_fragment_names wl (t_uninit eng) p) as [names|]; [|discriminate].
  cbn [bind] in Hrun.
  destruct (if is_array wl p then array_load_schema eng wl p else metadata_load_schema eng wl p)
    as [[st_s schema]|]; [|discriminate].
  cbn [bind] in Hrun.
  destruct (ok st_s) eqn:Eks; cbn [negb] in Hrun.
  2:{ injection Hrun as <- <- <-. congruence. }
  destruct (array_load_book_keeping eng wl names) as [st_b bks].
  destruct (ok st_b) eqn:Ekb; cbn [negb] in Hrun.
  2:{ injection Hrun as <- <- <-. congruence. }
  injection Hrun as <- <- <-. cbn [update_entry open_arrays_]. apply Hdone.
Qed.

(** X25: [array_init] in read mode followed by [array_finalize]. After a
    successful [array_init] of an array that had no entry, the registry
    holds the array with count 1 and an open lock descriptor; when the
    array object finalises without touching the descriptors,
    [array_finalize] returns Ok and the registry and the descriptor
    table are what they were before [array_init]. *)
Theorem array_init_finalize_round_trip
  (eng : Engine) (sm sm1 : StorageManager) (w w1 w2 : Sys) (p : str) (a : Array) :
  canonical p ->
  open_arrays_ sm !! p = None ->
  sys_fds w !! sys_next_fd w = None ->
  array_init pthread_ok eng sm w p READ = Ret (Ok, Some a, sm1, w1) ->
  array_name (arr_schema a) = p ->
  array_object_finalize eng w1 a = (Ok, w2) ->
  sys_fds w2 = sys_fds w1 -> sys_cwd w2 = sys_cwd w1 -> sys_home w2 = sys_home w1 ->
  (exists e, open_arrays_ sm1 !! p = Some e /\ cnt_ e = 1 /\
             is_Some (sys_fds w1 !! consolidation_filelock_ e)) /\
  exists sm2 w3,
    array_finalize pthread_ok eng sm1 w1 (Some a) = Ret (Ok, sm2, w3) /\
    open_arrays_ sm2 = open_arrays_ sm /\
    sys_fds w3 = sys_fds w.
Proof.
  intros Hp Hnone Hfresh Hinit Hname Hfin Hfds2 Hcwd2 Hhome2.
  unfold array_init in Hinit.
  destruct (_ >? _) in Hinit; [discriminate|].
  destruct (array_load_schema eng w p) as [[st_s [schema|]]|]; try discriminate.
  cbn [bind is_read_mode negb] in Hinit.
  rewrite (real_dir_canonical _ _ p Hp) in Hinit. cbn [bind] in Hinit.
  destruct (array_open pthread_ok eng sm w p READ) as [[[st_o smo] wo]|] eqn:Eopen;
    [|discriminate].
  cbn [bind] in Hinit.
  destruct (ok st_o) eqn:Eko; cbn [negb] in Hinit; [|discriminate].
  destruct (array_open_fresh_ok eng sm smo w wo p st_o Hnone Eopen Eko)
    as (e & key & Hreg & Hcnt & Hfd & Hfds & Hnodes & Hcwd & Hhome).
  assert (Hres : smo = sm1 /\ wo = w1 /\ arr_mode a = READ).
  { destruct (ok (array_object_init eng schema _ READ)); cbn [negb] in Hinit.
    - injection Hinit as <- <- <-. now repeat split.
    - destruct (array_close pthread_ok smo wo p) as [[[? ?] ?]|]; discriminate. }
  destruct Hres as (<- & <- & Hmode).
  assert (Hentry : open_arrays_ smo !! p = Some e) by (rewrite Hreg; apply lookup_insert_eq).
  split.
  { exists e. split; [exact Hentry|]. split; [exact Hcnt|].
    rewrite Hfd, Hfds, lookup_insert_eq. now eexists. }
  unfold array_finalize. rewrite Hfin. cbn [ok negb]. rewrite Hmode. cbn [is_read_mode].
  rewrite Hname. unfold array_close.
  cbn [pthread_ok registry_mtx_lock entry_mtx_lock entry_mtx_destroy registry_mtx_unlock ok negb].
  rewrite Hcwd2, Hhome2, Hcwd, Hhome, (real_dir_canonical _ _ p Hp). cbn [bind].
  rewrite Hentry. rewrite cnt_set_cnt, Hcnt. cbn [Z.sub Z.eqb Z.add Z.opp Z.pos_sub].
  unfold consolidation_filelock_unlock, sys_close.
  cbn [set_cnt consolidation_filelock_]. rewrite Hfd, Hfds2, Hfds, lookup_insert_eq.
  cbn [bind ok negb]. eexists _, _. split; [reflexivity|].
  cbn [open_arrays_ apply_event sys_fds event_fds]. split.
  - rewrite Hreg. rewrite delete_insert_eq. now apply delete_id.
  - rewrite Hfds2, Hfds. rewrite delete_insert_eq. now apply delete_id.
Qed.

Lemma array_init_finalize_round_trip_witness :
  let eng := example_engine (s "/w/a/__u3_3") in
  let sm := mkStorageManager ∅ in
  exists a sm1 w1,
    array_init pthread_ok eng sm example_sys (s "/w/a") READ = Ret (Ok, Some a, sm1, w1) /\
    (exists e, open_arrays_ sm1 !! s "/w/a" = Some e /\ cnt_ e = 1 /\
               is_Some (sys_fds w1 !! consolidation_filelock_ e)) /\
    exists sm2 w3,
      array_finalize pthread_ok eng sm1 w1 (Some a) = Ret (Ok, sm2, w3) /\
      open_arrays_ sm2 = open_arrays_ sm /\
      sys_fds w3 = sys_fds example_sys.
Proof.
  intros eng sm.
  assert (Hinit : exists a sm1 w1,
             array_init pthread_ok eng sm example_sys (s "/w/a") READ = Ret (Ok, Some a, sm1, w1) /\
             array_name (arr_schema a) = s "/w/a").
  { do 3 eexists. split; [vm_compute; reflexivity|reflexivity]. }
  destruct Hinit as (a & sm1 & w1 & Hinit & Hname).
  exists a, sm1, w1. split; [exact Hinit|].
  apply (array_init_finalize_round_trip eng sm sm1 example_sys w1 w1 (s "/w/a") a).
  - exact (proj2 (proj2 canonical_example_paths)).
  - reflexivity.
  - reflexivity.
  - exact Hinit.
  - exact Hname.
  - reflexivity.
  - reflexivity.
  - reflexivity.
  - reflexivity.
Defined.

(** ** Clearing and deleting *)

Lemma changes_within_refl (outside : str -> Prop) (w : Sys) : changes_within outside w w.
Proof. repeat split; auto. Qed.

Lemma changes_within_trans (o1 o2 o : str -> Prop) (w1 w2 w3 : Sys) :
  (forall k, o k -> o1 k) -> (forall k, o k -> o2 k) ->
  changes_within o1 w1 w2 -> changes_within o2 w2 w3 -> changes_within o w1 w3.
Proof.
  intros H1 H2 (Hc1 & Hh1 & Ho1 & Hs1) (Hc2 & Hh2 & Ho2 & Hs2).
  repeat split; try congruence.
  - intros k Hk. rewrite Ho2, Ho1; auto.
  - intros k. destruct (Hs2 k) as [Hn|He]; [now left|].
    rewrite He. apply Hs1.
Qed.

Lemma changes_within_nul_free (o : str -> Prop) (w w' : Sys) :
  changes_within o w w' -> nul_free w -> nul_free w'.
Proof.
  intros (_ & _ & _ & Hs) Hnul k n Hk.
  destruct (Hs k) as [Hn|He]; [congruence|].
  rewrite He in Hk. exact (Hnul k n Hk).
Qed.

Lemma delete_dir_canonical (w : Sys) (q : str) :
  canonical q ->
  delete_dir w q = Ret (match sys_nodes w !! q with
                        | Some Dir => (Ok, apply_event (EvDeleteDir q) w)
                        | _ => (UtilsError, w)
                        end).
Proof.
  intros Hq. unfold delete_dir. rewrite (real_dir_canonical _ _ q Hq). cbn.
  rewrite (os_resolve_canonical w q Hq).
  destruct (sys_nodes w !! q) as [[|]|]; reflexivity.
Qed.

Lemma delete_event_lookup (q : str) (m : gmap str node) (k : str) :
  event_nodes (EvDeleteDir q) m !! k = if at_or_below q k then None else m !! k.
Proof.
  cbn [event_nodes]. unfold at_or_below.
  destruct (str_eqb k q || starts_with k (q ++ [SLASH])) eqn:E.
  - apply map_lookup_filter_None. right. intros x _ HP. cbn in HP. congruence.
  - destruct (m !! k) as [n|] eqn:Hl.
    + apply map_lookup_filter_Some. split; [exact Hl|exact E].
    + apply map_lookup_filter_None. now left.
Qed.

Lemma delete_event_changes (q : str) (w : Sys) :
  changes_within (fun k => at_or_below q k = false) w (apply_event (EvDeleteDir q) w).
Proof.
  repeat split.
  - intros k Hk. cbn [apply_event sys_nodes]. now rewrite delete_event_lookup, Hk.
  - intros k. cbn [apply_event sys_nodes]. rewrite delete_event_lookup.
    destruct (at_or_below q k); [now left|now right].
Qed.

(** *** Paths below a directory *)

Lemma below_child (q d k : str) :
  at_or_below (q ++ SLASH :: d) k = true -> starts_with k (q ++ [SLASH]) = true.
Proof.
  unfold at_or_below. intros H. apply orb_true_iff in H as [H|H].
  - apply str_eqb_true in H as ->. apply starts_with_prefix. exists d.
    now rewrite <- app_assoc.
  - apply starts_with_prefix in H as (r & ->). apply starts_with_prefix.
    exists (d ++ [SLASH] ++ r). rewrite <- !app_assoc. reflexivity.
Qed.

Lemma not_below_self (q : str) : starts_with q (q ++ [SLASH]) = false.
Proof.
  destruct (starts_with q (q ++ [SLASH])) eqn:E; [|reflexivity].
  apply starts_with_prefix in E as (r & Hr). apply (f_equal (@length ascii)) in Hr.
  rewrite !length_app in Hr. cbn in Hr. lia.
Qed.

Lemma sibling_outside (q d d' r : str) :
  SLASH ∉ d -> SLASH ∉ d' -> d <> d' -> r = [] \/ (exists m, r = SLASH :: m) ->
  at_or_below (q ++ SLASH :: d) (q ++ SLASH :: d' ++ r) = false.
Proof.
  intros Hd Hd' Hne Hr. unfold at_or_below. apply orb_false_iff. split.
  - apply str_eqb_false. intros Heq. apply app_inv_head in Heq. injection Heq as Heq.
    destruct Hr as [->|(m & ->)].
    + rewrite app_nil_r in Heq. congruence.
    + apply Hd. rewrite <- Heq. apply elem_of_app. right. now left.
  - destruct (starts_with _ _) eqn:E; [|reflexivity].
    apply starts_with_prefix in E as (r2 & Heq). rewrite <- !app_assoc in Heq.
    apply app_inv_head in Heq. cbn in Heq. injection Heq as Heq.
    destruct Hr as [->|(m & ->)].
    + rewrite app_nil_r in Heq. contradiction Hd'. rewrite Heq.
      apply elem_of_app. right. now left.
    + apply token_split_unique in Heq; [congruence|assumption..].
Qed.

(** *** Marked directories, node by node *)

Lemma marked_nodes (w : Sys) (x m : str) :
  canonical x -> x <> s "/" -> good_token m = true ->
  is_dir w x && is_file w (x ++ s "/" ++ m) =
    match sys_nodes w !! x with Some Dir => true | _ => false end &&
    match sys_nodes w !! (x ++ SLASH :: m) with Some (File _) => true | _ => false end.
Proof.
  intros Hx Hroot Hm. rewrite (is_dir_node w x Hx), (node_at_lookup w x Hroot).
  change (x ++ s "/" ++ m) with (x ++ SLASH :: m).
  rewrite (is_file_canonical w (x ++ SLASH :: m)).
  - reflexivity.
  - now apply canonical_child.
  - now apply canonical_child_not_root.
Qed.

Lemma marked_frame (w w' : Sys) (x m : str) :
  canonical x -> x <> s "/" -> good_token m = true ->
  sys_nodes w' !! x = sys_nodes w !! x ->
  sys_nodes w' !! (x ++ SLASH :: m) = sys_nodes w !! (x ++ SLASH :: m) ->
  is_dir w' x && is_file w' (x ++ s "/" ++ m) = is_dir w x && is_file w (x ++ s "/" ++ m).
Proof.
  intros Hx Hroot Hm H1 H2. rewrite !marked_nodes by assumption. now rewrite H1, H2.
Qed.

(** *** The entries of a directory *)

Lemma child_name_Some (key k d : str) :
  key <> s "/" ->
  child_name key k = Some d <-> k = key ++ SLASH :: d /\ d <> [] /\ (SLASH ∉ d).
Proof.
  intros Hroot. unfold child_name.
  rewrite (proj2 (str_eqb_false _ _) Hroot).
  split.
  - destruct (starts_with k (key ++ [SLASH])) eqn:E; [|discriminate].
    apply starts_with_prefix in E as (r & ->).
    rewrite drop_app_length.
    destruct (str_eqb r []) eqn:Er; [discriminate|]. cbn [orb].
    destruct (bool_decide (SLASH ∈ r)) eqn:Es; [discriminate|].
    intros [= ->]. apply str_eqb_false in Er. apply bool_decide_eq_false in Es.
    rewrite <- app_assoc. now repeat split.
  - intros (-> & Hne & Hs).
    replace (key ++ SLASH :: d) with ((key ++ [SLASH]) ++ d) by now rewrite <- app_assoc.
    rewrite (proj2 (starts_with_prefix _ _)) by now exists d.
    rewrite drop_app_length.
    rewrite (proj2 (str_eqb_false _ _) Hne). cbn [orb].
    now rewrite (proj2 (bool_decide_eq_false _) Hs).
Qed.

Lemma elem_of_children (w : Sys) (key d : str) :
  key <> s "/" ->
  d ∈ children w key <->
  d <> [] /\ (SLASH ∉ d) /\ is_Some (sys_nodes w !! (key ++ SLASH :: d)).
Proof.
  intros Hroot. unfold children. rewrite list_elem_of_omap. split.
  - intros ([k n] & Hin & Hname). cbn in Hname.
    apply child_name_Some in Hname as (-> & Hne & Hs); [|exact Hroot].
    apply elem_of_map_to_list in Hin. repeat split; [assumption..|now exists n].
  - intros (Hne & Hs & n & Hn). exists (key ++ SLASH :: d, n). split.
    + now apply elem_of_map_to_list.
    + cbn. now apply child_name_Some.
Qed.

Lemma NoDup_omap_fst {A B C : Type} (f : A -> option C) (l : list (A * B)) :
  (forall a1 a2 c, f a1 = Some c -> f a2 = Some c -> a1 = a2) ->
  NoDup (l.*1) -> NoDup (omap (fun kv => f kv.1) l).
Proof.
  intros Hinj. induction l as [|[a b] l IH]; intros Hnd; [constructor|].
  cbn in Hnd. apply NoDup_cons in Hnd as [Hnotin Hnd].
  change (omap (fun kv : A * B => f kv.1) ((a, b) :: l))
    with (match f a with
          | Some c => c :: omap (fun kv : A * B => f kv.1) l
          | None => omap (fun kv : A * B => f kv.1) l
          end).
  destruct (f a) as [c|] eqn:Hfa; [|now apply IH].
  apply NoDup_cons. split; [|now apply IH].
  intros Hin. apply list_elem_of_omap in Hin as ([a2 b2] & Hin2 & Hfa2). cbn in Hfa2.
  apply Hnotin. rewrite (Hinj a a2 c Hfa Hfa2).
  apply list_elem_of_fmap. now exists (a2, b2).
Qed.

Lemma NoDup_children (w : Sys) (key : str) : key <> s "/" -> NoDup (children w key).
Proof.
  intros Hroot. unfold children. apply NoDup_omap_fst.
  - intros a1 a2 c H1 H2. apply child_name_Some in H1 as (-> & _), H2 as (-> & _); auto.
  - apply NoDup_fst_map_to_list.
Qed.

Lemma NoDup_bool_filter {A : Type} (f : A -> bool) (l : list A) :
  NoDup l -> NoDup (List.filter f l).
Proof.
  induction 1 as [|x l Hx Hnd IH]; cbn; [constructor|].
  destruct (f x); [|exact IH]. constructor; [|exact IH].
  intros Hin. apply Hx. apply list_elem_of_In in Hin. apply List.filter_In in Hin as [Hin _].
  now apply list_elem_of_In.
Qed.

Lemma readdir_entries (w : Sys) (q : str) :
  q <> s "/" -> nul_free w ->
  Forall entry_ok (s "." :: s ".." :: children w q) /\
  NoDup (List.filter good_token (s "." :: s ".." :: children w q)).
Proof.
  intros Hroot Hnul. split.
  - constructor; [now left|]. constructor; [right; now left|].
    apply Forall_forall. intros d Hd.
    apply elem_of_children in Hd as (Hne & Hs & n & Hn); [|exact Hroot].
    apply Hnul in Hn. cbn in Hn.
    destruct (decide (d = s ".")) as [->|H1]; [now left|].
    destruct (decide (d = s "..")) as [->|H2]; [right; now left|].
    right. right. apply good_token_intro; try assumption.
    intros Hin. apply Hn. apply elem_of_app. right. now right.
  - change (List.filter good_token (s "." :: s ".." :: children w q))
      with (List.filter good_token (children w q)).
    apply NoDup_bool_filter. now apply NoDup_children.
Qed.

Lemma not_skipped (schema d : str) :
  entry_ok d ->
  str_eqb d (s ".") || str_eqb d (s "..") || str_eqb d schema ||
    str_eqb d TILEDB_SM_CONSOLIDATION_FILELOCK_NAME = false <->
  good_token d = true /\ d <> schema /\ d <> TILEDB_SM_CONSOLIDATION_FILELOCK_NAME.
Proof.
  intros Hd. rewrite !orb_false_iff, !str_eqb_false. split.
  - intros (((H1 & H2) & H3) & H4). destruct Hd as [->|[->|Hg]]; tauto.
  - intros (Hg & H3 & H4). apply good_token_inv in Hg. tauto.
Qed.

(** *** [metadata_clear] and [metadata_delete] *)

Lemma metadata_clear_loop_frame (q : str) :
  canonical q -> q <> s "/" ->
  forall entries w, Forall entry_ok entries ->
  exists st w', metadata_clear_loop w q entries = Ret (st, w') /\
                changes_within (fun k => starts_with k (q ++ [SLASH]) = false) w w'.
Proof.
  intros Hq Hroot. induction entries as [|d rest IH]; intros w Hok.
  - exists Ok, w. split; [reflexivity|apply changes_within_refl].
  - apply Forall_cons in Hok as [Hd Hrest]. cbn [metadata_clear_loop].
    destruct (_ || _) eqn:Hskip; [now apply IH|].
    apply (not_skipped _ d Hd) in Hskip as (Hg & _ & _).
    cbv zeta. change (q ++ s "/" ++ d) with (q ++ SLASH :: d).
    assert (Hx : canonical (q ++ SLASH :: d)) by now apply canonical_child.
    destruct (is_fragment w (q ++ SLASH :: d)).
    + rewrite (delete_dir_canonical w _ Hx). cbn [bind].
      destruct (lookup (K:=str) (q ++ SLASH :: d) (sys_nodes w)) as [[|]|]; cbn [ok negb].
      * destruct (IH (apply_event (EvDeleteDir (q ++ SLASH :: d)) w) Hrest)
          as (st & w' & Hrun & Hframe).
        exists st, w'. split; [exact Hrun|].
        refine (changes_within_trans _ _ _ _ _ _ _ _ (delete_event_changes _ _) Hframe);
          [|auto].
        intros k Hk. destruct (at_or_below (q ++ SLASH :: d) k) eqn:E; [|reflexivity].
        apply below_child in E. congruence.
      * exists UtilsError, w. split; [reflexivity|apply changes_within_refl].
      * exists UtilsError, w. split; [reflexivity|apply changes_within_refl].
    + eexists _, w. split; [reflexivity|apply changes_within_refl].
Qed.

Lemma readdir_canonical (w : Sys) (q : str) :
  canonical q -> q <> s "/" ->
  sys_readdir w q = match sys_nodes w !! q with
                    | Some Dir => Some (s "." :: s ".." :: children w q)
                    | _ => None
                    end.
Proof.
  intros Hq Hroot. unfold sys_readdir.
  now rewrite (os_resolve_canonical w q Hq), (node_at_lookup w q Hroot).
Qed.

Lemma metadata_clear_frame (w : Sys) (q : str) :
  canonical q -> q <> s "/" -> nul_free w ->
  exists st w', metadata_clear w q = Ret (st, w') /\
                changes_within (fun k => starts_with k (q ++ [SLASH]) = false) w w'.
Proof.
  intros Hq Hroot Hnul. unfold metadata_clear. rewrite (real_dir_canonical _ _ q Hq). cbn [bind].
  destruct (negb (is_metadata w q)).
  { eexists _, w. split; [reflexivity|apply changes_within_refl]. }
  rewrite (readdir_canonical w q Hq Hroot).
  destruct (sys_nodes w !! q) as [[|]|].
  - apply metadata_clear_loop_frame; [assumption..|]. now apply readdir_entries.
  - eexists _, w. split; [reflexivity|apply changes_within_refl].
  - eexists _, w. split; [reflexivity|apply changes_within_refl].
Qed.

Lemma metadata_delete_frame (w : Sys) (q : str) :
  canonical q -> q <> s "/" -> nul_free w ->
  exists st w', metadata_delete w q = Ret (st, w') /\
                changes_within (fun k => at_or_below q k = false) w w'.
Proof.
  intros Hq Hroot Hnul. unfold metadata_delete. rewrite (real_dir_canonical _ _ q Hq). cbn [bind].
  destruct (metadata_clear_frame w q Hq Hroot Hnul) as (st1 & w1 & Hrun & Hframe).
  rewrite Hrun. cbn [bind].
  assert (Hweak : changes_within (fun k => at_or_below q k = false) w w1).
  { apply (changes_within_trans _ _ _ w w1 w1 (fun k H => H) (fun k H => H));
      [|apply changes_within_refl].
    destruct Hframe as (H1 & H2 & H4 & H5). repeat split; try assumption.
    intros k Hk. apply H4. unfold at_or_below in Hk. now apply orb_false_iff in Hk. }
  destruct (negb (ok st1)); [now exists st1, w1|].
  rewrite (delete_dir_canonical w1 q Hq).
  destruct (sys_nodes w1 !! q) as [[|]|]; cbn.
  - exists Ok, (apply_event (EvDeleteDir q) w1). split; [reflexivity|].
    apply (changes_within_trans _ _ _ w w1 _ (fun k H => H) (fun k H => H) Hweak).
    apply delete_event_changes.
  - now exists UtilsError, w1.
  - now exists UtilsError, w1.
Qed.

(** *** [array_clear] and [array_delete] *)

Lemma array_outside_child (q d k : str) :
  good_token d = true ->
  d <> TILEDB_ARRAY_SCHEMA_FILENAME -> d <> TILEDB_SM_CONSOLIDATION_FILELOCK_NAME ->
  array_outside q k -> at_or_below (q ++ SLASH :: d) k = false.
Proof.
  intros Hg Hs Hl Hout. apply good_token_inv in Hg as (_ & Hslash & _).
  destruct Hout as [H|[-> | ->]].
  - destruct (at_or_below (q ++ SLASH :: d) k) eqn:E; [|reflexivity].
    apply below_child in E. congruence.
  - pose proof (sibling_outside q d TILEDB_ARRAY_SCHEMA_FILENAME [] Hslash) as H.
    rewrite app_nil_r in H. apply H; [|assumption|now left].
    apply (bool_decide_unpack _). vm_compute. exact I.
  - pose proof (sibling_outside q d TILEDB_SM_CONSOLIDATION_FILELOCK_NAME [] Hslash) as H.
    rewrite app_nil_r in H. apply H; [|assumption|now left].
    apply (bool_decide_unpack _). vm_compute. exact I.
Qed.

Lemma sibling_marked (w w1 : Sys) (q d d' m : str) :
  canonical q -> q <> s "/" -> good_token d = true -> good_token d' = true -> d' <> d ->
  good_token m = true ->
  changes_within (fun k => at_or_below (q ++ SLASH :: d) k = false) w w1 ->
  is_dir w1 (q ++ SLASH :: d') && is_file w1 ((q ++ SLASH :: d') ++ s "/" ++ m) =
  is_dir w (q ++ SLASH :: d') && is_file w ((q ++ SLASH :: d') ++ s "/" ++ m).
Proof.
  intros Hq Hroot Hd Hd' Hne Hm (_ & _ & Hout & _).
  apply good_token_inv in Hd as (_ & Hsd & _). pose proof Hd' as Hgd'.
  apply good_token_inv in Hd' as (_ & Hsd' & _).
  apply marked_frame; [now apply canonical_child|now apply canonical_child_not_root|exact Hm| |].
  - apply Hout. pose proof (sibling_outside q d d' [] Hsd Hsd') as H.
    rewrite app_nil_r in H. apply H; [congruence|now left].
  - apply Hout. rewrite <- app_assoc. cbn [app].
    apply sibling_outside; [assumption..|congruence|right; now eexists].
Qed.

Lemma fragment_is_dir (w : Sys) (x : str) :
  canonical x -> x <> s "/" -> is_fragment w x = true -> sys_nodes w !! x = Some Dir.
Proof.
  intros Hx Hroot H. unfold is_fragment in H. rewrite marked_nodes in H by easy.
  apply andb_true_iff in H as [H _].
  destruct (sys_nodes w !! x) as [[|]|]; [reflexivity|discriminate..].
Qed.

Lemma array_clear_step (q d : str) (rest : list str) (w w1 : Sys) (st : Status) (w' : Sys) :
  canonical q -> q <> s "/" ->
  good_token d = true ->
  d <> TILEDB_ARRAY_SCHEMA_FILENAME -> d <> TILEDB_SM_CONSOLIDATION_FILELOCK_NAME ->
  (forall d', d' ∈ rest -> good_token d' = true -> d' <> d) ->
  changes_within (fun k => at_or_below (q ++ SLASH :: d) k = false) w w1 ->
  is_metadata w (q ++ SLASH :: d) = true \/ is_fragment w (q ++ SLASH :: d) = true ->
  (is_metadata w (q ++ SLASH :: d) = false -> sys_nodes w1 !! (q ++ SLASH :: d) = None) ->
  array_clear_post q rest w1 st w' ->
  array_clear_post q (d :: rest) w st w'.
Proof.
  intros Hq Hroot Hg Hs Hl Hdiff Hf1 Hhead Hgone1 (Hf & Hiff & Hgone).
  assert (Hmeta : forall d', d' ∈ rest -> good_token d' = true ->
            is_metadata w1 (q ++ SLASH :: d') = is_metadata w (q ++ SLASH :: d')).
  { intros d' Hin Hg'. unfold is_metadata.
    apply (sibling_marked w w1 q d d'); auto. }
  assert (Hfrag : forall d', d' ∈ rest -> good_token d' = true ->
            is_fragment w1 (q ++ SLASH :: d') = is_fragment w (q ++ SLASH :: d')).
  { intros d' Hin Hg'. unfold is_fragment.
    apply (sibling_marked w w1 q d d'); auto. }
  split; [|split].
  - refine (changes_within_trans _ _ _ _ _ _ _ _ Hf1 Hf); [|auto].
    intros k Hk. now apply array_outside_child.
  - rewrite Hiff. split.
    + intros H d0 (Hin & Hg0 & Hs0 & Hl0). apply elem_of_cons in Hin as [-> | Hin]; [exact Hhead|].
      rewrite <- (Hmeta d0), <- (Hfrag d0) by assumption. now apply H.
    + intros H d0 (Hin & Hg0 & Hs0 & Hl0).
      rewrite (Hmeta d0), (Hfrag d0) by assumption. apply H.
      repeat split; try assumption. now right.
  - intros Hok d0 (Hin & Hg0 & Hs0 & Hl0) Hnm. apply elem_of_cons in Hin as [-> | Hin].
    + destruct Hf as (_ & _ & _ & Hshrink).
      destruct (Hshrink (q ++ SLASH :: d)) as [Hn|He]; [exact Hn|].
      etransitivity; [exact He|now apply Hgone1].
    + apply (Hgone Hok); [now repeat split|]. now rewrite Hmeta.
Qed.

Lemma array_clear_loop_spec (q : str) :
  canonical q -> q <> s "/" ->
  forall entries w, nul_free w -> Forall entry_ok entries ->
  NoDup (List.filter good_token entries) ->
  exists st w', array_clear_loop w q entries = Ret (st, w') /\
                array_clear_post q entries w st w'.
Proof.
  intros Hq Hroot. induction entries as [|d rest IH]; intros w Hnul Hok Hnd.
  - exists Ok, w. split; [reflexivity|]. split; [apply changes_within_refl|].
    split; [|intros _ d (Hin & _); now apply elem_of_nil in Hin].
    split; [intros _ d (Hin & _); now apply elem_of_nil in Hin|reflexivity].
  - apply Forall_cons in Hok as [Hd Hrest]. cbn [array_clear_loop].
    destruct (_ || _) eqn:Hskip.
    + assert (Hnd' : NoDup (List.filter good_token rest)).
      { cbn [List.filter] in Hnd. destruct (good_token d); [|exact Hnd].
        now apply NoDup_cons in Hnd as [_ Hnd]. }
      destruct (IH w Hnul Hrest Hnd') as (st & w' & Hrun & Hf & Hiff & Hgone).
      exists st, w'. split; [exact Hrun|].
      assert (Hsame : forall d0, cleared_entry (d :: rest) d0 <-> cleared_entry rest d0).
      { intros d0. unfold cleared_entry. rewrite elem_of_cons. split.
        - intros ([-> | Hin] & Hg0 & Hs0 & Hl0); [|tauto].
          assert (Hno : str_eqb d (s ".") || str_eqb d (s "..") ||
                        str_eqb d TILEDB_ARRAY_SCHEMA_FILENAME ||
                        str_eqb d TILEDB_SM_CONSOLIDATION_FILELOCK_NAME = false)
            by now apply not_skipped.
          congruence.
        - tauto. }
      split; [exact Hf|]. split.
      * rewrite Hiff. split; intros H d0 Hd0; apply H; now apply Hsame.
      * intros Hok d0 Hd0. apply (Hgone Hok). now apply Hsame.
    + apply (not_skipped _ d Hd) in Hskip as (Hg & Hs & Hl).
      cbv zeta. change (q ++ s "/" ++ d) with (q ++ SLASH :: d).
      assert (Hx : canonical (q ++ SLASH :: d)) by now apply canonical_child.
      assert (Hxr : q ++ SLASH :: d <> s "/") by now apply canonical_child_not_root.
      cbn [List.filter] in Hnd. rewrite Hg in Hnd. apply NoDup_cons in Hnd as [Hnotin Hnd].
      assert (Hdiff : forall d', d' ∈ rest -> good_token d' = true -> d' <> d).
      { intros d' Hin Hg' ->. apply Hnotin. apply list_elem_of_In, List.filter_In.
        split; [now apply list_elem_of_In|exact Hg']. }
      destruct (is_metadata w (q ++ SLASH :: d)) eqn:Hm.
      * destruct (metadata_delete_frame w _ Hx Hxr Hnul) as (st1 & w1 & Hrun1 & Hf1).
        rewrite Hrun1. cbn [bind snd].
        destruct (IH w1 (changes_within_nul_free _ _ _ Hf1 Hnul) Hrest Hnd)
          as (st & w' & Hrun & Hpost).
        exists st, w'. split; [exact Hrun|].
        apply (array_clear_step q d rest w w1 st w' Hq Hroot Hg Hs Hl Hdiff Hf1);
          [now left|intros Hno; congruence|exact Hpost].
      * destruct (is_fragment w (q ++ SLASH :: d)) eqn:Hfr.
        -- rewrite (delete_dir_canonical w _ Hx). cbn [bind].
           rewrite (fragment_is_dir w _ Hx Hxr Hfr). cbn [ok negb].
           pose proof (delete_event_changes (q ++ SLASH :: d) w) as Hf1.
           destruct (IH _ (changes_within_nul_free _ _ _ Hf1 Hnul) Hrest Hnd)
             as (st & w' & Hrun & Hpost).
           exists st, w'. split; [exact Hrun|].
           apply (array_clear_step q d rest w _ st w' Hq Hroot Hg Hs Hl Hdiff Hf1);
             [now right| |exact Hpost].
           intros _. cbn [apply_event sys_nodes]. rewrite delete_event_lookup.
           unfold at_or_below. now rewrite str_eqb_refl.
        -- eexists _, w. split; [reflexivity|]. split; [apply changes_within_refl|].
           split; [|discriminate]. split; [discriminate|].
           intros H. destruct (H d) as [H1|H1]; [|congruence..].
           repeat split; try assumption. now left.
Qed.

Lemma array_clear_run (w : Sys) (p : str) :
  canonical p -> p <> s "/" -> nul_free w ->
  exists st w', array_clear w p = Ret (st, w') /\
    (is_array w p = false /\ st <> Ok /\ w' = w \/
     is_array w p = true /\
     array_clear_post p (s "." :: s ".." :: children w p) w st w').
Proof.
  intros Hp Hroot Hnul. unfold array_clear. rewrite (real_dir_canonical _ _ p Hp). cbn [bind].
  destruct (is_array w p) eqn:Harr; cbn [negb].
  - rewrite (readdir_canonical w p Hp Hroot).
    assert (Hdir : sys_nodes w !! p = Some Dir).
    { unfold is_array in Harr. rewrite marked_nodes in Harr by easy.
      apply andb_true_iff in Harr as [H _].
      destruct (sys_nodes w !! p) as [[|]|]; [reflexivity|discriminate..]. }
    rewrite Hdir.
    destruct (readdir_entries w p Hroot Hnul) as [Hok Hnd].
    destruct (array_clear_loop_spec p Hp Hroot _ w Hnul Hok Hnd) as (st & w' & Hrun & Hpost).
    exists st, w'. split; [exact Hrun|]. right. now split.
  - eexists _, w. split; [reflexivity|]. left. now repeat split.
Qed.

Lemma cleared_entry_children (w : Sys) (p d : str) :
  p <> s "/" -> nul_free w ->
  cleared_entry (s "." :: s ".." :: children w p) d <->
  d ∈ children w p /\ d <> s "." /\ d <> s ".." /\
  d <> TILEDB_ARRAY_SCHEMA_FILENAME /\ d <> TILEDB_SM_CONSOLIDATION_FILELOCK_NAME.
Proof.
  intros Hroot Hnul. unfold cleared_entry. rewrite !elem_of_cons. split.
  - intros (Hin & Hg & Hs & Hl). pose proof (good_token_inv d Hg) as (_ & _ & _ & H1 & H2).
    destruct Hin as [->|[->|Hin]]; [congruence..|]. now repeat split.
  - intros (Hin & H1 & H2 & Hs & Hl).
    destruct (readdir_entries w p Hroot Hnul) as [Hok _].
    apply Forall_cons in Hok as [_ Hok]. apply Forall_cons in Hok as [_ Hok].
    rewrite Forall_forall in Hok. destruct (Hok d Hin) as [->|[->|Hg]]; [congruence..|].
    repeat split; auto.
Qed.

Lemma array_survives (w w' : Sys) (p : str) :
  canonical p -> p <> s "/" ->
  changes_within (array_outside p) w w' -> is_array w' p = is_array w p.
Proof.
  intros Hp Hroot (_ & _ & Hout & _). unfold is_array.
  apply marked_frame; [assumption..|reflexivity| |].
  - apply Hout. left. apply not_below_self.
  - apply Hout. right. now left.
Qed.

(** X26: [array_clear] on a canonical path other than the root, in a
    file system whose names are C strings, returns. It returns Ok exactly
    when the path holds an array and every entry of its directory other than
    ".", "..", the schema file and the lock file is a metadata directory
    or a fragment directory. Whatever it returns, the nodes outside the
    array directory, the directory itself, its schema file and its lock
    file are as before; when it returns Ok the array is
    still an array, and every entry that was not a metadata directory is
    gone. *)
Theorem array_clear_keeps_the_array (w : Sys) (p : str) :
  canonical p -> p <> s "/" -> nul_free w ->
  exists st w',
    array_clear w p = Ret (st, w') /\
    (forall k, array_outside p k -> sys_nodes w' !! k = sys_nodes w !! k) /\
    (st = Ok <->
     is_array w p = true /\
     forall d, d ∈ children w p -> d <> s "." -> d <> s ".." ->
               d <> TILEDB_ARRAY_SCHEMA_FILENAME ->
               d <> TILEDB_SM_CONSOLIDATION_FILELOCK_NAME ->
               is_metadata w (p ++ SLASH :: d) = true \/
               is_fragment w (p ++ SLASH :: d) = true) /\
    (st = Ok ->
     is_array w' p = true /\
     forall d, d ∈ children w p -> d <> s "." -> d <> s ".." ->
               d <> TILEDB_ARRAY_SCHEMA_FILENAME ->
               d <> TILEDB_SM_CONSOLIDATION_FILELOCK_NAME ->
               is_metadata w (p ++ SLASH :: d) = false ->
               sys_nodes w' !! (p ++ SLASH :: d) = None).
Proof.
  intros Hp Hroot Hnul.
  destruct (array_clear_run w p Hp Hroot Hnul)
    as (st & w' & Hrun & [(Harr & Hst & ->)|(Harr & Hf & Hiff & Hgone)]).
  - exists st, w. split; [exact Hrun|]. split; [reflexivity|].
    split; [|intros Hok; now contradiction Hst].
    split; [intros Hok; now contradiction Hst|]. intros [H _]. congruence.
  - exists st, w'. split; [exact Hrun|].
    split; [apply Hf|]. split.
    + rewrite Hiff. split.
      * intros H. split; [exact Harr|]. intros d Hin H1 H2 H3 H4. apply H.
        apply cleared_entry_children; auto.
      * intros [_ H] d Hd. apply cleared_entry_children in Hd as (Hin & H1 & H2 & H3 & H4); auto.
    + intros Hok. split.
      * now rewrite (array_survives w w' p Hp Hroot Hf).
      * intros d Hin H1 H2 H3 H4. apply (Hgone Hok). apply cleared_entry_children; auto.
Qed.

(** X27: [array_delete] on a canonical path other than the root, in a
    file system whose names are C strings, returns. It returns Ok exactly
    when [array_clear] does; then no node is left at the path or below
    it. Whatever it returns, the nodes that are not at the path or below
    it are as before, and when it fails the array
    directory and its schema file are still what they were. *)
Theorem array_delete_removes_the_array (w : Sys) (p : str) :
  canonical p -> p <> s "/" -> nul_free w ->
  exists st w',
    array_delete w p = Ret (st, w') /\
    (forall k, at_or_below p k = false -> sys_nodes w' !! k = sys_nodes w !! k) /\
    (st = Ok <->
     is_array w p = true /\
     forall d, d ∈ children w p -> d <> s "." -> d <> s ".." ->
               d <> TILEDB_ARRAY_SCHEMA_FILENAME ->
               d <> TILEDB_SM_CONSOLIDATION_FILELOCK_NAME ->
               is_metadata w (p ++ SLASH :: d) = true \/
               is_fragment w (p ++ SLASH :: d) = true) /\
    (st = Ok -> forall k, at_or_below p k = true -> sys_nodes w' !! k = None) /\
    (st <> Ok -> is_array w' p = is_array w p).
Proof.
  intros Hp Hroot Hnul. unfold array_delete.
  destruct (array_clear_run w p Hp Hroot Hnul)
    as (st & w1 & Hrun & [(Harr & Hst & ->)|(Harr & Hf & Hiff & Hgone)]);
    rewrite Hrun; cbn [bind].
  - destruct st; [now contradiction Hst|..]; cbn [ok negb].
    + eexists _, w. split; [reflexivity|]. split; [reflexivity|].
      split; [split; [discriminate|intros [H _]; congruence]|].
      split; [discriminate|reflexivity].
    + eexists _, w. split; [reflexivity|]. split; [reflexivity|].
      split; [split; [discriminate|intros [H _]; congruence]|].
      split; [discriminate|reflexivity].
  - assert (Hout : forall k, at_or_below p k = false -> array_outside p k).
    { intros k Hk. left. unfold at_or_below in Hk. now apply orb_false_iff in Hk. }
    assert (Hchildren :
              (forall d, cleared_entry (s "." :: s ".." :: children w p) d ->
                         is_metadata w (p ++ SLASH :: d) = true \/
                         is_fragment w (p ++ SLASH :: d) = true) <->
              (forall d, d ∈ children w p -> d <> s "." -> d <> s ".." ->
                         d <> TILEDB_ARRAY_SCHEMA_FILENAME ->
                         d <> TILEDB_SM_CONSOLIDATION_FILELOCK_NAME ->
                         is_metadata w (p ++ SLASH :: d) = true \/
                         is_fragment w (p ++ SLASH :: d) = true)).
    { split.
      - intros H d Hin H1 H2 H3 H4. apply H. apply cleared_entry_children; auto.
      - intros H d Hd. apply cleared_entry_children in Hd as (Hin & H1 & H2 & H3 & H4); auto. }
    destruct (ok st) eqn:Hst; cbn [negb].
    + assert (st = Ok) as -> by now destruct st.
      rewrite (delete_dir_canonical w1 p Hp). cbn [bind].
      assert (Hdir : sys_nodes w1 !! p = Some Dir).
      { pose proof (array_survives w w1 p Hp Hroot Hf) as Hsurv. rewrite Harr in Hsurv.
        unfold is_array in Hsurv. rewrite marked_nodes in Hsurv by easy.
        apply andb_true_iff in Hsurv as [H _].
        destruct (sys_nodes w1 !! p) as [[|]|]; [reflexivity|discriminate..]. }
      rewrite Hdir. cbn [ok negb].
      eexists _, _. split; [reflexivity|].
      pose proof (delete_event_changes p w1) as Hdel.
      split.
      { intros k Hk. cbn [apply_event sys_nodes]. rewrite delete_event_lookup, Hk.
        apply Hf. now apply Hout. }
      split.
      { split; [intros _; split; [exact Harr|]; now apply Hchildren, Hiff|reflexivity]. }
      split; [|intros H; now contradiction H].
      intros _ k Hk. cbn [apply_event sys_nodes]. now rewrite delete_event_lookup, Hk.
    + exists st, w1. split; [reflexivity|].
      split; [intros k Hk; apply Hf; now apply Hout|].
      split.
      { rewrite Hiff, Hchildren. split; [intros H; now split|now intros [_ H]]. }
      split; [intros ->; discriminate|].
      intros _. apply (array_survives w w1 p Hp Hroot Hf).
Qed.

Lemma array_clear_keeps_the_array_witness :
  exists st w',
    array_clear example_sys (s "/w/a") = Ret (st, w') /\
    (forall k, array_outside (s "/w/a") k -> sys_nodes w' !! k = sys_nodes example_sys !! k) /\
    (st = Ok <->
     is_array example_sys (s "/w/a") = true /\
     forall d, d ∈ children example_sys (s "/w/a") -> d <> s "." -> d <> s ".." ->
               d <> TILEDB_ARRAY_SCHEMA_FILENAME ->
               d <> TILEDB_SM_CONSOLIDATION_FILELOCK_NAME ->
               is_metadata example_sys (s "/w/a" ++ SLASH :: d) = true \/
               is_fragment example_sys (s "/w/a" ++ SLASH :: d) = true) /\
    (st = Ok ->
     is_array w' (s "/w/a") = true /\
     forall d, d ∈ children example_sys (s "/w/a") -> d <> s "." -> d <> s ".." ->
               d <> TILEDB_ARRAY_SCHEMA_FILENAME ->
               d <> TILEDB_SM_CONSOLIDATION_FILELOCK_NAME ->
               is_metadata example_sys (s "/w/a" ++ SLASH :: d) = false ->
               sys_nodes w' !! (s "/w/a" ++ SLASH :: d) = None).
Proof.
  apply (array_clear_keeps_the_array example_sys (s "/w/a")).
  - exact (proj2 (proj2 canonical_example_paths)).
  - discriminate.
  - apply (bool_decide_unpack _). vm_compute. exact I.
Defined.

Lemma array_delete_removes_the_array_witness :
  let w := apply_event (EvCreat (s "/w/a/__u3_3/__tiledb_fragment.tdb")) example_sys in
  exists w',
    array_delete w (s "/w/a") = Ret (Ok, w') /\
    (forall k, at_or_below (s "/w/a") k = false -> sys_nodes w' !! k = sys_nodes w !! k) /\
    (forall k, at_or_below (s "/w/a") k = true -> sys_nodes w' !! k = None).
Proof.
  intros w.
  destruct (array_delete_removes_the_array w (s "/w/a"))
    as (st & w' & Hrun & Hframe & Hiff & Hgone & _).
  - exact (proj2 (proj2 canonical_example_paths)).
  - discriminate.
  - apply (bool_decide_unpack _). vm_compute. exact I.
  - assert (Hok : st = Ok).
    { assert (Hrun' : exists w'', array_delete w (s "/w/a") = Ret (Ok, w''))
        by (eexists; vm_compute; reflexivity).
      destruct Hrun' as (w'' & Hrun'). congruence. }
    exists w'. rewrite <- Hok at 1. split; [exact Hrun|].
    split; [exact Hframe|]. now apply Hgone.
Defined.

(** On the example state the array holds a directory without the
    fragment marker: [array_delete] fails there and the array stays.
    Once that directory has its marker, [array_delete] succeeds and
    only the workspace is left. *)
Example array_delete_example :
  (exists msg w', array_delete example_sys (s "/w/a") = Ret (StorageManagerError msg, w') /\
                  is_array w' (s "/w/a") = true) /\
  (let w := apply_event (EvCreat (s "/w/a/__u3_3/__tiledb_fragment.tdb")) example_sys in
   exists w', array_delete w (s "/w/a") = Ret (Ok, w') /\
              sys_nodes w' = list_to_map [(s "/w", Dir);
                                          (s "/w/__tiledb_workspace.tdb", File [])]).
Proof.
  split.
  - do 2 eexists. split; [vm_compute; reflexivity|]. vm_compute. reflexivity.
  - intros w. eexists. split; [vm_compute; reflexivity|]. vm_compute. reflexivity.
Qed.

(** ** Where the code departs from the specification *)

(** The status [array_consolidate] returns, for every run that gets
    past [array_init]: [Ok] exactly when finalizing the array and closing
    it succeed and [consolidation_finalize] fails. *)
Theorem array_consolidate_status
  (mx : Pthread) (eng : Engine) (sm : StorageManager) (w : Sys) (array_dir : str) :
  match array_consolidate mx eng sm w array_dir with
  | Ret (st, Some ph, _, _) =>
      ok st = ok (st_array_finalize ph) &&
              (ok (st_array_close ph) && negb (ok (st_consolidation_finalize ph)))
  | _ => True
  end.
Proof.
  destruct (array_consolidate mx eng sm w array_dir) as [[[[st [ph|]] sm'] w']|] eqn:Hrun;
    try exact I.
  unfold array_consolidate in Hrun.
  destruct (array_init mx eng sm w array_dir READ) as [[[[st_init array] sm1] w1]|]; [|discriminate].
  cbn [bind] in Hrun. destruct array as [array|]; [|discriminate].
  destruct (array_object_consolidate eng w1 array) as [[[st_c nf] olds] w2].
  destruct (array_close mx sm1 w2 (array_name (arr_schema array))) as [[[st_close sm2] w3]|];
    [|discriminate].
  cbn [bind] in Hrun.
  destruct (consolidation_finalize w3 (fd_uninit eng) nf olds) as [[st_cf w4]|]; [|discriminate].
  cbn [bind] in Hrun. destruct (array_object_finalize eng w4 array) as [st_fin w5].
  injection Hrun as <- <- _ _. cbn [st_array_finalize st_array_close st_consolidation_finalize].
  unfold consolidate_status.
  destruct (ok st_fin), (ok st_close), (ok st_cf); reflexivity.
Qed.

(** C1, the code at two inputs. On the example array every phase
    succeeds, and [array_consolidate] returns an error; when the new
    fragment's directory is missing, [consolidation_finalize] fails, and
    [array_consolidate] returns [Ok]. *)
Theorem array_consolidate_success_condition_inverted :
  (exists sm w,
      array_consolidate pthread_ok (example_engine (s "/w/a/__u3_3"))
        (mkStorageManager ∅) example_sys (s "/w/a") =
      Ret (StorageManagerError (s "Could not consolidate array: /w/a"),
           Some (mkPhases Ok Ok Ok Ok Ok), sm, w)) /\
  (exists sm w,
      array_consolidate pthread_ok (example_engine (s "/w/a/__u4_4"))
        (mkStorageManager ∅) example_sys (s "/w/a") =
      Ret (Ok, Some (mkPhases Ok Ok Ok UtilsError Ok), sm, w)).
Proof.
  split.
  - eexists _, _. vm_compute. reflexivity.
  - eexists _, _. vm_compute. reflexivity.
Qed.

(** C2, the code at an input. A stream that holds three bytes is
    inflated into a buffer allocated with one byte: the buffer is doubled
    once, to two bytes, and the three bytes are copied into it. *)
Theorem gunzip_streaming_writes_past_allocation :
  exists st,
    gunzip_unknown_output_size 16384 (s "abc") 1 = Some st /\
    gz_out st = s "abc" /\
    gz_avail_out st = 2 /\
    gz_writes st = [mkWrite 0 3 2] /\
    forallb within_allocation (gz_writes st) = false.
Proof.
  eexists. split; [vm_compute; reflexivity|].
  repeat split.
Qed.

(** C5, the code at three inputs. A name with no timestamp field keeps
    the pair (0, 0), and the sorted list then holds the first fragment
    twice; a timestamp that is not a number takes the value read for the
    fragment before it, or what the uninitialised variable holds; and in
    each case the function returns a list. *)
Theorem sort_fragment_names_defaults_silently :
  (timestamps_loop (s "/home/u") (s "/home/u") [s "/w/a/__u_5"; s "/w/a/__x"] 0 7 =
     Ret [(5, 0); (0, 0)] /\
   sort_fragment_names (s "/home/u") (s "/home/u") 7 [s "/w/a/__u_5"; s "/w/a/__x"] =
     Ret [s "/w/a/__u_5"; s "/w/a/__u_5"]) /\
  (timestamps_loop (s "/home/u") (s "/home/u")
     [s "/w/a/__u_5"; s "/w/a/__x_abc"; s "/w/a/__y_4"] 0 7 = Ret [(5, 0); (5, 1); (4, 2)] /\
   sort_fragment_names (s "/home/u") (s "/home/u") 7
     [s "/w/a/__u_5"; s "/w/a/__x_abc"; s "/w/a/__y_4"] =
     Ret [s "/w/a/__y_4"; s "/w/a/__u_5"; s "/w/a/__x_abc"]) /\
  (forall t_uninit,
     timestamps_loop (s "/home/u") (s "/home/u") [s "/w/a/__x_abc"] 0 t_uninit =
       Ret [(t_uninit, 0)]).
Proof.
  split; [|split].
  - split; vm_compute; reflexivity.
  - split; vm_compute; reflexivity.
  - intros t_uninit. reflexivity.
Qed.
